(** * omicron-process: segment engine, workflow compiler and execution driver

    A shallow embedding of [omicron/cli/process.py] (function [main]) and
    the properties of its run-segment selection, DAG construction and
    submission loop.

    Conventions.  GPS times and durations are Python integers, modelled
    as [Z].  A [Segment] is a pair of integers kept in order by its
    constructor, a [SegmentList] a Python list of segments.  Calls that
    leave the process (condor, datafind, the segment database, the clock)
    are read from an environment record, and so is what the run
    directories hold when [main] cleans them, so that [main] is a
    function of the command line, the configuration and the answers of
    its collaborators. *)

From Stdlib Require Import ZArith List Bool String Ascii Lia Arith.
Import ListNotations.

Local Open Scope Z_scope.

(* ================================================================== *)
(** ** Segments (ligo.segments / gwpy.segments, as used by [main])     *)
(* ================================================================== *)

Module Seg.

Definition segment := (Z * Z)%type.
Definition segmentlist := list segment.

(** [Segment(a, b)]: the constructor stores its bounds in order. *)
Definition Segment (a b : Z) : segment :=
  if a <=? b then (a, b) else (b, a).

(** [abs(seg)] *)
Definition abs (s : segment) : Z := snd s - fst s.

(** [abs(seglist)] *)
Definition abs_list (l : segmentlist) : Z :=
  fold_right (fun s acc => abs s + acc) 0 l.

(** [seg & other] for two segments; [None] when they do not overlap. *)
Definition inter (a b : segment) : option segment :=
  let lo := Z.max (fst a) (fst b) in
  let hi := Z.min (snd a) (snd b) in
  if lo <? hi then Some (lo, hi) else None.

Definition opt_cons {A} (o : option A) (l : list A) : list A :=
  match o with Some x => x :: l | None => l end.

(** [a & b] on segment lists: the times that lie in both.  The lists
    are read as sets of non-empty intervals, which is what the library
    computes on coalesced lists of non-empty segments. *)
Definition and_ (a b : segmentlist) : segmentlist :=
  flat_map (fun x => fold_right (fun y acc => opt_cons (inter x y) acc) [] b) a.

(** Insertion of a segment in a list ordered by (start, end), the order
    of Python tuples used by [list.sort]. *)
Definition seg_leb (a b : segment) : bool :=
  (fst a <? fst b) || ((fst a =? fst b) && (snd a <=? snd b)).

Fixpoint insert (x : segment) (l : segmentlist) : segmentlist :=
  match l with
  | [] => [x]
  | y :: l' => if seg_leb x y then x :: l else y :: insert x l'
  end.

Definition sort (l : segmentlist) : segmentlist :=
  fold_right insert [] l.

(** [coalesce] keeps a merged segment only when it is not empty
    ([if lo != hi] in the library). *)
Definition emit (cur : segment) (rest : segmentlist) : segmentlist :=
  if fst cur =? snd cur then rest else cur :: rest.

(** One pass over a sorted list, joining every segment that starts
    inside or at the end of the one being built. *)
Fixpoint merge_from (cur : segment) (l : segmentlist) : segmentlist :=
  match l with
  | [] => emit cur []
  | y :: l' =>
      if fst y <=? snd cur
      then merge_from (fst cur, Z.max (snd cur) (snd y)) l'
      else emit cur (merge_from y l')
  end.

(** [seglist.coalesce()] *)
Definition coalesce (l : segmentlist) : segmentlist :=
  match sort l with
  | [] => []
  | x :: l' => merge_from x l'
  end.

(** [seg.contract(x)] *)
Definition contract1 (x : Z) (s : segment) : segment :=
  Segment (fst s + x) (snd s - x).

(** [seglist.contract(x)]: contract every segment, then coalesce. *)
Definition contract (x : Z) (l : segmentlist) : segmentlist :=
  coalesce (map (contract1 x) l).

(** [seglist.extent()]; raises [ValueError] on an empty list. *)
Definition extent (l : segmentlist) : option segment :=
  match l with
  | [] => None
  | x :: l' =>
      Some (fold_left (fun acc s => (Z.min (fst acc) (fst s), Z.max (snd acc) (snd s)))
                      l' x)
  end.

(** [seglist[-1]] *)
Definition last_seg (l : segmentlist) : option segment :=
  match rev l with
  | [] => None
  | x :: _ => Some x
  end.

(** [seglist[:-1]] *)
Definition drop_last (l : segmentlist) : segmentlist := removelast l.

(** Sorted, with a gap between consecutive segments, every segment
    non-empty: the shape [coalesce] leaves a list of non-empty segments in. *)
Fixpoint separated_from (hi : Z) (l : segmentlist) : Prop :=
  match l with
  | [] => True
  | y :: l' => hi < fst y /\ fst y < snd y /\ separated_from (snd y) l'
  end.

Definition separated (l : segmentlist) : Prop :=
  match l with
  | [] => True
  | x :: _ => separated_from (fst x - 1) l
  end.

(** Some segment of the list holds the whole span: for a coalesced list,
    the list covers the span. *)
Definition covers (l : segmentlist) (span : segment) : bool :=
  existsb (fun s => (fst s <=? fst span) && (snd span <=? snd s)) l.

End Seg.

Import Seg.

(* ================================================================== *)
(** ** Outcomes of a run                                               *)
(* ================================================================== *)

(** The Python exceptions [main] lets escape, plus [CondorError] for a
    failure of the condor bindings. *)
Inductive runtime_msg :=
| AlreadyRunning
| NoRescueDagFound
| RescueDagFound
| NoFramesFound
| NoAnalysableSegments
| FailedToComplete (times : Z).

Inductive exn :=
| AttributeError | CalledProcessError | CondorError | IOError | IndexError
| NameError | RuntimeError (msg : runtime_msg) | TypeError | ValueError.

(** How a piece of [main] ends: it falls through with a value, leaves
    through [sys.exit(code)] ([parser.error] is [sys.exit(2)]), raises, or
    never returns. *)
Inductive result (A : Type) :=
| Ret (a : A)
| Exit (code : Z)
| Raise (e : exn)
| Hang.

Arguments Ret {A} a.
Arguments Exit {A} code.
Arguments Raise {A} e.
Arguments Hang {A}.

(* ================================================================== *)
(** ** Channel list of the configuration file (lines 550-563)          *)
(* ================================================================== *)

Module Channels.

Local Open Scope string_scope.

Definition nl : ascii := "010"%char.
Definition space : ascii := " "%char.

(** [s.lstrip(c)] *)
Fixpoint lstrip (c : ascii) (s : string) : string :=
  match s with
  | EmptyString => EmptyString
  | String a s' => if Ascii.eqb a c then lstrip c s' else s
  end.

(** [s.rstrip(c)] *)
Fixpoint rstrip (c : ascii) (s : string) : string :=
  match s with
  | EmptyString => EmptyString
  | String a s' =>
      match rstrip c s' with
      | EmptyString => if Ascii.eqb a c then EmptyString else String a EmptyString
      | r => String a r
      end
  end.

(** [s.strip(c)] *)
Definition strip (c : ascii) (s : string) : string := rstrip c (lstrip c s).

(** [s.split(c)]: always at least one field. *)
Fixpoint split (c : ascii) (s : string) : list string :=
  match s with
  | EmptyString => [EmptyString]
  | String a s' =>
      if Ascii.eqb a c then EmptyString :: split c s'
      else match split c s' with
           | [] => [String a EmptyString]
           | w :: ws => String a w :: ws
           end
  end.

(** [s.split(c, 1)]: one field, or two when [c] occurs in [s]. *)
Fixpoint split1 (c : ascii) (s : string) : list string :=
  match s with
  | EmptyString => [EmptyString]
  | String a s' =>
      if Ascii.eqb a c then [EmptyString; s']
      else match split1 c s' with
           | w :: ws => String a w :: ws
           | [] => [String a EmptyString]
           end
  end.

(** A Python sequence of strings remembers whether it is a list or a
    tuple: only the list has [pop]. *)
Inductive pyseq :=
| PyList (items : list string)
| PyTuple (items : list string).

Definition items_of (s : pyseq) : list string :=
  match s with PyList l | PyTuple l => l end.

(** The rows transposed by [zip] and unpacked into two names: succeeds exactly when the
    shortest row has two fields, and then gives the two columns as
    tuples; any other number of columns is the [ValueError] of the
    unpacking. *)
Fixpoint columns (rows : list (list string)) : option (list string * list string) :=
  match rows with
  | [] => Some ([], [])
  | [a; b] :: rows' =>
      match columns rows' with
      | Some (xs, ys) => Some (a :: xs, b :: ys)
      | None => None
      end
  | _ :: _ => None
  end.

Definition zip2 (rows : list (list string)) : option (list string * list string) :=
  match rows with
  | [] => None
  | _ => columns rows
  end.

(** Lines 550-556: the channel names and the sample rates read from the
    [channels] option ([crates] is a set in the two-column case; its
    elements are kept as a list here). *)
Definition read_channels (raw : string) : pyseq * list string :=
  let channels := split nl (rstrip nl (strip nl raw)) in
  match zip2 (map (split1 space) channels) with
  | Some (names, crates) => (PyTuple names, crates)
  | None => (PyList channels, [])
  end.

Definition mem (c : string) (l : list string) : bool :=
  existsb (String.eqb c) l.

(** [l.pop(i)] for an index in range. *)
Fixpoint pop (i : nat) (l : list string) : list string :=
  match l, i with
  | [], _ => []
  | _ :: l', O => l'
  | x :: l', S i' => x :: pop i' l'
  end.

(** Lines 558-562: [for i in range(len(channels) - 1, -1, -1)], with [n]
    the number of indices still to visit. *)
Fixpoint remove_excluded_from (n : nat) (channels : pyseq) (exclude : list string)
  : result pyseq :=
  match n with
  | O => Ret channels
  | S i =>
      let c := nth i (items_of channels) EmptyString in
      if mem c exclude then
        match channels with
        | PyList l => remove_excluded_from i (PyList (pop i l)) exclude
        | PyTuple _ => Raise AttributeError
        end
      else remove_excluded_from i channels exclude
  end.

Definition remove_excluded (channels : pyseq) (exclude : list string) : result pyseq :=
  remove_excluded_from (List.length (items_of channels)) channels exclude.

Definition two_fields (row : list string) : bool :=
  match row with [_; _] => true | _ => false end.

(** [sep.join(lines)], as on line 563. *)
Fixpoint join (sep : ascii) (lines : list string) : string :=
  match lines with
  | [] => EmptyString
  | [line] => line
  | line :: rest => line ++ String sep (join sep rest)
  end.

(** [c in s] *)
Fixpoint contains (c : ascii) (s : string) : bool :=
  match s with
  | EmptyString => false
  | String a s' => Ascii.eqb a c || contains c s'
  end.

(** [n] line breaks, as a configuration file leaves them around a
    value written on lines of its own. *)
Fixpoint newlines (n : nat) : string :=
  match n with
  | O => EmptyString
  | S n' => String nl (newlines n')
  end.

(** A line of the two-column format: the channel, a space, the sample
    rate. *)
Definition two_column_line (row : string * string) : string :=
  fst row ++ String space (snd row).

(** A channel and its sample rate as the two-column format can hold
    them: no space in the channel name, no line break in either. *)
Definition two_column_row (row : string * string) : bool :=
  negb (contains space (fst row)) && negb (contains nl (fst row))
  && negb (contains nl (snd row)).

(** A channel name as the single-column format can hold it: not empty,
    without space or line break. *)
Definition single_column_name (name : string) : bool :=
  negb (String.eqb name EmptyString)
  && negb (contains space name) && negb (contains nl name).

End Channels.

(* ================================================================== *)
(** ** Removing the empty run directories (lines 117-161)              *)
(* ================================================================== *)

Module Dirs.

(** What a path of the run directory holds: a regular file, or a
    directory with the entries [glob('*')] lists. *)
#[warnings="-register-all"]
Inductive entry :=
| File
| Directory (flist : list entry).

(** The loop [for file in flist] of [remove_empty_dir], with
    [remove] the recursive call: regular files are passed over, the
    first directory that is not removed ends the loop.  Gives [ret] and
    the entries left in the directory. *)
Definition remove_entries (remove : entry -> result bool * option entry)
  : list entry -> result bool * list entry :=
  fix loop (flist : list entry) : result bool * list entry :=
    match flist with
    | [] => (Ret true, [])
    | File :: rest =>
        let (ret, kept) := loop rest in (ret, File :: kept)
    | (Directory _ as file) :: rest =>
        match remove file with
        | (Ret true, remains) =>
            let (ret, kept) := loop rest in (ret, opt_cons remains kept)
        | (ret, remains) => (ret, opt_cons remains rest)
        end
    end.

(** [dir_path.rmdir()] on a directory with the entries [kept]: an
    [OSError] (the class [IOError] names in Python 3) unless it is empty. *)
Definition rmdir (kept : list entry) : result bool * option entry :=
  match kept with
  | [] => (Ret true, None)
  | _ :: _ => (Raise IOError, Some (Directory kept))
  end.

(** [remove_empty_dir(dir_path)]: the value returned or the exception
    raised, and what is left at [dir_path]. *)
Fixpoint remove_empty_dir (dir_path : entry) : result bool * option entry :=
  match dir_path with
  | File => (Ret false, Some File)
  | Directory [] => (Ret true, None)
  | Directory flist =>
      match remove_entries remove_empty_dir flist with
      | (Ret true, kept) => rmdir kept
      | (ret, kept) => (ret, Some (Directory kept))
      end
  end.

(** The loop [for file in flist] of [clean_dirs], which goes through
    all the entries: [can_delete] and the entries left. *)
Fixpoint clean_entries (can_delete : bool) (flist : list entry)
  : result bool * list entry :=
  match flist with
  | [] => (Ret can_delete, [])
  | File :: rest =>
      let (ret, kept) := clean_entries false rest in (ret, File :: kept)
  | (Directory _ as file) :: rest =>
      match remove_empty_dir file with
      | (Ret ret, remains) =>
          let (ret', kept) := clean_entries (can_delete && ret) rest in
          (ret', opt_cons remains kept)
      | (ret, remains) => (ret, opt_cons remains rest)
      end
  end.

(** The body of [for adir in dir_list] for one directory. *)
Definition clean_dir (adir : entry) : result bool * option entry :=
  match adir with
  | File => (Raise IOError, Some File)
  | Directory [] => (Ret true, None)
  | Directory flist =>
      match clean_entries true flist with
      | (Ret true, kept) => rmdir kept
      | (ret, kept) => (ret, Some (Directory kept))
      end
  end.

(** [clean_dirs(dir_list)]: whether it returns, and what is left of
    each directory of the list. *)
Fixpoint clean_dirs (dir_list : list entry) : result unit * list (option entry) :=
  match dir_list with
  | [] => (Ret tt, [])
  | adir :: rest =>
      match clean_dir adir with
      | (Ret _, remains) =>
          let (ret, kept) := clean_dirs rest in (ret, remains :: kept)
      | (Exit code, remains) => (Exit code, remains :: map Some rest)
      | (Raise e, remains) => (Raise e, remains :: map Some rest)
      | (Hang, remains) => (Hang, remains :: map Some rest)
      end
  end.

(** No regular file at any depth. *)
Fixpoint hollow (e : entry) : bool :=
  match e with
  | File => false
  | Directory flist => forallb hollow flist
  end.

(** The regular files at any depth. *)
Fixpoint files (e : entry) : nat :=
  match e with
  | File => 1
  | Directory flist => list_sum (map files flist)
  end.

Definition files_left (remains : option entry) : nat :=
  match remains with
  | None => 0
  | Some e => files e
  end.

Definition is_file (e : entry) : bool :=
  match e with File => true | Directory _ => false end.

(** A directory of the list that [clean_dirs] can deal with: each of
    its sub-directories is hollow. *)
Definition cleanable (adir : entry) : bool :=
  match adir with
  | File => false
  | Directory flist => forallb (fun e => is_file e || hollow e) flist
  end.

(** What [clean_dirs] leaves of a cleanable directory: nothing, or the
    directory with its regular files. *)
Definition cleaned (adir : entry) : option entry :=
  match adir with
  | File => Some File
  | Directory flist =>
      match filter is_file flist with
      | [] => None
      | regular => Some (Directory regular)
      end
  end.

(** [remove_empty_dir] removes [e] and returns [True] when [e] is
    hollow, and raises [OSError] with a directory left otherwise. *)
Definition removed_or_raises (e : entry) : Prop :=
  (hollow e = true -> remove_empty_dir e = (Ret true, None))
  /\ (hollow e = false ->
      exists kept, remove_empty_dir e = (Raise IOError, Some (Directory kept))).

End Dirs.

(* ================================================================== *)
(** ** Command line, configuration and collaborators                   *)
(* ================================================================== *)

(** The options of [create_parser] that [main] branches on. *)
Record Args := {
  gps : option (Z * Z);
  cache_file : bool;
  archive : bool;
  exclude_channel : list string;
  max_concurrent : Z;
  reattach : bool;
  rescue : bool;
  no_submit : bool;
  submit_rescue_dag : Z;
  dagman_option : list string;
  use_dev_shm : bool;
  no_segdb : bool;
  skip_omicron : bool;
  skip_root_merge : bool;
  skip_hdf5_merge : bool;
  skip_ligolw_add : bool;
  skip_gzip : bool;
  skip_postprocessing : bool;
  skip_rm : bool
}.

(** The options of the group's section of the configuration file;
    [statechannel] and [stateflag] say whether a state channel (given or
    mapped from the flag) and a state flag are set. *)
Record Config := {
  channels : string;
  chunkdur : Z;
  segdur : Z;
  overlap : Z;
  statechannel : bool;
  stateflag : bool
}.

(** [padding = int(overlap / 2)] *)
Definition padding (cp : Config) : Z := Z.quot (overlap cp) 2.

(** What the collaborators answer during one run.  [cache_segs] is
    [segments.cache_segments(cache)], [None] when it raises [TypeError]
    (empty cache); [submit_ok i], [watch_raises i] and [dag_status i]
    are the answers in iteration [i] of the submission loop:
    whether [condor.submit_dag] returns, whether [check_call] on
    [condor_watch_q] raises, and the exit code found in the DAG status
    ([None] when the status has no exit code or the query failed).
    [run_dirs] is what the directories of [run_dir_list] (cache, condor,
    logs, parameters, triggers, merge; lines 676-685) hold when
    [clean_dirs] is called on them, which a run does at most once,
    right before it leaves through [clean_exit]. *)
Record Env := {
  run_dirs : list Dirs.entry;
  dag_is_running : bool;
  nrescue : nat;
  latest_data_gps : Z;
  state_segments : segmentlist;
  query_state_segments : segmentlist;
  frame_segments : segmentlist;
  cache_len : nat;
  cache_segs : option segmentlist;
  programs_found : bool;
  submit_ok : nat -> bool;
  watch_raises : nat -> bool;
  dag_status : nat -> option Z
}.

(** What a run does to the world outside, in order. *)
Inductive event :=
| CleanDirs
| CleanTempfiles
| WriteCache
| WriteDag
| WriteSegments (segs : segmentlist)
| FindJob
| SubmitDag (options : list string)
| FindRescueDag
| ArchiveFiles.

(** The run directory as far as the run segment is concerned:
    [segments.txt] (absent, or the segments it lists) and the trace of
    the run so far. *)
Record world := {
  segfile : option segmentlist;
  trace : list event
}.

(** [main] as a state transformer that may leave early. *)
Definition M (A : Type) : Type := world -> result A * world.

Definition ret {A} (a : A) : M A := fun w => (Ret a, w).

Definition bind {A B} (m : M A) (k : A -> M B) : M B :=
  fun w =>
    match m w with
    | (Ret a, w') => k a w'
    | (Exit c, w') => (Exit c, w')
    | (Raise e, w') => (Raise e, w')
    | (Hang, w') => (Hang, w')
    end.

Notation "x <- m ;; k" := (bind m (fun x => k))
  (at level 61, m at next level, right associativity).
Notation "m ;;; k" := (bind m (fun _ => k))
  (at level 61, right associativity).

Definition raise {A} (e : exn) : M A := fun w => (Raise e, w).
Definition sys_exit {A} (code : Z) : M A := fun w => (Exit code, w).
Definition hang {A} : M A := fun w => (Hang, w).

Definition log_event (ev : event) : M unit :=
  fun w => (Ret tt, {| segfile := segfile w; trace := trace w ++ [ev] |}).

(** [parser.error(msg)] prints the usage and exits with status 2. *)
Definition parser_error {A} : M A := sys_exit 2.

(** [clean_exit(exitcode, tempfiles)] *)
Definition clean_exit {A} (exitcode : Z) : M A :=
  log_event CleanTempfiles ;;; sys_exit exitcode.

(** [clean_dirs(run_dir_list)]: the exception of [Dirs.clean_dirs]
    goes on to the caller, which has no handler for it; [CleanDirs]
    records that the call returned. *)
Definition clean_dirs (run_dir_list : list Dirs.entry) : M unit :=
  match fst (Dirs.clean_dirs run_dir_list) with
  | Ret _ => log_event CleanDirs
  | Exit code => sys_exit code
  | Raise e => raise e
  | Hang => hang
  end.

(** Modelled from the spec: [segments.write_segments] of
    [omicron/segments.py], which is not among the sources.  The
    watermark file is overwritten with the segments given. *)
Definition write_segments (segs : segmentlist) : M unit :=
  fun w => (Ret tt, {| segfile := Some segs;
                       trace := trace w ++ [WriteSegments segs] |}).

(** Modelled from the spec: [segments.get_last_run_segment] of
    [omicron/segments.py], which is not among the sources.  The
    watermark is the last segment recorded in the file; a missing file
    is an [IOError]. *)
Definition get_last_run_segment : M segment :=
  fun w =>
    match segfile w with
    | None => (Raise IOError, w)
    | Some l =>
        match last_seg l with
        | Some s => (Ret s, w)
        | None => (Raise IndexError, w)
        end
    end.

(** [try: m except IOError: h] *)
Definition except_IOError {A} (m : M A) (h : M A) : M A :=
  fun w =>
    match m w with
    | (Raise IOError, w') => h w'
    | r => r
    end.

(* ================================================================== *)
(** ** Finding the run segment (lines 718-777)                         *)
(* ================================================================== *)

(** Lines 723-745: [(start, end)] of the run. *)
Definition find_run_segment (args : Args) (cp : Config) (env : Env)
           (newdag online : bool) : M (Z * Z) :=
  if newdag && online then
    let end_ := latest_data_gps env - padding cp in
    start <- except_IOError
               (s <- get_last_run_segment ;; ret (snd s))
               (if use_dev_shm args
                then ret (end_ - chunkdur cp + padding cp)
                else ret (end_ - 4000)) ;;
    ret (start, end_)
  else if online then
    s <- get_last_run_segment ;; ret s
  else
    match gps args with
    | Some (start, end_) => ret (start, end_)
    | None => raise TypeError
    end.

(** Lines 763-777: the span must hold one full chunk. *)
Definition check_span (cp : Config) (run_dir_list : list Dirs.entry)
           (online : bool) (dataduration : Z) : M unit :=
  let minduration := 1 * chunkdur cp in
  if (dataduration <? minduration) && online then
    clean_dirs run_dir_list ;;; clean_exit 0
  else if dataduration <? minduration then
    raise ValueError
  else ret tt.

(** Lines 779-823: where the state or frame segments come from.  The
    state vector (read through guardian or through the state bits), the
    segment database and the frame availability are answers of the
    environment; the cache file is the one case computed here. *)
Definition find_segments (args : Args) (cp : Config) (env : Env)
           (online : bool) (datastart dataend : Z) : M segmentlist :=
  if (online && statechannel cp) || (statechannel cp && negb (stateflag cp))
     || (statechannel cp && no_segdb args) then
    ret (state_segments env)
  else if stateflag cp then
    ret (query_state_segments env)
  else if cache_file args then
    match cache_segs env with
    | Some cache_segs_ => ret (and_ cache_segs_ [Segment datastart dataend])
    | None => raise TypeError
    end
  else ret (frame_segments env).

(* ================================================================== *)
(** ** Truncation at the limit of available data (lines 840-876)       *)
(* ================================================================== *)

(** The loop [while t + chunkdur <= e: t += step; step = chunkdur - overlap],
    run for at most [fuel] tests of its condition. *)
Fixpoint chunk_loop (fuel : nat) (chunkdur_ overlap_ t step e : Z) : option Z :=
  match fuel with
  | O => None
  | S fuel' =>
      if t + chunkdur_ <=? e
      then chunk_loop fuel' chunkdur_ overlap_ (t + step) (chunkdur_ - overlap_) e
      else Some t
  end.

(** Enough tests for every run of the loop that ends: one for the first
    step, one for each further step of at least one second, one to leave. *)
Definition chunk_fuel (chunkdur_ t e : Z) : nat :=
  Z.to_nat (e - t - 2 * chunkdur_) + 3.

(** Lines 867-873: the new end of the last segment [(t, e)]; [None] when
    the loop does not end. *)
Definition whole_chunks (chunkdur_ overlap_ padding_ : Z) (lastseg : segment)
  : option Z :=
  let t := fst lastseg in
  let e := snd lastseg - (chunkdur_ + padding_) in
  chunk_loop (chunk_fuel chunkdur_ t e) chunkdur_ overlap_ t chunkdur_ e.

(** Following the spec's words (section 4.1, step 4): the end [e] left
    after the trailing chunk is removed, rounded down to a whole number
    of chunks stepped by [chunkdur - overlap] from the start [s] of the
    segment, that is to the last of the boundaries [s + chunkdur + k *
    (chunkdur - overlap)] at or before [e], and to [s] when not even
    one chunk fits.  To be compared with [whole_chunks]. *)
Definition spec_rounded_end (chunkdur_ overlap_ s e : Z) : Z :=
  if e <? s + chunkdur_ then s
  else s + chunkdur_
       + ((e - s - chunkdur_) / (chunkdur_ - overlap_)) * (chunkdur_ - overlap_).

(** [segs[-1] = seg] on a non-empty list. *)
Definition set_last (segs : segmentlist) (seg : segment) : segmentlist :=
  drop_last segs ++ [seg].

(** Lines 841-876: the segments and the end of the data span after the
    truncation; [None] when the loop does not end. *)
Definition truncate_segments (cp : Config) (online newdag : bool)
           (segs : segmentlist) (dataend : Z) : option (segmentlist * Z) :=
  match last_seg segs with
  | None => Some (segs, dataend)
  | Some lastseg =>
      let truncate := online && newdag && (snd lastseg =? dataend) in
      if truncate && (abs lastseg <? chunkdur cp * 2) then
        Some (drop_last segs, fst lastseg)
      else if truncate then
        match whole_chunks (chunkdur cp) (overlap cp) (padding cp) lastseg with
        | Some t =>
            let segs' := set_last segs (Segment (fst lastseg) t) in
            Some (segs', snd (Segment (fst lastseg) t))
        | None => None
        end
      else Some (segs, dataend)
  end.

(* ================================================================== *)
(** ** Available data and analysable segments (lines 878-959)          *)
(* ================================================================== *)

(** Lines 900-910: the frame segments inside the data span, and whether
    they reach its end. *)
Definition cache_coverage (env : Env) (dataspan : segmentlist)
  : segmentlist * bool :=
  match cache_segs env with
  | None => ([], false)
  | Some cache_segs_ =>
      let cachesegs := coalesce (and_ cache_segs_ dataspan) in
      match last_seg cachesegs, last_seg dataspan with
      | Some c, Some d => (cachesegs, snd d <=? snd c)
      | _, _ => (cachesegs, false)
      end
  end.

(** [int(x / 1e5)] *)
Definition metric_day (x : Z) : Z := Z.quot x 100000.

(** Lines 926-936: the list [seg_tmp] built segment by segment. *)
Definition split_metric_days (segs : segmentlist) : segmentlist :=
  fold_left
    (fun seg_tmp seg =>
       let sday := metric_day (fst seg) in
       let eday := metric_day (snd seg) in
       if sday =? eday then seg_tmp ++ [seg]
       else
         let seg1 := Segment (fst seg) eday in
         let seg2 := Segment eday (snd seg) in
         (seg_tmp ++ [seg1]) ++ [seg2])
    segs [].

(** Lines 920-938: the segments handed to the rest of the run, with the
    list [seg_tmp] of line 926 beside them. *)
Definition analysable_segments (cp : Config) (cachesegs segs : segmentlist)
  : segmentlist * segmentlist :=
  let segs := coalesce (and_ cachesegs segs) in
  let seg_tmp := split_metric_days segs in
  let segs := filter (fun s => segdur cp <=? abs s) segs in
  (segs, seg_tmp).

(** Lines 940-959: nothing to analyse. *)
Definition check_analysable (run_dir_list : list Dirs.entry)
           (newdag online alldata : bool)
           (cachesegs segs : segmentlist) : M unit :=
  if newdag && (Nat.eqb (List.length segs) 0) && online && alldata then
    write_segments cachesegs ;;;
    clean_dirs run_dir_list ;;;
    clean_exit 0
  else if (Nat.eqb (List.length segs) 0) && online then
    clean_dirs run_dir_list ;;;
    clean_exit 0
  else if Nat.eqb (List.length segs) 0 then
    raise (RuntimeError NoAnalysableSegments)
  else ret tt.

(** Lines 961-970: the trigger segments and the span recorded for the run. *)
Definition trigger_segments (cp : Config) (segs : segmentlist) : segmentlist :=
  contract (padding cp) segs.

Definition trigger_span (trigsegs : segmentlist) : M segmentlist :=
  match extent trigsegs with
  | Some ext => ret [ext]
  | None => raise ValueError
  end.

(* ================================================================== *)
(** ** Post-processing script (lines 1136-1193)                        *)
(* ================================================================== *)

Module PostProcess.

Local Open Scope string_scope.

(** [' '.join(files)] *)
Definition join (files : list string) : string := String.concat " " files.

(** The lines appended to [operations] for channel [c].  [prog] is
    [prog_path["omicron-merge"]], [omicronfiles c form] the files the
    omicron nodes declared for the channel in format [form]. *)
Definition channel_operations (args : Args) (prog mergedir : string)
           (fileformats : list string)
           (omicronfiles : string -> string -> list string)
           (c : string) : list string :=
  let mergepath := mergedir ++ "/" ++ c in
  let operations := [String Channels.nl ("# " ++ c)] in
  let operations :=
    if Channels.mem "root" fileformats then
      let rootfiles := join (omicronfiles c "root") in
      let no_merge := if skip_root_merge args then "--no-merge" else "" in
      app operations ["  " ++ prog ++ " " ++ no_merge ++ "  "
                     ++ "--out-dir " ++ mergepath ++ " " ++ rootfiles ++ " "]
    else operations in
  let operations :=
    if Channels.mem "hdf5" fileformats then
      let hdf5files := join (omicronfiles c "hdf5") in
      let no_merge := if skip_root_merge args then "--no-merge" else "" in
      app operations ["  " ++ prog ++ " " ++ no_merge ++ "  "
                     ++ " --out-dir " ++ mergepath ++ " " ++ hdf5files ++ " "]
    else operations in
  let operations :=
    if Channels.mem "xml" fileformats then
      let xmlfiles := join (omicronfiles c "xml") in
      let no_merge := if skip_ligolw_add args then "--no-merge" else "" in
      let no_gzip := if skip_gzip args then "--no-gzip" else "" in
      app operations ["  " ++ prog ++ " " ++ no_merge ++ " " ++ no_gzip
                     ++ " --uint-bug " ++ " --out-dir " ++ mergepath ++ " "
                     ++ xmlfiles ++ " "]
    else operations in
  operations.

(** The shell words of a command line. *)
Definition words (cmd : string) : list string :=
  filter (fun w => negb (String.eqb w "")) (Channels.split Channels.space cmd).

(** The command carries the flag as one of its words. *)
Definition has_flag (flag cmd : string) : bool := Channels.mem flag (words cmd).

End PostProcess.

(* ================================================================== *)
(** ** Concurrency ladder of the omicron nodes (lines 1225-1242)       *)
(* ================================================================== *)

Section Ladder.

Context {node : Type}.

(** The calls [cj.add_parent(pj)] of the two nested loops, as pairs
    (child, parent). *)
Definition add_parents (parent_jobs child_jobs : list node) : list (node * node) :=
  flat_map (fun pj => map (fun cj => (cj, pj)) child_jobs) parent_jobs.

Record ladder := {
  parent_jobs : list node;
  child_jobs : list node;
  parent_edges : list (node * node)
}.

(** One turn of [for j in omicron_nodes]. *)
Definition ladder_step (maxcon : Z) (st : ladder) (j : node) : ladder :=
  if Z.of_nat (List.length (parent_jobs st)) <? maxcon then
    {| parent_jobs := parent_jobs st ++ [j];
       child_jobs := child_jobs st;
       parent_edges := parent_edges st |}
  else if Z.of_nat (List.length (child_jobs st)) <? maxcon then
    {| parent_jobs := parent_jobs st;
       child_jobs := child_jobs st ++ [j];
       parent_edges := parent_edges st |}
  else
    {| parent_jobs := child_jobs st;
       child_jobs := [j];
       parent_edges := parent_edges st ++ add_parents (parent_jobs st) (child_jobs st) |}.

(** Lines 1225-1242: every (child, parent) pair added between omicron nodes. *)
Definition concurrency_ladder (maxcon : Z) (omicron_nodes : list node)
  : list (node * node) :=
  let st := fold_left (ladder_step maxcon) omicron_nodes
                      {| parent_jobs := []; child_jobs := []; parent_edges := [] |} in
  if (0 <? Z.of_nat (List.length (child_jobs st)))
     && (0 <? Z.of_nat (List.length (parent_jobs st)))
  then parent_edges st ++ add_parents (parent_jobs st) (child_jobs st)
  else parent_edges st.

End Ladder.

(** The wave of the node created [i]-th, for waves of [maxcon] nodes. *)
Definition wave (maxcon : Z) (i : nat) : Z := Z.of_nat i / maxcon.

(* ================================================================== *)
(** ** Submission loop (lines 1337-1412)                               *)
(* ================================================================== *)

(** [l.pop(l.index(x))] when [x] is in [l]. *)
Fixpoint remove_first (x : string) (l : list string) : list string :=
  match l with
  | [] => []
  | y :: l' => if String.eqb x y then l' else y :: remove_first x l'
  end.

(** Lines 1338-1368: find the DAG to follow in turn [i], submitting it
    unless the run reattaches; gives the options left for the next turn. *)
Definition submit_or_reattach (env : Env) (reattach_ : bool) (span : segmentlist)
           (i : nat) (options : list string) : M (list string) :=
  if reattach_ then
    log_event FindJob ;;; ret options
  else if submit_ok env i then
    log_event (SubmitDag options) ;;;
    (if Nat.eqb i 0 then write_segments span else ret tt) ;;;
    ret (if Channels.mem "force" options
         then remove_first "force" options else options)
  else raise CondorError.

(** [for i in range(args.submit_rescue_dag + 1)], with [n] turns left
    and [i] the turn reached.  [ret tt] is the end of the loop, by
    [break] or by exhaustion. *)
Fixpoint babysit (args : Args) (env : Env) (reattach_ : bool)
         (span : segmentlist) (n i : nat) (options : list string) : M unit :=
  match n with
  | O => ret tt
  | S n' =>
      options' <- submit_or_reattach env reattach_ span i options ;;
      (if watch_raises env i then raise CalledProcessError else ret tt) ;;;
      match dag_status env i with
      | None => ret tt
      | Some exitcode =>
          if exitcode =? 0 then ret tt
          else if Z.of_nat i =? submit_rescue_dag args then
            raise (RuntimeError (FailedToComplete (submit_rescue_dag args + 1)))
          else
            log_event FindRescueDag ;;;
            babysit args env reattach_ span n' (S i) options'
      end
  end.

(** The number of turns of [range(args.submit_rescue_dag + 1)]. *)
Definition turns (args : Args) : nat := Z.to_nat (submit_rescue_dag args + 1).

(* ================================================================== *)
(** ** [main] (lines 482-1439)                                          *)
(* ================================================================== *)

Definition lift {A} (r : result A) : M A := fun w => (r, w).

Definition when (b : bool) (m : M unit) : M unit := if b then m else ret tt.

(** Lines 482-495: the options that exclude each other. *)
Definition validate_options (args : Args) : M unit :=
  when (archive args
        && (skip_root_merge args || skip_hdf5_merge args
            || skip_ligolw_add args || skip_gzip args))
       parser_error ;;;
  when (match gps args with None => cache_file args | Some _ => false end)
       parser_error.

(** Lines 521-529: [--rescue] against [--dagman-option force]. *)
Definition rescue_options (args : Args) : M (list string) :=
  if rescue args && (1 <? Z.of_nat (count_occ string_dec (dagman_option args) "force"%string)) then
    parser_error
  else if rescue args then
    match dagman_option args with
    | [] => raise IndexError
    | _ :: options => ret options
    end
  else ret (dagman_option args).

(** Lines 692-714: an existing process, and rescue files. *)
Definition check_existing (args : Args) (env : Env) (options : list string) : M bool :=
  reattach_ <- (if dag_is_running env then
                  if negb (reattach args) then raise (RuntimeError AlreadyRunning)
                  else ret (reattach args)
                else ret false) ;;
  when (rescue args && Nat.eqb (nrescue env) 0)
       (raise (RuntimeError NoRescueDagFound)) ;;;
  when (negb (Nat.eqb (nrescue env) 0) && negb (rescue args)
        && negb (Channels.mem "force"%string options))
       (raise (RuntimeError RescueDagFound)) ;;;
  ret reattach_.

(** Lines 718-970: the segments to process, their trigger segments and
    the span to record; leaves the run when there is nothing to do. *)
Definition select_segments (args : Args) (cp : Config) (env : Env)
           (newdag online : bool) : M (segmentlist * segmentlist * segmentlist) :=
  se <- find_run_segment args cp env newdag online ;;
  let start := fst se in
  let end_ := snd se in
  let datastart := start - padding cp in
  let dataend := end_ + padding cp in
  let dataduration := dataend - datastart in
  check_span cp (run_dirs env) online dataduration ;;;
  segs <- find_segments args cp env online datastart dataend ;;
  match truncate_segments cp online newdag segs dataend with
  | None => hang
  | Some (segs, dataend) =>
      let dataspan := [Segment datastart dataend] in
      when (negb online && Nat.eqb (cache_len env) 0)
           (raise (RuntimeError NoFramesFound)) ;;;
      let cachesegs := fst (cache_coverage env dataspan) in
      let alldata := snd (cache_coverage env dataspan) in
      when newdag (log_event WriteCache) ;;;
      let segs := fst (analysable_segments cp cachesegs segs) in
      check_analysable (run_dirs env) newdag online alldata cachesegs segs ;;;
      let trigsegs := trigger_segments cp segs in
      span <- trigger_span trigsegs ;;
      ret (segs, trigsegs, span)
  end.

Definition main (args : Args) (cp : Config) (env : Env) : M unit :=
  validate_options args ;;;
  let online := match gps args with None => true | Some _ => false end in
  options <- rescue_options args ;;
  lift (Channels.remove_excluded
          (fst (Channels.read_channels (channels cp))) (exclude_channel args)) ;;;
  reattach_ <- check_existing args env options ;;
  let newdag := negb (rescue args) && negb reattach_ in
  sel <- select_segments args cp env newdag online ;;
  let span := snd sel in
  when (negb (programs_found env)) (raise ValueError) ;;;
  when (negb (rescue args) && newdag) (log_event WriteDag) ;;;
  when (no_submit args)
       (when newdag (write_segments span) ;;; sys_exit 0) ;;;
  babysit args env reattach_ span (turns args) 0 options ;;;
  when (Nat.eqb (turns args) 0) (raise NameError) ;;;
  log_event ArchiveFiles ;;;
  log_event CleanTempfiles.

(** The run starts with an empty trace. *)
Definition start_world (watermark : option segmentlist) : world :=
  {| segfile := watermark; trace := [] |}.

Definition run (args : Args) (cp : Config) (env : Env)
           (watermark : option segmentlist) : result unit * world :=
  main args cp env (start_world watermark).

(** The submissions of the DAG in a trace. *)
Definition submissions (t : list event) : nat :=
  List.length (filter (fun ev => match ev with SubmitDag _ => true | _ => false end) t).

(** The watermark was written. *)
Definition wrote_segments (t : list event) : bool :=
  existsb (fun ev => match ev with WriteSegments _ => true | _ => false end) t.

(* ================================================================== *)
(** ** Example runs                                                    *)
(* ================================================================== *)

Module Examples.

Local Open Scope string_scope.

(** The command line [omicron-process GW] with its defaults, and the
    switches the examples below turn. *)
Definition example_args (gps_ : option (Z * Z))
           (reattach_ rescue_ no_submit_ : bool) (submit_rescue_dag_ : Z)
           (skip_root_merge_ skip_hdf5_merge_ : bool) : Args :=
  {| gps := gps_;
     cache_file := false;
     archive := false;
     exclude_channel := [];
     max_concurrent := 10;
     reattach := reattach_;
     rescue := rescue_;
     no_submit := no_submit_;
     submit_rescue_dag := submit_rescue_dag_;
     dagman_option := ["force"];
     use_dev_shm := false;
     no_segdb := false;
     skip_omicron := false;
     skip_root_merge := skip_root_merge_;
     skip_hdf5_merge := skip_hdf5_merge_;
     skip_ligolw_add := false;
     skip_gzip := false;
     skip_postprocessing := false;
     skip_rm := false |}.

Definition args_online : Args :=
  example_args None false false false 0 false false.

Definition args_no_submit : Args :=
  example_args None false false true 0 false false.

Definition args_reattach : Args :=
  example_args None true false false 1 false false.

Definition args_rescue_twice : Args :=
  example_args None false false false 2 false false.

Definition args_skip_hdf5 : Args :=
  example_args None false false false 0 false true.

Definition args_skip_root : Args :=
  example_args None false false false 0 true false.

(** [omicron-process GW --exclude-channel H1:AUX] *)
Definition args_exclude : Args :=
  {| gps := None;
     cache_file := false;
     archive := false;
     exclude_channel := ["H1:AUX"];
     max_concurrent := 10;
     reattach := false;
     rescue := false;
     no_submit := false;
     submit_rescue_dag := 0;
     dagman_option := ["force"];
     use_dev_shm := false;
     no_segdb := false;
     skip_omicron := false;
     skip_root_merge := false;
     skip_hdf5_merge := false;
     skip_ligolw_add := false;
     skip_gzip := false;
     skip_postprocessing := false;
     skip_rm := false |}.

(** The [GW] group of the module documentation. *)
Definition cp_gw : Config :=
  {| channels := "H1:GDS-CALIB_STRAIN";
     chunkdur := 124;
     segdur := 64;
     overlap := 4;
     statechannel := false;
     stateflag := false |}.

(** The same group with a state channel. *)
Definition cp_state : Config :=
  {| channels := "H1:GDS-CALIB_STRAIN";
     chunkdur := 124;
     segdur := 64;
     overlap := 4;
     statechannel := true;
     stateflag := true |}.

(** The [GW] group with two channels and their sample rates, on the
    lines below the name of the option. *)
Definition cp_two_column : Config :=
  {| channels := Channels.newlines 1
                 ++ Channels.join Channels.nl
                      (map Channels.two_column_line
                           [("H1:GDS-CALIB_STRAIN", "4096"); ("H1:AUX", "256")])
                 ++ Channels.newlines 0;
     chunkdur := 124;
     segdur := 64;
     overlap := 4;
     statechannel := false;
     stateflag := false |}.

(** A group whose segments may be shorter than its overlap. *)
Definition cp_short : Config :=
  {| channels := "H1:GDS-CALIB_STRAIN";
     chunkdur := 8;
     segdur := 2;
     overlap := 6;
     statechannel := false;
     stateflag := false |}.

(** The directories of [run_dir_list] in a run directory that no run
    has filled yet: cache (with the cache of frames), condor, logs,
    parameters, triggers and merge. *)
Definition first_run_dirs : list Dirs.entry :=
  [Dirs.Directory [Dirs.File]; Dirs.Directory []; Dirs.Directory [];
   Dirs.Directory []; Dirs.Directory []; Dirs.Directory []].

(** The same directories after a run that processed data: files in
    each, and under [triggers] the directory of the channel with a
    trigger file. *)
Definition used_run_dirs : list Dirs.entry :=
  [Dirs.Directory [Dirs.File]; Dirs.Directory [Dirs.File];
   Dirs.Directory [Dirs.File]; Dirs.Directory [Dirs.File];
   Dirs.Directory [Dirs.Directory [Dirs.File]]; Dirs.Directory []].

(** Frames up to GPS 2002, all of them found, and a DAG that fails
    every time it is run. *)
Definition env_failing : Env :=
  {| run_dirs := first_run_dirs;
     dag_is_running := false;
     nrescue := 0;
     latest_data_gps := 2002;
     state_segments := [];
     query_state_segments := [];
     frame_segments := [(998, 2002)];
     cache_len := 10;
     cache_segs := Some [(998, 2002)];
     programs_found := true;
     submit_ok := fun _ => true;
     watch_raises := fun _ => false;
     dag_status := fun _ => Some 1 |}.

(** The same, with the DAG of an earlier run still in the queue. *)
Definition env_running : Env :=
  {| run_dirs := first_run_dirs;
     dag_is_running := true;
     nrescue := 0;
     latest_data_gps := 2002;
     state_segments := [];
     query_state_segments := [];
     frame_segments := [(998, 1842)];
     cache_len := 10;
     cache_segs := Some [(998, 1842)];
     programs_found := true;
     submit_ok := fun _ => true;
     watch_raises := fun _ => false;
     dag_status := fun _ => Some 1 |}.

(** The detector is in its state for [(1000, 1500)], and frames are on
    disk for the last hundred seconds only. *)
Definition env_gap : Env :=
  {| run_dirs := first_run_dirs;
     dag_is_running := false;
     nrescue := 0;
     latest_data_gps := 2002;
     state_segments := [(1000, 1500)];
     query_state_segments := [];
     frame_segments := [];
     cache_len := 1;
     cache_segs := Some [(1900, 2002)];
     programs_found := true;
     submit_ok := fun _ => true;
     watch_raises := fun _ => false;
     dag_status := fun _ => Some 0 |}.

(** The environment of [env_failing] in a run directory that an
    earlier run has used. *)
Definition env_used : Env :=
  {| run_dirs := used_run_dirs;
     dag_is_running := false;
     nrescue := 0;
     latest_data_gps := 2002;
     state_segments := [];
     query_state_segments := [];
     frame_segments := [(998, 2002)];
     cache_len := 10;
     cache_segs := Some [(998, 2002)];
     programs_found := true;
     submit_ok := fun _ => true;
     watch_raises := fun _ => false;
     dag_status := fun _ => Some 1 |}.

(** The environment of [env_gap] in a run directory that an earlier run
    has used. *)
Definition env_gap_used : Env :=
  {| run_dirs := used_run_dirs;
     dag_is_running := false;
     nrescue := 0;
     latest_data_gps := 2002;
     state_segments := [(1000, 1500)];
     query_state_segments := [];
     frame_segments := [];
     cache_len := 1;
     cache_segs := Some [(1900, 2002)];
     programs_found := true;
     submit_ok := fun _ => true;
     watch_raises := fun _ => false;
     dag_status := fun _ => Some 0 |}.


(** The files of the omicron nodes for one channel. *)
Definition example_files (c form : string) : list string :=
  [c ++ "-1000-60." ++ form; c ++ "-1060-60." ++ form].

End Examples.

(* ================================================================== *)
(** ** What a piece of the run leaves behind                           *)
(* ================================================================== *)

(** Between [w] and [w'] the segments file was not written and no DAG
    was submitted. *)
Definition quiet (w w' : world) : Prop :=
  segfile w' = segfile w
  /\ submissions (trace w') = submissions (trace w)
  /\ wrote_segments (trace w') = wrote_segments (trace w).

(** A piece of [main] that never writes the segments file nor submits. *)
Definition silent {A} (m : M A) : Prop :=
  forall w r w', m w = (r, w') -> quiet w w'.

(** [r] is the way [r0] left, seen from the enclosing computation. *)
Definition early {A B} (r0 : result A) (r : result B) : Prop :=
  match r0, r with
  | Exit c, Exit c' => c = c'
  | Raise e, Raise e' => e = e'
  | Hang, Hang => True
  | _, _ => False
  end.

(** The events that are neither a write of the segments file nor a
    submission. *)
Definition quiet_event (ev : event) : bool :=
  match ev with
  | WriteSegments _ | SubmitDag _ => false
  | _ => true
  end.


(** The run left through [sys.exit(0)] right after it had recorded
    [segs] in the segments file, with [tail] the events after the
    write, and without a submission since [w]. *)
Definition exit_after_write {A} (w : world) (r : result A) (w' : world)
           (tail : list event) : Prop :=
  r = Exit 0
  /\ exists segs pre,
      segfile w' = Some segs
      /\ trace w' = pre ++ WriteSegments segs :: tail
      /\ submissions (trace w') = submissions (trace w).

(** The run ended in [OSError] right after it had recorded [segs] in
    the segments file, without a submission since [w]. *)
Definition raise_after_write {A} (w : world) (r : result A) (w' : world) : Prop :=
  r = Raise IOError
  /\ exists segs pre,
      segfile w' = Some segs
      /\ trace w' = pre ++ [WriteSegments segs]
      /\ submissions (trace w') = submissions (trace w).

(** The way out of lines 942-951: the segments file is written, then
    [clean_dirs(run_dir_list)] returns and the run leaves through
    [clean_exit(0)], or raises. *)
Definition ended_after_write {A} (run_dir_list : list Dirs.entry)
           (w : world) (r : result A) (w' : world) : Prop :=
  (forallb Dirs.cleanable run_dir_list = true
   /\ exit_after_write w r w' [CleanDirs; CleanTempfiles])
  \/ (forallb Dirs.cleanable run_dir_list = false
      /\ raise_after_write w r w').



Module MoreExamples.

Local Open Scope string_scope.

(** [omicron-process GW --use-dev-shm] *)
Definition args_dev_shm : Args :=
  {| gps := None;
     cache_file := false;
     archive := false;
     exclude_channel := [];
     max_concurrent := 10;
     reattach := false;
     rescue := false;
     no_submit := false;
     submit_rescue_dag := 0;
     dagman_option := ["force"];
     use_dev_shm := true;
     no_segdb := false;
     skip_omicron := false;
     skip_root_merge := false;
     skip_hdf5_merge := false;
     skip_ligolw_add := false;
     skip_gzip := false;
     skip_postprocessing := false;
     skip_rm := false |}.

(** Data up to GPS 2002, and frames for the span the first run with the
    low-latency buffer asks for: one chunk of 124 seconds and the
    padding of 2. *)
Definition env_live : Env :=
  {| run_dirs := Examples.first_run_dirs;
     dag_is_running := false;
     nrescue := 0;
     latest_data_gps := 2002;
     state_segments := [];
     query_state_segments := [];
     frame_segments := [(1876, 2002)];
     cache_len := 10;
     cache_segs := Some [(1876, 2002)];
     programs_found := true;
     submit_ok := fun _ => true;
     watch_raises := fun _ => false;
     dag_status := fun _ => Some 0 |}.

(** [omicron-process GW --rescue --dagman-option maxidle=10] *)
Definition args_rescue : Args :=
  {| gps := None;
     cache_file := false;
     archive := false;
     exclude_channel := [];
     max_concurrent := 10;
     reattach := false;
     rescue := true;
     no_submit := false;
     submit_rescue_dag := 0;
     dagman_option := ["force"; "maxidle=10"];
     use_dev_shm := false;
     no_segdb := false;
     skip_omicron := false;
     skip_root_merge := false;
     skip_hdf5_merge := false;
     skip_ligolw_add := false;
     skip_gzip := false;
     skip_postprocessing := false;
     skip_rm := false |}.

(** Data up to GPS 2002, and a DAG whose status cannot be read. *)
Definition env_unknown : Env :=
  {| run_dirs := Examples.first_run_dirs;
     dag_is_running := false;
     nrescue := 0;
     latest_data_gps := 2002;
     state_segments := [];
     query_state_segments := [];
     frame_segments := [(998, 2002)];
     cache_len := 10;
     cache_segs := Some [(998, 2002)];
     programs_found := true;
     submit_ok := fun _ => true;
     watch_raises := fun _ => false;
     dag_status := fun _ => None |}.

End MoreExamples.


(** The options of the submissions in a trace, in order. *)
Definition submitted_options (t : list event) : list (list string) :=
  flat_map (fun ev => match ev with SubmitDag options => [options] | _ => [] end) t.

(** Some segment of the list holds the time [t]. *)
Definition covered (l : segmentlist) (t : Z) : Prop :=
  exists s, In s l /\ fst s <= t < snd s.


(** The segments start in order, none before [lo]. *)
Fixpoint starts_sorted (lo : Z) (l : segmentlist) : Prop :=
  match l with
  | [] => True
  | y :: l' => lo <= fst y /\ starts_sorted (fst y) l'
  end.


(* ================================================================== *)
(** ** Files of the omicron and post-processing nodes (lines 1088-1193) *)
(* ================================================================== *)

Module Nodes.

(** A Python [dict] with string keys, in insertion order. *)
Definition dict (V : Type) : Type := list (string * V).

(** [d[key]]; [None] is the [KeyError]. *)
Fixpoint lookup {V} (key : string) (d : dict V) : option V :=
  match d with
  | [] => None
  | (k, v) :: d' => if String.eqb key k then Some v else lookup key d'
  end.

(** [d[key] = v] *)
Fixpoint set_item {V} (key : string) (v : V) (d : dict V) : dict V :=
  match d with
  | [] => [(key, v)]
  | (k, v') :: d' =>
      if String.eqb key k then (k, v) :: d' else (k, v') :: set_item key v d'
  end.

(** [omicronfiles]: channel, then format, then files. *)
Definition filedict : Type := dict (dict (list string)).

(** [omicronfiles[chan][form]]; [None] is the [KeyError]. *)
Definition get (chan form : string) (omicronfiles : filedict) : option (list string) :=
  match lookup chan omicronfiles with
  | Some forms => lookup form forms
  | None => None
  end.

(** Lines 1116-1122: extend the list of the channel and format, or
    start it where the channel or the format is new.  The lists handed
    out by [output_files] are taken to be fresh ones. *)
Definition record_files (chan form : string) (flist : list string)
           (omicronfiles : filedict) : filedict :=
  match lookup chan omicronfiles with
  | Some forms =>
      match lookup form forms with
      | Some files => set_item chan (set_item form (files ++ flist) forms) omicronfiles
      | None => set_item chan (set_item form flist forms) omicronfiles
      end
  | None => set_item chan [(form, flist)] omicronfiles
  end.

(** Lines 1111-1122: [for form, flist in nodefiles[chan].items()], with
    the output files of the node and [omicronfiles]. *)
Definition record_channel (chan : string) (items : dict (list string))
           (st : list string * filedict) : list string * filedict :=
  fold_left
    (fun st item =>
       (fst st ++ snd item, record_files chan (fst item) (snd item) (snd st)))
    items st.

(** Lines 1110-1122: [for chan in chanlist]; [nodefiles[chan]] may
    raise [KeyError]. *)
Fixpoint record_node (nodefiles : filedict) (chanlist : list string)
         (st : list string * filedict) : option (list string * filedict) :=
  match chanlist with
  | [] => Some st
  | chan :: rest =>
      match lookup chan nodefiles with
      | Some items => record_node nodefiles rest (record_channel chan items st)
      | None => None
      end
  end.

(** Lines 1094-1125: one node for each sub-segment unless
    [--skip-omicron]; gives the output files of each node and
    [omicronfiles]. *)
Fixpoint build_nodes (args : Args) (output_files : segment -> filedict)
         (chanlist : list string) (nodesegs : list segment)
         (omicronfiles : filedict)
  : option (list (list string) * filedict) :=
  match nodesegs with
  | [] => Some ([], omicronfiles)
  | subseg :: rest =>
      if negb (skip_omicron args) then
        match record_node (output_files subseg) chanlist ([], omicronfiles) with
        | Some (outputs, omicronfiles') =>
            match build_nodes args output_files chanlist rest omicronfiles' with
            | Some (nodes, omicronfiles'') => Some (outputs :: nodes, omicronfiles'')
            | None => None
            end
        | None => None
        end
      else build_nodes args output_files chanlist rest omicronfiles
  end.

(** The formats the post-processing looks at, in its order. *)
Definition known_formats : list string := ["root"; "hdf5"; "xml"; "txt"]%string.

(** Lines 1147-1187 for one channel: the calls of
    [ppnode.add_input_file], format by format. *)
Fixpoint channel_inputs (fileformats formats : list string)
         (omicronfiles : filedict) (c : string) : option (list string) :=
  match formats with
  | [] => Some []
  | form :: rest =>
      if Channels.mem form fileformats then
        match get c form omicronfiles with
        | Some files =>
            match channel_inputs fileformats rest omicronfiles c with
            | Some inputs => Some (files ++ inputs)
            | None => None
            end
        | None => None
        end
      else channel_inputs fileformats rest omicronfiles c
  end.

(** Lines 1136-1193: the input files of the post-processing node. *)
Fixpoint postprocess_inputs (fileformats : list string) (omicronfiles : filedict)
         (chanlist : list string) : option (list string) :=
  match chanlist with
  | [] => Some []
  | c :: rest =>
      match channel_inputs fileformats known_formats omicronfiles c with
      | Some inputs =>
          match postprocess_inputs fileformats omicronfiles rest with
          | Some inputs' => Some (inputs ++ inputs')
          | None => None
          end
      | None => None
      end
  end.

(** The files recorded for a channel and a format, none when there is
    no entry. *)
Definition files_of (chan form : string) (omicronfiles : filedict) : list string :=
  match get chan form omicronfiles with
  | Some files => files
  | None => []
  end.

(** The files a list of (channel, format, files) items holds for one
    channel and format, in order. *)
Definition matching (chan form : string)
           (items : list (string * string * list string)) : list string :=
  flat_map
    (fun item =>
       if String.eqb (fst (fst item)) chan && String.eqb (snd (fst item)) form
       then snd item else [])
    items.

(** The items a node records, in the order of its loops. *)
Fixpoint node_items (nodefiles : filedict) (chanlist : list string)
  : list (string * string * list string) :=
  match chanlist with
  | [] => []
  | chan :: rest =>
      match lookup chan nodefiles with
      | Some items => map (fun item => (chan, fst item, snd item)) items
      | None => []
      end ++ node_items nodefiles rest
  end.

End Nodes.


(* ================================================================== *)
(** ** Arguments of [condor.submit_dag] (lines 1343-1360)              *)
(* ================================================================== *)

Module Dagman.

Definition dquote : ascii := "034"%char.
Definition equals : ascii := "="%char.

(** [s.add(x)] on a set kept as a list without repetition. *)
Definition set_add (x : string) (s : list string) : list string :=
  if Channels.mem x s then s else s ++ [x].

(** One turn of [for x in args.dagman_option]: [dagmanargs] and
    [dagmanopts]. *)
Definition dagman_step (st : list string * Nodes.dict string) (x : string)
  : list string * Nodes.dict string :=
  let x := String "-"%char x in
  match Channels.split1 equals x with
  | [key; val] => (fst st, Nodes.set_item key val (snd st))
  | _ => (set_add x (fst st), snd st)
  end.

(** The value appended to the submit file of an online DAG. *)
Definition omicron_dagman (group : string) : string :=
  ("+OmicronDAGMan=" ++ String dquote (group ++ String dquote EmptyString))%string.

(** Lines 1343-1355: the positional and keyword arguments of
    [condor.submit_dag], after the DAG file. *)
Definition dagman_arguments (online : bool) (group : string)
           (options : list string) : list string * Nodes.dict string :=
  fold_left dagman_step options
            ([], if online then [("-append"%string, omicron_dagman group)] else []).

(** [x] has the form [append=value]. *)
Definition is_append (x : string) : Prop :=
  exists v, x = ("append=" ++ v)%string.

End Dagman.

Module NodeExamples.

Local Open Scope string_scope.

(** [omicron-process GW --skip-omicron] *)
Definition args_skip_omicron : Args :=
  {| gps := None;
     cache_file := false;
     archive := false;
     exclude_channel := [];
     max_concurrent := 10;
     reattach := false;
     rescue := false;
     no_submit := false;
     submit_rescue_dag := 0;
     dagman_option := ["force"];
     use_dev_shm := false;
     no_segdb := false;
     skip_omicron := true;
     skip_root_merge := false;
     skip_hdf5_merge := false;
     skip_ligolw_add := false;
     skip_gzip := false;
     skip_postprocessing := false;
     skip_rm := false |}.

(** Two files for the one channel of the group, whatever the
    sub-segment. *)
Definition example_output_files (subseg : segment) : Nodes.filedict :=
  [("H1:GDS-CALIB_STRAIN",
    [("root", ["H1-GDS_CALIB_STRAIN_OMICRON-1000-60.root"]);
     ("hdf5", ["H1-GDS_CALIB_STRAIN_OMICRON-1000-60.h5"])])].

End NodeExamples.


(* ================================================================== *)
(** ** omicron-status: the segments with triggers (status.py, 500-507) *)
(* ================================================================== *)

Module Status.

(** [padding] is the float [overlap / 2.], so that [padding * 2] is
    the overlap itself and a contracted segment has half-integer
    bounds.  Contracted segments are kept in half seconds:
    [seg.contract(padding)] is [(2 * start + overlap, 2 * end - overlap)]
    in that unit, through the ordering constructor. *)
Definition contract_half (overlap_ : Z) (seg : segment) : segment :=
  Segment (2 * fst seg + overlap_) (2 * snd seg - overlap_).

(** [for i in range(len(segs) - 1, -1, -1)], with [n] the number of
    indices still to visit and [done] the entries after them: a
    segment no longer than twice the padding is deleted, another one
    is replaced by its contraction. *)
Fixpoint resolvable_from (n : nat) (overlap_ : Z) (segs done : segmentlist)
  : segmentlist :=
  match n with
  | O => done
  | S i =>
      let seg := nth i segs (0, 0) in
      if abs seg <=? overlap_
      then resolvable_from i overlap_ segs done
      else resolvable_from i overlap_ segs (contract_half overlap_ seg :: done)
  end.

Definition resolvable_segments (overlap_ : Z) (segs : segmentlist) : segmentlist :=
  resolvable_from (List.length segs) overlap_ segs [].

End Status.


(** The order in which the parent edges let the nodes run: [c] runs
    after [p] when [p] is a parent of [c], or of a node [c] runs
    after. *)
Inductive runs_after {node : Type} (edges : list (node * node))
  : node -> node -> Prop :=
| after_parent (c p : node) : In (c, p) edges -> runs_after edges c p
| after_trans (c m p : node) :
    runs_after edges c m -> runs_after edges m p -> runs_after edges c p.


(* ================================================================== *)
(** * Properties                                                        *)
(* ================================================================== *)

(** ** Segment lists *)

Lemma Segment_ordered a b : a <= b -> Segment a b = (a, b).
Proof.
  intros H. unfold Segment. destruct (Z.leb_spec a b); [reflexivity | lia].
Qed.

Lemma last_seg_app l x : last_seg (l ++ [x]) = Some x.
Proof.
  unfold last_seg. rewrite rev_app_distr. reflexivity.
Qed.

Lemma last_seg_None l : last_seg l = None -> l = [].
Proof.
  destruct l as [|x l] using rev_ind; [reflexivity|].
  rewrite last_seg_app. discriminate.
Qed.

Lemma last_seg_Some l x : last_seg l = Some x -> l = drop_last l ++ [x].
Proof.
  destruct l as [|y l _] using rev_ind.
  - discriminate.
  - rewrite last_seg_app. intros [= ->].
    unfold drop_last. now rewrite removelast_last.
Qed.

(** ** Channel list *)

Section ChannelFacts.

Import Channels.

Lemma split_nonempty c s : split c s <> [].
Proof.
  destruct s as [|a s]; simpl; [discriminate|].
  destruct (Ascii.eqb a c); [discriminate|].
  destruct (split c s); discriminate.
Qed.

Lemma columns_Some rows :
  forallb two_fields rows = true ->
  exists xs ys, columns rows = Some (xs, ys).
Proof.
  induction rows as [|row rows IH]; simpl.
  - intros _. now exists [], [].
  - intros H. apply andb_prop in H as [Hrow Hrows].
    destruct (IH Hrows) as (xs & ys & E).
    destruct row as [|a [|b [|? ?]]]; try discriminate.
    rewrite E. now exists (a :: xs), (b :: ys).
Qed.

Lemma columns_None rows :
  forallb two_fields rows = false -> columns rows = None.
Proof.
  induction rows as [|row rows IH]; simpl; [discriminate|].
  intros H. apply andb_false_iff in H as [Hrow | Hrows].
  - destruct row as [|a [|b [|? ?]]]; try reflexivity; discriminate.
  - rewrite (IH Hrows).
    destruct row as [|a [|b [|? ?]]]; reflexivity.
Qed.

Lemma columns_None_zip rows :
  forallb two_fields rows = false -> zip2 rows = None.
Proof.
  intros H. unfold zip2. destruct rows; [reflexivity|]. now apply columns_None.
Qed.

Lemma mem_In c l : mem c l = true <-> In c l.
Proof.
  unfold mem. rewrite existsb_exists. split.
  - intros (x & Hx & E). apply String.eqb_eq in E. now subst.
  - intros H. exists c. split; [assumption | apply String.eqb_refl].
Qed.

Lemma pop_firstn_skipn i (l : list string) :
  pop i l = firstn i l ++ skipn (S i) l.
Proof.
  revert i. induction l as [|x l IH]; intros [|i]; simpl; try reflexivity.
  f_equal. apply IH.
Qed.

Lemma firstn_snoc_nth i (l : list string) :
  (i < List.length l)%nat ->
  firstn (S i) l = firstn i l ++ [nth i l EmptyString].
Proof.
  revert i. induction l as [|x l IH]; intros i Hi; simpl in Hi; [lia|].
  destruct i as [|i]; [reflexivity|].
  change (firstn (S (S i)) (x :: l)) with (x :: firstn (S i) l).
  rewrite IH by lia. reflexivity.
Qed.

(** On a tuple the loop raises as soon as it meets an excluded name. *)
Lemma remove_excluded_tuple exclude names n :
  (n <= List.length names)%nat ->
  (forallb (fun c => negb (mem c exclude)) (firstn n names) = true ->
   remove_excluded_from n (PyTuple names) exclude = Ret (PyTuple names))
  /\ (forallb (fun c => negb (mem c exclude)) (firstn n names) = false ->
      remove_excluded_from n (PyTuple names) exclude = Raise AttributeError).
Proof.
  induction n as [|i IH]; intros Hn.
  - split; [reflexivity | discriminate].
  - assert (Hi : (i < List.length names)%nat) by lia.
    rewrite (firstn_snoc_nth i names Hi), forallb_app. simpl. rewrite andb_true_r.
    destruct (IH ltac:(lia)) as [IHt IHf].
    destruct (mem (nth i names EmptyString) exclude); simpl.
    + rewrite andb_false_r. split; [discriminate | reflexivity].
    + rewrite andb_true_r. split; assumption.
Qed.

(** On a list the loop removes the excluded names among the indices it
    visits and never raises. *)
Lemma remove_excluded_list exclude n : forall l,
  (n <= List.length l)%nat ->
  remove_excluded_from n (PyList l) exclude =
  Ret (PyList (filter (fun c => negb (mem c exclude)) (firstn n l) ++ skipn n l)).
Proof.
  induction n as [|i IH]; intros l Hn.
  - reflexivity.
  - assert (Hi : (i < List.length l)%nat) by lia.
    simpl remove_excluded_from. simpl items_of.
    rewrite (firstn_snoc_nth i l Hi), filter_app. simpl filter.
    assert (Hsk : skipn i l = nth i l EmptyString :: skipn (S i) l).
    { clear IH Hn. revert i Hi.
      induction l as [|x l IHl]; intros i Hi; simpl in Hi; [lia|].
      destruct i as [|i]; [reflexivity|]. simpl. apply IHl. lia. }
    destruct (mem (nth i l EmptyString) exclude) eqn:Em; simpl negb; cbv iota.
    + rewrite IH.
      * rewrite pop_firstn_skipn.
        assert (Hlen : List.length (firstn i l) = i) by (apply firstn_length_le; lia).
        rewrite firstn_app, skipn_app, Hlen, Nat.sub_diag.
        rewrite firstn_firstn, Nat.min_id. simpl firstn.
        rewrite skipn_all2 by lia. simpl skipn.
        now rewrite !app_nil_r.
      * rewrite pop_firstn_skipn, length_app, firstn_length_le by lia. lia.
    + rewrite IH by lia. rewrite Hsk, <- app_assoc. reflexivity.
Qed.

End ChannelFacts.

(** ** Reading the channel list back from its lines *)

Section ChannelLines.

Import Channels.

Local Open Scope string_scope.

Lemma contains_app c s t : contains c (s ++ t) = contains c s || contains c t.
Proof.
  induction s as [|a s IH]; [reflexivity|]. simpl. now rewrite IH, orb_assoc.
Qed.

Lemma split_plain c s : contains c s = false -> split c s = [s].
Proof.
  induction s as [|a s IH]; [reflexivity|]. simpl.
  intros H. apply orb_false_elim in H as [Ha Hs].
  rewrite Ha, (IH Hs). reflexivity.
Qed.

Lemma split_line c s t :
  contains c s = false -> split c (s ++ String c t) = s :: split c t.
Proof.
  induction s as [|a s IH]; intros H.
  - simpl. now rewrite Ascii.eqb_refl.
  - simpl in H |- *. apply orb_false_elim in H as [Ha Hs].
    rewrite Ha, (IH Hs). reflexivity.
Qed.

Lemma split_join (lines : list string) :
  lines <> [] ->
  forallb (fun line => negb (contains nl line)) lines = true ->
  split nl (join nl lines) = lines.
Proof.
  induction lines as [|line rest IH]; [congruence|]. intros _ H.
  cbn [forallb] in H. apply andb_prop in H as [Hl Hr].
  apply negb_true_iff in Hl.
  destruct rest as [|line' rest]; [now apply split_plain|].
  change (join nl (line :: line' :: rest))
    with (line ++ String nl (join nl (line' :: rest))).
  rewrite (split_line _ _ _ Hl), IH; [reflexivity | discriminate | exact Hr].
Qed.

Lemma split1_plain c s : contains c s = false -> split1 c s = [s].
Proof.
  induction s as [|a s IH]; [reflexivity|]. simpl.
  intros H. apply orb_false_elim in H as [Ha Hs].
  rewrite Ha, (IH Hs). reflexivity.
Qed.

Lemma split1_line c s t :
  contains c s = false -> split1 c (s ++ String c t) = [s; t].
Proof.
  induction s as [|a s IH]; intros H.
  - simpl. now rewrite Ascii.eqb_refl.
  - simpl in H |- *. apply orb_false_elim in H as [Ha Hs].
    rewrite Ha, (IH Hs). reflexivity.
Qed.

(** [rstrip] leaves a string that does not end in [c] as it is. *)
Lemma rstrip_plain c s : contains c s = false -> rstrip c s = s.
Proof.
  induction s as [|a s IH]; [reflexivity|]. simpl.
  intros H. apply orb_false_elim in H as [Ha Hs].
  rewrite (IH Hs), Ha. now destruct s.
Qed.

Lemma rstrip_app c s t :
  t <> "" -> rstrip c t = t -> rstrip c (s ++ t) = s ++ t.
Proof.
  intros Hne Ht. induction s as [|a s IH]; [exact Ht|].
  simpl. rewrite IH.
  destruct (s ++ t) eqn:E; [|reflexivity].
  destruct s; [simpl in E; congruence | discriminate].
Qed.

(** Lines that are not empty and hold no line break, once joined,
    neither start nor end with a line break. *)
Lemma strip_join (lines : list string) :
  lines <> [] ->
  forallb (fun line => negb (String.eqb line "") && negb (contains nl line)) lines
  = true ->
  rstrip nl (join nl lines) = join nl lines
  /\ exists a rest, join nl lines = String a rest /\ Ascii.eqb a nl = false.
Proof.
  induction lines as [|line rest IH]; [congruence|]. intros _ H.
  cbn [forallb] in H. apply andb_prop in H as [Hl Hr].
  apply andb_prop in Hl as [Hne Hnl].
  apply negb_true_iff in Hne, Hnl. apply String.eqb_neq in Hne.
  destruct line as [|a line]; [congruence|].
  pose proof Hnl as Hnl'. simpl in Hnl'. apply orb_false_elim in Hnl' as [Ha _].
  destruct rest as [|line' rest].
  - cbn [join]. split; [now apply rstrip_plain|]. now exists a, line.
  - destruct (IH ltac:(discriminate) Hr) as (Hrs & b & tl & Hj & _).
    change (join nl (String a line :: line' :: rest))
      with (String a line ++ String nl (join nl (line' :: rest))).
    remember (join nl (line' :: rest)) as joined eqn:Ej. clear Ej.
    split; [|now exists a, (line ++ String nl joined)].
    apply rstrip_app; [discriminate|].
    simpl. rewrite Hrs, Hj. reflexivity.
Qed.

Lemma lstrip_newlines (n : nat) (s : string) :
  lstrip nl (newlines n ++ s) = lstrip nl s.
Proof.
  induction n as [|n IH]; [reflexivity|]. simpl. exact IH.
Qed.

Lemma rstrip_newlines (s : string) (n : nat) :
  rstrip nl (s ++ newlines n) = rstrip nl s.
Proof.
  induction s as [|a s IH].
  - induction n as [|n IHn]; [reflexivity|]. simpl in *. now rewrite IHn.
  - simpl. now rewrite IH.
Qed.

End ChannelLines.

Section ChannelFormats.

Import Channels.

Local Open Scope string_scope.

(** The lines of the option as [main] gets them back (line 550),
    whatever the line breaks before the first and after the last. *)
Lemma read_lines (lines : list string) (before after : nat) :
  lines <> [] ->
  forallb (fun line => negb (String.eqb line "") && negb (contains nl line)) lines
  = true ->
  split nl (rstrip nl (strip nl (newlines before ++ join nl lines ++ newlines after)))
  = lines.
Proof.
  intros Hne H. destruct (strip_join lines Hne H) as (Hr & a & rest & Hj & Ha).
  unfold strip. rewrite lstrip_newlines.
  assert (Hl : lstrip nl (join nl lines ++ newlines after)
               = join nl lines ++ newlines after).
  { rewrite Hj. simpl. now rewrite Ha. }
  rewrite Hl, rstrip_newlines, Hr, Hr. apply split_join; [exact Hne|].
  rewrite forallb_forall in H |- *. intros line Hin.
  specialize (H line Hin). now apply andb_prop in H as [_ H].
Qed.

Lemma two_column_lines (rows : list (string * string)) :
  forallb two_column_row rows = true ->
  forallb (fun line => negb (String.eqb line "") && negb (contains nl line))
          (map two_column_line rows) = true
  /\ columns (map (split1 space) (map two_column_line rows))
     = Some (map fst rows, map snd rows).
Proof.
  induction rows as [|[name rate] rows IH]; [now split|].
  cbn [forallb map]. intros H. apply andb_prop in H as [Hrow Hrows].
  destruct (IH Hrows) as [IH1 IH2]. clear IH.
  unfold two_column_row in Hrow. cbn [fst snd] in Hrow.
  apply andb_prop in Hrow as [Hrow Hrate]. apply andb_prop in Hrow as [Hsp Hnl].
  apply negb_true_iff in Hsp, Hnl, Hrate.
  change (two_column_line (name, rate)) with (name ++ String space rate).
  cbn [fst snd]. split.
  - rewrite IH1, andb_true_r. apply andb_true_intro. split.
    + apply negb_true_iff, String.eqb_neq. destruct name; discriminate.
    + rewrite contains_app, Hnl. simpl. now rewrite Hrate.
  - rewrite (split1_line _ _ _ Hsp). cbn [columns]. now rewrite IH2.
Qed.

Lemma single_column_lines (names : list string) :
  names <> [] ->
  forallb single_column_name names = true ->
  forallb (fun line => negb (String.eqb line "") && negb (contains nl line)) names
  = true
  /\ zip2 (map (split1 space) names) = None.
Proof.
  intros Hne H. split.
  - rewrite forallb_forall in H |- *. intros name Hin. specialize (H name Hin).
    unfold single_column_name in H.
    apply andb_prop in H as [H Hnl]. apply andb_prop in H as [He _].
    now rewrite He, Hnl.
  - destruct names as [|name names]; [congruence|].
    cbn [forallb] in H. apply andb_prop in H as [H _].
    unfold single_column_name in H.
    apply andb_prop in H as [H _]. apply andb_prop in H as [_ Hsp].
    apply negb_true_iff in Hsp.
    cbn [map zip2]. rewrite (split1_plain _ _ Hsp). reflexivity.
Qed.

Lemma remove_excluded_tuple_raises (names exclude : list string) :
  remove_excluded (PyTuple names) exclude = Raise AttributeError
  <-> exists c, In c names /\ In c exclude.
Proof.
  unfold remove_excluded. simpl items_of.
  destruct (remove_excluded_tuple exclude names (List.length names) (le_n _))
    as [Ht Hf].
  rewrite firstn_all in Ht, Hf.
  destruct (forallb (fun c => negb (mem c exclude)) names) eqn:Ef.
  - rewrite (Ht eq_refl). split; [discriminate|].
    intros (c & Hc & Hx). rewrite forallb_forall in Ef.
    specialize (Ef c Hc). apply mem_In in Hx. rewrite Hx in Ef. discriminate.
  - rewrite (Hf eq_refl). split; [|reflexivity]. intros _.
    destruct (forallb_forall (fun c => negb (mem c exclude)) names)
      as [_ Hall].
    destruct (existsb (fun c => mem c exclude) names) eqn:Ex.
    + apply existsb_exists in Ex as (c & Hc & Hm).
      exists c. split; [assumption | now apply mem_In].
    + rewrite Hall in Ef; [discriminate|].
      intros c Hc. destruct (mem c exclude) eqn:Em; [|reflexivity].
      assert (existsb (fun c => mem c exclude) names = true)
        by (apply existsb_exists; now exists c).
      congruence.
Qed.

Lemma remove_excluded_tuple_kept (names exclude : list string) :
  (forall c, In c names -> ~ In c exclude) ->
  remove_excluded (PyTuple names) exclude = Ret (PyTuple names).
Proof.
  intros Hnone. unfold remove_excluded. simpl items_of.
  destruct (remove_excluded_tuple exclude names (List.length names) (le_n _))
    as [Ht _].
  apply Ht. rewrite firstn_all. apply forallb_forall. intros c Hc.
  destruct (mem c exclude) eqn:Em; [|reflexivity].
  apply mem_In in Em. now destruct (Hnone c Hc).
Qed.

End ChannelFormats.

(** C10.  Let the [channels] option hold the lines 'channel samplerate'
    of the two-column format, one for each of the [rows], with any
    number of line breaks before and after them.  The channel names are
    then read as a tuple, beside the sample rates.  On that
    tuple the removal of excluded channels raises [AttributeError]
    exactly when one of the names is excluded and leaves the tuple as
    it is otherwise; a run that passes its option checks then ends in
    that [AttributeError] before it touches anything.  With the
    single-column format the names are read as a list, from which the
    excluded names are removed without error. *)
Theorem exclude_channel_two_column (rows : list (string * string))
        (exclude : list string)
        (before after : nat)
        (Hrows : rows <> [])
        (Hformat : forallb Channels.two_column_row rows = true) :
  let raw := (Channels.newlines before
              ++ Channels.join Channels.nl (map Channels.two_column_line rows)
              ++ Channels.newlines after)%string in
  let names := map fst rows in
  Channels.read_channels raw = (Channels.PyTuple names, map snd rows)
  /\ (Channels.remove_excluded (Channels.PyTuple names) exclude
      = Raise AttributeError
      <-> exists c, In c names /\ In c exclude)
  /\ ((forall c, In c names -> ~ In c exclude) ->
      Channels.remove_excluded (Channels.PyTuple names) exclude
      = Ret (Channels.PyTuple names))
  /\ (forall args cp env w options,
         channels cp = raw -> exclude_channel args = exclude ->
         validate_options args w = (Ret tt, w) ->
         rescue_options args w = (Ret options, w) ->
         (exists c, In c names /\ In c exclude) ->
         main args cp env w = (Raise AttributeError, w))
  /\ (forall single : list string,
         single <> [] ->
         forallb Channels.single_column_name single = true ->
         Channels.read_channels
           (Channels.newlines before ++ Channels.join Channels.nl single
            ++ Channels.newlines after)%string
         = (Channels.PyList single, [])
         /\ Channels.remove_excluded (Channels.PyList single) exclude
            = Ret (Channels.PyList
                     (filter (fun c => negb (Channels.mem c exclude)) single))).
Proof.
  intros raw names.
  destruct (two_column_lines rows Hformat) as [Hlines Hcols].
  assert (Hread : Channels.read_channels raw
                  = (Channels.PyTuple names, map snd rows)).
  { unfold Channels.read_channels, raw.
    rewrite read_lines; [|intros E; apply map_eq_nil in E; congruence | exact Hlines].
    unfold Channels.zip2.
    destruct (map (Channels.split1 Channels.space)
                  (map Channels.two_column_line rows)) eqn:E.
    - apply map_eq_nil in E. apply map_eq_nil in E. congruence.
    - now rewrite Hcols. }
  split; [exact Hread|].
  split; [apply remove_excluded_tuple_raises|].
  split; [apply remove_excluded_tuple_kept|].
  split.
  - intros args cp env w options Hraw Hex Hv Hr Hc.
    apply remove_excluded_tuple_raises in Hc.
    unfold main, bind. rewrite Hv, Hr. unfold lift.
    rewrite Hraw, Hex, Hread. cbn [fst]. rewrite Hc. reflexivity.
  - intros single Hne Hsingle.
    destruct (single_column_lines single Hne Hsingle) as [Hl Hz].
    split.
    + unfold Channels.read_channels.
      rewrite (read_lines single before after Hne Hl).
      now rewrite Hz.
    + unfold Channels.remove_excluded. simpl Channels.items_of.
      rewrite remove_excluded_list by apply le_n.
      now rewrite firstn_all, skipn_all, app_nil_r.
Qed.

(** The group with the lines [H1:GDS-CALIB_STRAIN 4096] and [H1:AUX
    256] after a line break, and [--exclude-channel H1:AUX]: the names
    are read as a tuple and the run ends in [AttributeError]. *)
Lemma exclude_channel_two_column_witness :
  Channels.read_channels (channels Examples.cp_two_column)
  = (Channels.PyTuple ["H1:GDS-CALIB_STRAIN"; "H1:AUX"]%string,
     ["4096"; "256"]%string)
  /\ run Examples.args_exclude Examples.cp_two_column Examples.env_failing None
     = (Raise AttributeError, start_world None).
Proof.
  destruct (exclude_channel_two_column
              [("H1:GDS-CALIB_STRAIN", "4096"); ("H1:AUX", "256")]%string
              ["H1:AUX"%string] 1 0
              ltac:(discriminate) eq_refl) as (Hread & _ & _ & Hmain & _).
  split; [exact Hread|].
  apply (Hmain Examples.args_exclude Examples.cp_two_column Examples.env_failing
               (start_world None) ["force"%string]
               eq_refl eq_refl eq_refl eq_refl).
  exists "H1:AUX"%string. split; [right; left; reflexivity | left; reflexivity].
Defined.

(** ** Removing the empty run directories *)

Section DirFacts.

Import Dirs.

Lemma entry_induction (P : entry -> Prop) :
  P File ->
  (forall flist, Forall P flist -> P (Directory flist)) ->
  forall e, P e.
Proof.
  intros HF HD. fix IH 1. intros [|flist]; [exact HF|].
  apply HD. induction flist as [|e flist IHl]; constructor; [apply IH | exact IHl].
Qed.

Lemma remove_empty_dir_cons (e : entry) (flist : list entry) :
  remove_empty_dir (Directory (e :: flist))
  = match remove_entries remove_empty_dir (e :: flist) with
    | (Ret true, kept) => rmdir kept
    | (ret, kept) => (ret, Some (Directory kept))
    end.
Proof. reflexivity. Qed.

Lemma hollow_no_file (flist : list entry) :
  forallb hollow flist = true -> filter is_file flist = [].
Proof.
  induction flist as [|e flist IH]; [reflexivity|]. simpl.
  intros H. apply andb_prop in H as [He Hl].
  destruct e; [discriminate | now apply IH].
Qed.

Lemma file_not_hollow (flist : list entry) :
  forallb (fun e => is_file e || hollow e) flist = true ->
  forallb hollow flist = false ->
  filter is_file flist <> [].
Proof.
  induction flist as [|e flist IH]; [discriminate|]. simpl.
  intros H Hh. apply andb_prop in H as [He Hl].
  destruct e as [|sub]; [discriminate|]. simpl in He, Hh |- *.
  rewrite He in Hh. now apply IH.
Qed.

Lemma remove_entries_outcome (flist : list entry) :
  Forall (fun e => is_file e = false -> removed_or_raises e) flist ->
  (forallb (fun e => is_file e || hollow e) flist = true ->
   remove_entries remove_empty_dir flist = (Ret true, filter is_file flist))
  /\ (forallb (fun e => is_file e || hollow e) flist = false ->
      exists kept, remove_entries remove_empty_dir flist = (Raise IOError, kept)).
Proof.
  induction 1 as [|e flist He Hl [IHt IHf]]; [split; [reflexivity | discriminate]|].
  destruct e as [|sub].
  - simpl. split; intros H.
    + now rewrite (IHt H).
    + destruct (IHf H) as (kept & E). rewrite E. now exists (File :: kept).
  - destruct (He eq_refl) as [Hh Hn].
    cbn [remove_entries forallb is_file orb filter].
    destruct (hollow (Directory sub)) eqn:Eh.
    + rewrite (Hh eq_refl). cbn [opt_cons andb]. split; intros H.
      * now rewrite (IHt H).
      * destruct (IHf H) as (kept & E). rewrite E. now exists kept.
    + destruct (Hn eq_refl) as (kept & E). rewrite E.
      cbn [opt_cons andb]. split; [discriminate|]. intros _.
      now exists (Directory kept :: flist).
Qed.

Lemma remove_empty_dir_outcome (e : entry) :
  is_file e = false -> removed_or_raises e.
Proof.
  induction e as [|flist IH] using entry_induction; [discriminate|]. intros _.
  destruct flist as [|e flist]; [split; [reflexivity | discriminate]|].
  destruct (remove_entries_outcome (e :: flist) IH) as [Ht Hf].
  unfold removed_or_raises. rewrite remove_empty_dir_cons.
  change (hollow (Directory (e :: flist))) with (forallb hollow (e :: flist)).
  destruct (forallb (fun e => is_file e || hollow e) (e :: flist)) eqn:Ea.
  - rewrite (Ht eq_refl). split; intros Hh.
    + now rewrite (hollow_no_file _ Hh).
    + pose proof (file_not_hollow _ Ea Hh) as Hne.
      destruct (filter is_file (e :: flist)) as [|x kept] eqn:Ek; [congruence|].
      now exists (x :: kept).
  - destruct (Hf eq_refl) as (kept & E). rewrite E. split; intros Hh.
    + exfalso. clear - Ea Hh. revert Ea Hh. generalize (e :: flist) as l.
      induction l as [|x l IHl]; [discriminate|]. simpl.
      intros Ea Hh. apply andb_prop in Hh as [Hx Hl].
      rewrite Hx, orb_true_r in Ea. now apply IHl.
    + now exists kept.
Qed.

(** X1.  Given a directory, [remove_empty_dir] never returns [False]:
    it removes the directory and returns [True] when the directory
    holds no regular file at any depth, and raises [OSError], leaving
    the directory in place, as soon as there is one. *)
Theorem remove_empty_dir_true_or_raises (flist : list entry) :
  (hollow (Directory flist) = true ->
   remove_empty_dir (Directory flist) = (Ret true, None))
  /\ (hollow (Directory flist) = false ->
      exists kept,
        remove_empty_dir (Directory flist) = (Raise IOError, Some (Directory kept)))
  /\ fst (remove_empty_dir (Directory flist)) <> Ret false.
Proof.
  destruct (remove_empty_dir_outcome (Directory flist) eq_refl) as [Ht Hf].
  split; [exact Ht|]. split; [exact Hf|].
  destruct (hollow (Directory flist)).
  - rewrite (Ht eq_refl). discriminate.
  - destruct (Hf eq_refl) as (kept & ->). discriminate.
Qed.

Lemma files_opt_cons (remains : option entry) (flist : list entry) :
  list_sum (map files (opt_cons remains flist))
  = (files_left remains + list_sum (map files flist))%nat.
Proof. destruct remains; reflexivity. Qed.

Lemma remove_entries_files (flist : list entry) :
  Forall (fun e => files_left (snd (remove_empty_dir e)) = files e) flist ->
  list_sum (map files (snd (remove_entries remove_empty_dir flist)))
  = list_sum (map files flist).
Proof.
  induction 1 as [|e flist He Hl IH]; [reflexivity|].
  destruct e as [|sub].
  - simpl. destruct (remove_entries remove_empty_dir flist) as [ret kept].
    simpl in IH |- *. now rewrite IH.
  - cbn [remove_entries].
    destruct (remove_empty_dir (Directory sub)) as [ret remains].
    cbn [snd] in He.
    destruct (remove_entries remove_empty_dir flist) as [ret' kept].
    cbn [snd] in IH.
    destruct ret as [[|]| | |]; cbn [snd]; rewrite files_opt_cons, He;
      cbn [map list_sum]; now rewrite ?IH.
Qed.

(** X2.  [remove_empty_dir] removes directories only: whether it
    returns or raises, every regular file below the path is still
    there. *)
Theorem remove_empty_dir_keeps_files (e : entry) :
  files_left (snd (remove_empty_dir e)) = files e.
Proof.
  induction e as [|flist IH] using entry_induction; [reflexivity|].
  destruct flist as [|e flist]; [reflexivity|].
  rewrite remove_empty_dir_cons.
  pose proof (remove_entries_files (e :: flist) IH) as E.
  destruct (remove_entries remove_empty_dir (e :: flist)) as [ret kept].
  cbn [snd] in E.
  change (files (Directory (e :: flist))) with (list_sum (map files (e :: flist))).
  rewrite <- E.
  destruct ret as [[|]| | |]; try reflexivity.
  destruct kept; reflexivity.
Qed.

Lemma clean_entries_outcome (flist : list entry) :
  forall can_delete,
    (forallb (fun e => is_file e || hollow e) flist = true ->
     clean_entries can_delete flist
     = (Ret (can_delete && forallb hollow flist), filter is_file flist))
    /\ (forallb (fun e => is_file e || hollow e) flist = false ->
        exists kept, clean_entries can_delete flist = (Raise IOError, kept)).
Proof.
  induction flist as [|e flist IH]; intros can_delete.
  - split; [intros _; simpl; now rewrite andb_true_r | discriminate].
  - destruct e as [|sub].
    + destruct (IH false) as [IHt IHf]. simpl. split; intros H.
      * rewrite (IHt H). now rewrite andb_false_r.
      * destruct (IHf H) as (kept & E). rewrite E. now exists (File :: kept).
    + destruct (remove_empty_dir_outcome (Directory sub) eq_refl) as [Hh Hn].
      cbn [clean_entries forallb is_file orb filter].
      destruct (hollow (Directory sub)) eqn:Eh.
      * rewrite (Hh eq_refl). cbn [opt_cons andb].
        destruct (IH (can_delete && true)) as [IHt IHf]. split; intros H.
        -- rewrite (IHt H). now rewrite andb_true_r.
        -- destruct (IHf H) as (kept & E). rewrite E. now exists kept.
      * destruct (Hn eq_refl) as (kept & E). rewrite E.
        cbn [opt_cons andb]. split; [discriminate|]. intros _.
        now exists (Directory kept :: flist).
Qed.

Lemma clean_dir_outcome (adir : entry) :
  (cleanable adir = true ->
   exists ret, clean_dir adir = (Ret ret, cleaned adir))
  /\ (cleanable adir = false ->
      exists remains, clean_dir adir = (Raise IOError, remains)).
Proof.
  destruct adir as [|flist].
  - split; [discriminate | intros _; now exists (Some File)].
  - destruct flist as [|e flist].
    + split; [intros _; now exists true | discriminate].
    + destruct (clean_entries_outcome (e :: flist) true) as [Ht Hf].
      unfold cleanable, clean_dir. split; intros H.
      * rewrite (Ht H). cbn [andb cleaned].
        destruct (forallb hollow (e :: flist)) eqn:Eh.
        -- rewrite (hollow_no_file _ Eh). now exists true.
        -- exists false. pose proof (file_not_hollow _ H Eh) as Hne.
           destruct (filter is_file (e :: flist)); [congruence | reflexivity].
      * destruct (Hf H) as (kept & E). rewrite E.
        now exists (Some (Directory kept)).
Qed.

(** X3.  [clean_dirs] returns exactly when every directory of the list
    has only hollow sub-directories; it then removes each directory
    that holds no regular file and leaves the others with their regular
    files.  A sub-directory that holds a file, at any depth, makes it
    raise [OSError]. *)
Theorem clean_dirs_returns_or_raises (dir_list : list entry) :
  (forallb cleanable dir_list = true ->
   Dirs.clean_dirs dir_list = (Ret tt, map cleaned dir_list))
  /\ (forallb cleanable dir_list = false ->
      exists remains, Dirs.clean_dirs dir_list = (Raise IOError, remains)).
Proof.
  induction dir_list as [|adir rest [IHt IHf]];
    [split; [reflexivity | discriminate]|].
  destruct (clean_dir_outcome adir) as [Ht Hf].
  cbn [forallb Dirs.clean_dirs map].
  destruct (cleanable adir).
  - destruct (Ht eq_refl) as (ret & E). rewrite E. cbn [andb]. split; intros H.
    + now rewrite (IHt H).
    + destruct (IHf H) as (remains & E'). rewrite E'.
      now exists (cleaned adir :: remains).
  - destruct (Hf eq_refl) as (remains & E). rewrite E. cbn [andb].
    split; [discriminate|]. intros _. now exists (remains :: map Some rest).
Qed.

End DirFacts.

(** Whether [clean_dirs] returns. *)
Lemma clean_dirs_result (dir_list : list Dirs.entry) :
  fst (Dirs.clean_dirs dir_list)
  = if forallb Dirs.cleanable dir_list then Ret tt else Raise IOError.
Proof.
  induction dir_list as [|adir rest IH]; [reflexivity|].
  destruct (clean_dir_outcome adir) as [Ht Hf].
  cbn [forallb Dirs.clean_dirs].
  destruct (Dirs.cleanable adir).
  - destruct (Ht eq_refl) as (ret & E). rewrite E. cbn [andb].
    destruct (Dirs.clean_dirs rest) as [r kept]. exact IH.
  - destruct (Hf eq_refl) as (remains & E). rewrite E. reflexivity.
Qed.

(** The same inside a run: the call is recorded when it returns, and
    its [OSError] ends the piece of [main] that made it. *)
Lemma clean_dirs_run (run_dir_list : list Dirs.entry) (w : world) :
  clean_dirs run_dir_list w
  = if forallb Dirs.cleanable run_dir_list
    then (Ret tt, {| segfile := segfile w; trace := trace w ++ [CleanDirs] |})
    else (Raise IOError, w).
Proof.
  unfold clean_dirs. rewrite clean_dirs_result.
  destruct (forallb Dirs.cleanable run_dir_list); reflexivity.
Qed.

(** ** Minimum duration of the span *)

(** C8.  Once the run segment [(start, end_)] is found, a padded span
    shorter than one chunk makes an online run call [clean_dirs] and
    then [clean_exit(0)]: the run exits with status 0, the watermark as
    it was, when every sub-directory of the run directories is free of
    files, and ends in the [OSError] of [clean_dirs] otherwise.  An
    offline run raises [ValueError]; a span of at least one chunk
    passes the check without either. *)
Theorem span_too_short (args : Args) (cp : Config) (env : Env)
        (newdag online : bool) (w w' : world) (start end_ : Z)
        (Hseg : find_run_segment args cp env newdag online w = (Ret (start, end_), w')) :
  let dataduration := (end_ + padding cp) - (start - padding cp) in
  (dataduration < chunkdur cp -> online = true ->
   select_segments args cp env newdag online w =
   if forallb Dirs.cleanable (run_dirs env)
   then (Exit 0, {| segfile := segfile w';
                    trace := trace w' ++ [CleanDirs; CleanTempfiles] |})
   else (Raise IOError, w'))
  /\ (dataduration < chunkdur cp -> online = false ->
      select_segments args cp env newdag online w = (Raise ValueError, w'))
  /\ (chunkdur cp <= dataduration ->
      check_span cp (run_dirs env) online dataduration w' = (Ret tt, w')).
Proof.
  intros dataduration. unfold select_segments, bind. rewrite Hseg.
  simpl fst. simpl snd. fold dataduration.
  unfold check_span. rewrite Z.mul_1_l.
  repeat split.
  - intros Hlt ->. apply Z.ltb_lt in Hlt. rewrite Hlt. simpl.
    unfold bind. rewrite clean_dirs_run.
    destruct (forallb Dirs.cleanable (run_dirs env)); [|reflexivity].
    unfold clean_exit, log_event, bind, sys_exit. simpl.
    now rewrite <- app_assoc.
  - intros Hlt ->. apply Z.ltb_lt in Hlt. rewrite Hlt. reflexivity.
  - intros Hge. apply Z.ltb_ge in Hge. rewrite Hge. reflexivity.
Qed.

(** Online, after the watermark [(0, 1940)] and with data up to GPS
    2002, the padded span is 64 seconds long, less than the chunk of
    124.  In a run directory where an earlier run left a trigger file
    in the directory of its channel, the run ends in [OSError]; the
    same run in a directory without such a file exits with status 0. *)
Lemma span_too_short_witness :
  select_segments Examples.args_online Examples.cp_gw Examples.env_used
                  true true (start_world (Some [(0, 1940)]))
  = (Raise IOError, start_world (Some [(0, 1940)]))
  /\ select_segments Examples.args_online Examples.cp_gw Examples.env_failing
                     true true (start_world (Some [(0, 1940)]))
     = (Exit 0, {| segfile := Some [(0, 1940)];
                   trace := [CleanDirs; CleanTempfiles] |}).
Proof.
  split.
  - apply (proj1 (span_too_short Examples.args_online Examples.cp_gw
                    Examples.env_used true true
                    (start_world (Some [(0, 1940)])) (start_world (Some [(0, 1940)]))
                    1940 2000 eq_refl)).
    + vm_compute. reflexivity.
    + reflexivity.
  - apply (proj1 (span_too_short Examples.args_online Examples.cp_gw
                    Examples.env_failing true true
                    (start_world (Some [(0, 1940)])) (start_world (Some [(0, 1940)]))
                    1940 2000 eq_refl)).
    + vm_compute. reflexivity.
    + reflexivity.
Defined.

(** ** Truncation at the limit of available data *)

Lemma padding_bounds cp :
  0 <= overlap cp -> 0 <= padding cp /\ 2 * padding cp <= overlap cp.
Proof.
  intros H. unfold padding.
  pose proof (Z.quot_rem' (overlap cp) 2) as E.
  pose proof (Z.rem_bound_pos (overlap cp) 2 H ltac:(lia)) as B.
  lia.
Qed.

(** The steady phase of the loop, with steps of [chunkdur - overlap]:
    with a positive step and enough fuel it stops at the first [t]
    from which a whole chunk no longer fits before [e]. *)
Lemma chunk_loop_steady (c o e : Z) :
  0 < c - o ->
  forall (fuel : nat) (t : Z),
    (Z.to_nat (e - t - c + 1) < fuel)%nat ->
    chunk_loop fuel c o t (c - o) e
    = Some (if t + c <=? e
            then t + ((e - t - c) / (c - o) + 1) * (c - o)
            else t).
Proof.
  intros Hd. induction fuel as [|fuel IH]; intros t Hfuel; [lia|].
  simpl. destruct (Z.leb_spec (t + c) e) as [Hle | Hgt]; [|reflexivity].
  rewrite IH by lia. f_equal.
  destruct (Z.leb_spec (t + (c - o) + c) e) as [Hle' | Hgt'].
  - replace (e - t - c) with ((e - (t + (c - o)) - c) + 1 * (c - o)) by ring.
    rewrite Z.div_add by lia. ring.
  - rewrite (Z.div_small (e - t - c) (c - o)) by lia. ring.
Qed.

(** With a step that is not positive, a loop that takes one steady step
    takes them for ever: running out of fuel is then no artefact. *)
Lemma chunk_loop_diverges (c o e : Z) :
  c - o <= 0 ->
  forall (fuel : nat) (t : Z),
    t + c <= e -> chunk_loop fuel c o t (c - o) e = None.
Proof.
  intros Hstep. induction fuel as [|fuel IH]; intros t Hle; [reflexivity|].
  simpl. destruct (Z.leb_spec (t + c) e); [|lia]. apply IH. lia.
Qed.

(** The new end of a last segment [(s, e0)]: the start when not even
    one chunk fits before [e = e0 - (chunkdur + padding)], one chunk
    when no second one fits, and otherwise one chunk and as many steps
    as it takes until a whole chunk no longer fits; with a step that is
    not positive there is no end. *)
Lemma whole_chunks_exact (c o p s e0 : Z) :
  let e := e0 - (c + p) in
  whole_chunks c o p (s, e0)
  = if e <? s + c then Some s
    else if e <? s + 2 * c then Some (s + c)
    else if o <? c
         then Some (s + c + ((e - s - 2 * c) / (c - o) + 1) * (c - o))
         else None.
Proof.
  intros e. unfold whole_chunks, chunk_fuel. cbn [fst snd]. fold e.
  replace (Z.to_nat (e - s - 2 * c) + 3)%nat
    with (S (S (Z.to_nat (e - s - 2 * c) + 1))) by lia.
  cbn [chunk_loop].
  destruct (Z.ltb_spec e (s + c)) as [H1 | H1];
    destruct (Z.leb_spec (s + c) e) as [H1' | H1']; try lia; [reflexivity|].
  destruct (Z.ltb_spec e (s + 2 * c)) as [H2 | H2];
    destruct (Z.leb_spec (s + c + c) e) as [H2' | H2']; try lia; [reflexivity|].
  destruct (Z.ltb_spec o c) as [H3 | H3].
  - pose proof (chunk_loop_steady c o e ltac:(lia)
                  (S (Z.to_nat (e - s - 2 * c) + 1)) (s + c) ltac:(lia)) as E.
    cbn [chunk_loop] in E.
    destruct (Z.leb_spec (s + c + c) e); [|lia].
    rewrite E. f_equal.
    replace (e - (s + c) - c) with (e - s - 2 * c) by ring. reflexivity.
  - apply chunk_loop_diverges; lia.
Qed.

(** C3.  In an online run that builds a new DAG, let the last
    state/frame segment [(s, e0)] end at [dataend].  If it is shorter
    than two chunks it is removed and [dataend] becomes its start.
    Otherwise [e = e0 - (chunkdur + padding)] is the end without the
    trailing chunk, and the segment keeps its start and gets the new
    end [t], which is also the new [dataend]: [t] is the first of the
    boundaries [s], [s + chunkdur], [s + chunkdur + k * (chunkdur -
    overlap)] from which a whole chunk no longer fits before [e].  For
    an overlap within [0, chunkdur) this gives [s <= t <= e < t +
    chunkdur] and a duration strictly less than the original one.  With
    an overlap of [chunkdur > 0] or more and room for two chunks before
    [e], the loop has no end. *)
Theorem truncate_last_segment (cp : Config) (segs : segmentlist)
        (lastseg : segment) (dataend : Z)
        (Hlast : last_seg segs = Some lastseg)
        (Hend : snd lastseg = dataend) :
  let c := chunkdur cp in
  let s := fst lastseg in
  let e := snd lastseg - (c + padding cp) in
  (abs lastseg < 2 * c ->
   truncate_segments cp true true segs dataend = Some (drop_last segs, s))
  /\ (2 * c <= abs lastseg ->
      overlap cp < c \/ e < s + 2 * c ->
      let t := if e <? s + c then s
               else if e <? s + 2 * c then s + c
               else s + c + ((e - s - 2 * c) / (c - overlap cp) + 1)
                            * (c - overlap cp) in
      truncate_segments cp true true segs dataend
      = Some (set_last segs (Segment s t), snd (Segment s t))
      /\ (0 <= overlap cp < c ->
          Segment s t = (s, t)
          /\ s <= t <= e
          /\ e < t + c
          /\ abs (s, t) < abs lastseg))
  /\ (2 * c <= abs lastseg ->
      0 < c <= overlap cp -> s + 2 * c <= e ->
      truncate_segments cp true true segs dataend = None).
Proof.
  subst dataend. cbv zeta.
  set (c := chunkdur cp). set (s := fst lastseg).
  set (e := snd lastseg - (c + padding cp)).
  pose proof (whole_chunks_exact c (overlap cp) (padding cp) s (snd lastseg)) as E.
  cbv zeta in E. fold e in E.
  replace (s, snd lastseg) with lastseg in E by (subst s; now destruct lastseg).
  unfold truncate_segments. rewrite Hlast, Z.eqb_refl. cbn [andb].
  fold c s.
  split; [|split].
  - intros Hshort.
    destruct (Z.ltb_spec (abs lastseg) (c * 2)); [reflexivity | lia].
  - intros Hlong Hcase.
    set (t := if e <? s + c then s
              else if e <? s + 2 * c then s + c
              else s + c + ((e - s - 2 * c) / (c - overlap cp) + 1)
                           * (c - overlap cp)).
    destruct (Z.ltb_spec (abs lastseg) (c * 2)); [lia|].
    assert (Et : whole_chunks c (overlap cp) (padding cp) lastseg = Some t).
    { rewrite E. subst t.
      destruct (Z.ltb_spec e (s + c)); [reflexivity|].
      destruct (Z.ltb_spec e (s + 2 * c)); [reflexivity|].
      destruct (Z.ltb_spec (overlap cp) c); [reflexivity | lia]. }
    rewrite Et. split; [reflexivity|].
    intros Hov.
    destruct (padding_bounds cp (proj1 Hov)) as [Hp Hpo].
    unfold abs in *. fold s in Hlong |- *.
    assert (Hb : s <= t <= e /\ e < t + c).
    { subst t.
      destruct (Z.ltb_spec e (s + c)); [subst e; lia|].
      destruct (Z.ltb_spec e (s + 2 * c)); [lia|].
      set (d := c - overlap cp).
      assert (Hd : 0 < d) by (subst d; lia).
      pose proof (Z.div_mod (e - s - 2 * c) d ltac:(lia)) as Hdm.
      pose proof (Z.mod_pos_bound (e - s - 2 * c) d Hd) as Hm.
      set (q := (e - s - 2 * c) / d) in *.
      assert (0 <= q) by (subst q; apply Z.div_pos; lia).
      subst d. nia. }
    rewrite (Segment_ordered s t) by lia. cbn [fst snd].
    split; [reflexivity|]. split; [tauto|]. split; [tauto|]. subst e. lia.
  - intros Hlong Hov Hroom.
    destruct (Z.ltb_spec (abs lastseg) (c * 2)); [lia|].
    rewrite E.
    destruct (Z.ltb_spec e (s + c)); [lia|].
    destruct (Z.ltb_spec e (s + 2 * c)); [lia|].
    destruct (Z.ltb_spec (overlap cp) c); [lia | reflexivity].
Qed.

(** The [GW] group and the last segment [(998, 2002)] at the limit of
    the data: without the trailing chunk it ends at 1876, and it is cut
    back to [(998, 1842)], one chunk and six further steps of 120
    seconds; the next boundary, 1962, is beyond 1876. *)
Lemma truncate_last_segment_witness :
  truncate_segments Examples.cp_gw true true [(998, 2002)] 2002
  = Some ([(998, 1842)], 1842).
Proof.
  destruct (truncate_last_segment Examples.cp_gw [(998, 2002)] (998, 2002)
                                  2002 eq_refl eq_refl) as (_ & H & _).
  refine (proj1 (H _ _)).
  - vm_compute. discriminate.
  - left. vm_compute. reflexivity.
Defined.

(** C3 as stated does not hold: the new end is not the reduced end
    rounded down to the last chunk boundary.  With chunks of 124 and an
    overlap of 4, the last segment [(0, 371)] without its trailing
    chunk ends at 245; rounded down to the boundaries 0, 124, 244 that
    is 244, and the loop stops at 124, since [124 + 124 > 245]. *)
Lemma truncate_not_rounded_down :
  ~ (forall (cp : Config) (segs : segmentlist) (lastseg : segment) (dataend : Z),
        last_seg segs = Some lastseg ->
        snd lastseg = dataend ->
        2 * chunkdur cp <= abs lastseg ->
        let t := spec_rounded_end (chunkdur cp) (overlap cp) (fst lastseg)
                                  (snd lastseg - (chunkdur cp + padding cp)) in
        truncate_segments cp true true segs dataend
        = Some (set_last segs (fst lastseg, t), t)).
Proof.
  intros H.
  specialize (H Examples.cp_gw [(0, 371)] (0, 371) 371 eq_refl eq_refl
                ltac:(vm_compute; discriminate)).
  vm_compute in H. discriminate H.
Qed.

(** ** Metric-day boundaries *)

(** C4.  The segment [(99000, 101000)] straddles the boundary 100000.
    The segments handed to the minimum-duration filter and to the rest
    of the run still hold it in one piece: the list [seg_tmp] built by
    the boundary loop is not the one filtered, and the pieces it holds
    are cut at the day number 1, not at GPS 100000. *)
Theorem metric_day_not_split :
  analysable_segments Examples.cp_gw [(99000, 101000)] [(99000, 101000)]
  = ([(99000, 101000)], [(1, 99000); (1, 101000)]).
Proof. reflexivity. Qed.

(** ** Post-processing script *)

(** C5.  With HDF5 as the output format, [--skip-hdf5-merge] leaves the
    merge command of the format without [--no-merge], and
    [--skip-root-merge] puts the flag on it. *)
Theorem hdf5_merge_follows_root_option :
  let cmd (args : Args) :=
    nth 1 (PostProcess.channel_operations args "omicron-merge-with-gaps"
             "/run/merge" ["hdf5"%string] Examples.example_files "H1:X")
        EmptyString in
  skip_hdf5_merge Examples.args_skip_hdf5 = true
  /\ PostProcess.has_flag "--no-merge" (cmd Examples.args_skip_hdf5) = false
  /\ skip_hdf5_merge Examples.args_skip_root = false
  /\ PostProcess.has_flag "--no-merge" (cmd Examples.args_skip_root) = true
  /\ cmd Examples.args_skip_hdf5
     = "  omicron-merge-with-gaps    --out-dir /run/merge/H1:X H1:X-1000-60.hdf5 H1:X-1060-60.hdf5 "%string.
Proof. repeat split. Qed.

(** ** Concurrency ladder *)

Lemma in_add_parents {node : Type} (ps cs : list node) (c p : node) :
  In (c, p) (add_parents ps cs) <-> In p ps /\ In c cs.
Proof.
  unfold add_parents. rewrite in_flat_map. split.
  - intros (pj & Hp & Hin). apply in_map_iff in Hin as (cj & [= <- <-] & Hc).
    now split.
  - intros [Hp Hc]. exists p. split; [assumption|].
    apply in_map_iff. now exists c.
Qed.

(** The nodes of wave [q] are those created at positions
    [q * maxcon .. (q + 1) * maxcon - 1]. *)
Lemma wave_block (maxcon q : Z) (i : nat) :
  1 <= maxcon ->
  wave maxcon i = q <-> q * maxcon <= Z.of_nat i < (q + 1) * maxcon.
Proof.
  intros Hm. unfold wave. split.
  - intros <-.
    pose proof (Z.div_mod (Z.of_nat i) maxcon ltac:(lia)) as E.
    pose proof (Z.mod_pos_bound (Z.of_nat i) maxcon ltac:(lia)) as B.
    nia.
  - intros [Hlo Hhi]. symmetry.
    apply (Z.div_unique_pos _ _ _ (Z.of_nat i - q * maxcon)); lia.
Qed.

Lemma wave_nonneg (maxcon : Z) (i : nat) : 1 <= maxcon -> 0 <= wave maxcon i.
Proof.
  intros Hm. unfold wave. apply Z.div_pos; lia.
Qed.

(** The state of the ladder after the first [n] nodes, the nodes being
    named by their position: either the parents are still being filled,
    or the parents are one full wave [q], the children the part of wave
    [q + 1] seen so far, and the edges recorded are those into the
    waves up to [q]. *)
Lemma ladder_fold_seq (maxcon : Z) (Hm : 1 <= maxcon) (n : nat) :
  let st := fold_left (ladder_step maxcon) (seq 0 n)
                      {| parent_jobs := []; child_jobs := []; parent_edges := [] |} in
  exists (a b : nat) (q : Z),
    parent_jobs st = seq a (b - a)
    /\ child_jobs st = seq b (n - b)
    /\ (a <= b <= n)%nat
    /\ ((a = 0%nat /\ b = n /\ Z.of_nat n <= maxcon)
        \/ (Z.of_nat a = q * maxcon /\ Z.of_nat b = (q + 1) * maxcon
            /\ 0 <= q /\ (b < n)%nat /\ Z.of_nat n <= Z.of_nat b + maxcon))
    /\ forall c p : nat,
        In (c, p) (parent_edges st)
        <-> (c < b)%nat /\ wave maxcon c = wave maxcon p + 1.
Proof.
  induction n as [|n IH].
  - exists 0%nat, 0%nat, 0. simpl.
    split; [reflexivity|]. split; [reflexivity|]. split; [lia|].
    split; [left; lia|]. intros c p. split; [intros [] | lia].
  - rewrite seq_S, fold_left_app. simpl fold_left. simpl Nat.add.
    cbv zeta in IH.
    set (st := fold_left (ladder_step maxcon) (seq 0 n) _) in *.
    destruct IH as (a & b & q & Hpar & Hchi & Hab & Hphase & Hedges).
    unfold ladder_step. rewrite Hpar, Hchi, !length_seq.
    destruct Hphase as [(-> & -> & Hn) | (Ha & Hb & Hq & Hbn & Hn)].
    + (* the parents are being filled *)
      rewrite Nat.sub_0_r, Nat.sub_diag in *.
      destruct (Z.ltb_spec (Z.of_nat n) maxcon) as [Hlt | Hge].
      * exists 0%nat, (S n), 0. cbn [parent_jobs child_jobs parent_edges].
        rewrite Nat.sub_0_r, Nat.sub_diag, seq_S. simpl Nat.add.
        split; [reflexivity|]. split; [reflexivity|]. split; [lia|].
        split; [left; lia|]. intros c p. split.
        -- intros Hin. apply Hedges in Hin as [Hc Hw]. split; [lia | exact Hw].
        -- intros [Hc Hw]. apply Hedges.
           pose proof (wave_nonneg maxcon p Hm).
           assert (wave maxcon c = 0) by (apply wave_block; lia). lia.
      * destruct (Z.ltb_spec (Z.of_nat 0) maxcon) as [_ | ?]; [|lia].
        exists 0%nat, n, 0. cbn [parent_jobs child_jobs parent_edges].
        replace (S n - n)%nat with 1%nat by lia. rewrite Nat.sub_0_r.
        split; [reflexivity|]. split; [reflexivity|]. split; [lia|].
        split; [right; lia|]. exact Hedges.
    + (* a full wave of parents, the children are being filled *)
      destruct (Z.ltb_spec (Z.of_nat (b - a)) maxcon) as [? | _]; [lia|].
      destruct (Z.ltb_spec (Z.of_nat (n - b)) maxcon) as [Hlt | Hge].
      * exists a, b, q. cbn [parent_jobs child_jobs parent_edges].
        replace (S n - b)%nat with (S (n - b)) by lia.
        rewrite seq_S. replace (b + (n - b))%nat with n by lia.
        split; [reflexivity|]. split; [reflexivity|]. split; [lia|].
        split; [right; lia|]. exact Hedges.
      * exists b, n, (q + 1). cbn [parent_jobs child_jobs parent_edges].
        replace (S n - n)%nat with 1%nat by lia.
        assert (Hnb : Z.of_nat n = Z.of_nat b + maxcon) by lia.
        split; [f_equal; lia|]. split; [reflexivity|]. split; [lia|].
        split; [right; lia|]. intros c p. split.
        -- intros Hin. apply in_app_or in Hin as [Hin | Hin].
           ++ apply Hedges in Hin. split; [lia | apply Hin].
           ++ apply in_add_parents in Hin as [Hp Hc].
              apply in_seq in Hp, Hc.
              assert (wave maxcon p = q) by (apply wave_block; lia).
              assert (wave maxcon c = q + 1) by (apply wave_block; lia).
              split; lia.
        -- intros [Hc Hw]. apply in_or_app.
           destruct (Nat.lt_ge_cases c b) as [Hcb | Hcb].
           ++ left. apply Hedges. now split.
           ++ right. apply in_add_parents.
              assert (Hwc : wave maxcon c = q + 1) by (apply wave_block; lia).
              assert (Hwp : wave maxcon p = q) by lia.
              apply wave_block in Hwp; [|assumption].
              split; apply in_seq; lia.
Qed.

(** The edges of the ladder over the positions [0 .. n-1]. *)
Lemma ladder_seq_edges (maxcon : Z) (Hm : 1 <= maxcon) (n c p : nat) :
  In (c, p) (concurrency_ladder maxcon (seq 0 n))
  <-> (c < n)%nat /\ wave maxcon c = wave maxcon p + 1.
Proof.
  unfold concurrency_ladder.
  destruct (ladder_fold_seq maxcon Hm n)
    as (a & b & q & Hpar & Hchi & Hab & Hphase & Hedges).
  cbv zeta in Hpar, Hchi, Hedges.
  set (st := fold_left (ladder_step maxcon) (seq 0 n) _) in *.
  rewrite Hpar, Hchi, !length_seq.
  destruct Hphase as [(-> & -> & Hn) | (Ha & Hb & Hq & Hbn & Hn)].
  - rewrite Nat.sub_diag. simpl andb. apply Hedges.
  - destruct (Z.ltb_spec 0 (Z.of_nat (n - b))) as [_ | ?]; [|lia].
    destruct (Z.ltb_spec 0 (Z.of_nat (b - a))) as [_ | ?]; [|lia].
    simpl andb. rewrite in_app_iff, in_add_parents, !in_seq, Hedges.
    split.
    + intros [[Hc Hw] | [Hp Hc]]; [split; [lia | exact Hw]|].
      assert (wave maxcon p = q) by (apply wave_block; lia).
      assert (wave maxcon c = q + 1) by (apply wave_block; lia).
      split; lia.
    + intros [Hc Hw].
      destruct (Nat.lt_ge_cases c b) as [Hcb | Hcb]; [left; now split|].
      right.
      assert (Hwc : wave maxcon c = q + 1) by (apply wave_block; lia).
      assert (Hwp : wave maxcon p = q) by lia.
      apply wave_block in Hwp; [|assumption]. lia.
Qed.

(** The ladder does not look at the nodes: renaming them renames the edges. *)
Lemma add_parents_map {A B : Type} (f : A -> B) (ps cs : list A) :
  add_parents (map f ps) (map f cs)
  = map (fun e => (f (fst e), f (snd e))) (add_parents ps cs).
Proof.
  unfold add_parents. induction ps as [|p ps IH]; [reflexivity|].
  simpl. rewrite IH, map_app, !map_map. reflexivity.
Qed.

Lemma ladder_fold_map {A B : Type} (f : A -> B) (maxcon : Z) (l : list A) :
  forall st : ladder,
    fold_left (ladder_step maxcon) (map f l)
              {| parent_jobs := map f (parent_jobs st);
                 child_jobs := map f (child_jobs st);
                 parent_edges :=
                   map (fun e => (f (fst e), f (snd e))) (parent_edges st) |}
    = let st' := fold_left (ladder_step maxcon) l st in
      {| parent_jobs := map f (parent_jobs st');
         child_jobs := map f (child_jobs st');
         parent_edges :=
           map (fun e => (f (fst e), f (snd e))) (parent_edges st') |}.
Proof.
  induction l as [|j l IH]; intros st; [reflexivity|].
  simpl fold_left. rewrite <- IH. f_equal.
  unfold ladder_step. cbn [parent_jobs child_jobs parent_edges].
  rewrite !length_map.
  destruct (Z.of_nat (List.length (parent_jobs st)) <? maxcon);
    [cbn [parent_jobs child_jobs parent_edges]; now rewrite map_app|].
  destruct (Z.of_nat (List.length (child_jobs st)) <? maxcon);
    cbn [parent_jobs child_jobs parent_edges].
  - now rewrite map_app.
  - now rewrite map_app, add_parents_map.
Qed.

Lemma concurrency_ladder_map {A B : Type} (f : A -> B) (maxcon : Z) (l : list A) :
  concurrency_ladder maxcon (map f l)
  = map (fun e => (f (fst e), f (snd e))) (concurrency_ladder maxcon l).
Proof.
  unfold concurrency_ladder.
  pose proof (ladder_fold_map f maxcon l
                {| parent_jobs := []; child_jobs := []; parent_edges := [] |}) as E.
  cbn [parent_jobs child_jobs parent_edges map] in E. rewrite E. cbv zeta.
  cbn [parent_jobs child_jobs parent_edges]. rewrite !length_map.
  destruct (_ && _); [|reflexivity].
  now rewrite map_app, add_parents_map.
Qed.

Lemma map_nth_seq {A : Type} (l : list A) (d : A) :
  map (fun i => nth i l d) (seq 0 (List.length l)) = l.
Proof.
  apply (nth_ext _ _ (nth 0 l d) d).
  - now rewrite length_map, length_seq.
  - intros n Hn. rewrite length_map, length_seq in Hn.
    rewrite (map_nth (fun i => nth i l d)), seq_nth by assumption.
    reflexivity.
Qed.

Lemma wave_mono (maxcon : Z) (i j : nat) :
  1 <= maxcon -> (i <= j)%nat -> wave maxcon i <= wave maxcon j.
Proof.
  intros Hm Hij. unfold wave. apply Z.div_le_mono; lia.
Qed.

(** C6.  For omicron nodes in creation order and [maxcon >= 1], the
    node created [i]-th belongs to wave [i / maxcon]: the waves are
    consecutive runs of [maxcon] positions.  The parent edges added
    between omicron nodes are exactly the pairs (child, parent) with the
    child in the wave after the parent's; so every node of a wave has
    every node of the wave before as a parent and no other, and the
    nodes of the first wave get no parent. *)
Theorem concurrency_ladder_waves {node : Type} (omicron_nodes : list node)
        (maxcon : Z) (Hm : 1 <= maxcon) :
  (forall i : nat,
      wave maxcon i * maxcon <= Z.of_nat i < (wave maxcon i + 1) * maxcon)
  /\ (forall c p : node,
         In (c, p) (concurrency_ladder maxcon omicron_nodes)
         <-> exists i j : nat,
             nth_error omicron_nodes i = Some p
             /\ nth_error omicron_nodes j = Some c
             /\ wave maxcon j = wave maxcon i + 1)
  /\ (NoDup omicron_nodes ->
      forall (j : nat) (c p : node),
        nth_error omicron_nodes j = Some c -> wave maxcon j = 0 ->
        ~ In (c, p) (concurrency_ladder maxcon omicron_nodes)).
Proof.
  assert (Hedges : forall c p : node,
             In (c, p) (concurrency_ladder maxcon omicron_nodes)
             <-> exists i j : nat,
                 nth_error omicron_nodes i = Some p
                 /\ nth_error omicron_nodes j = Some c
                 /\ wave maxcon j = wave maxcon i + 1).
  { intros c p. destruct omicron_nodes as [|d l] eqn:El.
    - simpl. split; [intros [] | intros (i & j & Hi & _)].
      now destruct i.
    - rewrite <- El. clear El.
      rewrite <- (map_nth_seq omicron_nodes d) at 1.
      rewrite concurrency_ladder_map, in_map_iff. split.
      + intros ([j i] & [= <- <-] & Hin). simpl fst. simpl snd.
        apply (ladder_seq_edges maxcon Hm) in Hin as [Hj Hw].
        assert (Hij : (i < j)%nat).
        { destruct (Nat.lt_ge_cases i j) as [|Hge]; [assumption|].
          pose proof (wave_mono maxcon j i Hm Hge). lia. }
        exists i, j. repeat split; [| |exact Hw];
          apply nth_error_nth'; lia.
      + intros (i & j & Hi & Hj & Hw).
        assert (Hil : (i < List.length omicron_nodes)%nat)
          by (apply nth_error_Some; congruence).
        assert (Hjl : (j < List.length omicron_nodes)%nat)
          by (apply nth_error_Some; congruence).
        exists (j, i). simpl fst. simpl snd. split.
        * now rewrite (nth_error_nth _ _ d Hi), (nth_error_nth _ _ d Hj).
        * apply (ladder_seq_edges maxcon Hm). now split. }
  split; [|split].
  - intros i. now apply wave_block.
  - exact Hedges.
  - intros Hnd j c p Hj Hw Hin.
    apply Hedges in Hin as (i & j' & _ & Hj' & Hw').
    assert (j' = j).
    { apply (proj1 (NoDup_nth_error omicron_nodes) Hnd).
      - apply nth_error_Some. congruence.
      - congruence. }
    subst j'. pose proof (wave_nonneg maxcon i Hm). lia.
Qed.

(** Seven nodes with [--max-concurrent 2]: node 2 waits for node 0,
    node 4 does not, and node 1 waits for nothing. *)
Lemma concurrency_ladder_waves_witness :
  In (2%nat, 0%nat) (concurrency_ladder 2 (seq 0 7))
  /\ ~ In (4%nat, 0%nat) (concurrency_ladder 2 (seq 0 7))
  /\ ~ In (1%nat, 0%nat) (concurrency_ladder 2 (seq 0 7)).
Proof.
  pose proof (concurrency_ladder_waves (seq 0 7) 2 ltac:(lia))
    as (_ & Hedges & Hfirst).
  split; [|split].
  - apply Hedges. exists 0%nat, 2%nat. repeat split.
  - intros Hin. apply Hedges in Hin as (i & j & Hi & Hj & Hw).
    do 8 (try destruct i as [|i]); try discriminate;
      do 8 (try destruct j as [|j]); try discriminate;
      vm_compute in Hw; discriminate.
  - apply (Hfirst (seq_NoDup 7 0) 1%nat); reflexivity.
Defined.

(** ** Submission loop *)

Lemma submissions_app (t1 t2 : list event) :
  submissions (t1 ++ t2) = (submissions t1 + submissions t2)%nat.
Proof.
  unfold submissions. now rewrite filter_app, length_app.
Qed.

(** A turn of a run that submits: the DAG is submitted once. *)
Lemma submit_turn (env : Env) (span : segmentlist) (i : nat)
      (options : list string) (w : world) :
  submit_ok env i = true ->
  exists options' w',
    submit_or_reattach env false span i options w = (Ret options', w')
    /\ submissions (trace w') = S (submissions (trace w)).
Proof.
  intros Hok. unfold submit_or_reattach. rewrite Hok.
  unfold bind, log_event, write_segments, ret. simpl.
  destruct (Nat.eqb i 0); simpl; eexists; eexists; (split; [reflexivity|]);
    simpl trace; rewrite !submissions_app; cbn; lia.
Qed.

(** Every turn from [i] on submits and sees the DAG fail: the loop
    submits in each of the turns left and raises in the last one. *)
Lemma babysit_all_fail (args : Args) (env : Env) (span : segmentlist) (N : nat) :
  submit_rescue_dag args = Z.of_nat N ->
  (forall i, (i <= N)%nat -> submit_ok env i = true) ->
  (forall i, (i <= N)%nat -> watch_raises env i = false) ->
  (forall i, (i <= N)%nat -> exists code, dag_status env i = Some code /\ code <> 0) ->
  forall (n i : nat) (options : list string) (w : world),
    (i + S n = S N)%nat ->
    exists w',
      babysit args env false span (S n) i options w
      = (Raise (RuntimeError (FailedToComplete (Z.of_nat N + 1))), w')
      /\ submissions (trace w') = (submissions (trace w) + S n)%nat.
Proof.
  intros HN Hsub Hwatch Hstat.
  induction n as [|n IH]; intros i options w Hi.
  - destruct (submit_turn env span i options w (Hsub i ltac:(lia)))
      as (options' & w1 & E & Hs).
    destruct (Hstat i ltac:(lia)) as (code & Ec & Hc).
    exists w1. cbn [babysit]. unfold bind at 1. rewrite E.
    unfold bind at 1. rewrite (Hwatch i ltac:(lia)). unfold ret at 1.
    rewrite Ec. destruct (Z.eqb_spec code 0); [contradiction|].
    rewrite HN. destruct (Z.eqb_spec (Z.of_nat i) (Z.of_nat N)); [|lia].
    unfold raise. split; [reflexivity | lia].
  - destruct (submit_turn env span i options w (Hsub i ltac:(lia)))
      as (options' & w1 & E & Hs).
    destruct (Hstat i ltac:(lia)) as (code & Ec & Hc).
    destruct (IH (S i) options'
                 {| segfile := segfile w1; trace := trace w1 ++ [FindRescueDag] |}
                 ltac:(lia)) as (w' & E' & Hs').
    exists w'. remember (S n) as m. cbn [babysit]. unfold bind at 1. rewrite E.
    unfold bind at 1. rewrite (Hwatch i ltac:(lia)). unfold ret at 1.
    rewrite Ec. destruct (Z.eqb_spec code 0); [contradiction|].
    rewrite HN. destruct (Z.eqb_spec (Z.of_nat i) (Z.of_nat N)); [lia|].
    unfold bind at 1. unfold log_event at 1. rewrite E'.
    split; [reflexivity|].
    rewrite Hs'. simpl trace. rewrite submissions_app. cbn. lia.
Qed.

(** The DAG fails in the turns [i .. k-1] and exits with status 0 in
    turn [k]: the loop ends there, after one submission per turn. *)
Lemma babysit_success (args : Args) (env : Env) (span : segmentlist) (N k : nat) :
  submit_rescue_dag args = Z.of_nat N ->
  (k <= N)%nat ->
  (forall i, (i <= k)%nat -> submit_ok env i = true) ->
  (forall i, (i <= k)%nat -> watch_raises env i = false) ->
  (forall i, (i < k)%nat -> exists code, dag_status env i = Some code /\ code <> 0) ->
  dag_status env k = Some 0 ->
  forall (n i : nat) (options : list string) (w : world),
    (i <= k)%nat -> (k < i + n)%nat -> (i + n <= S N)%nat ->
    exists w',
      babysit args env false span n i options w = (Ret tt, w')
      /\ submissions (trace w') = (submissions (trace w) + S (k - i))%nat.
Proof.
  intros HN HkN Hsub Hwatch Hstat Hk.
  induction n as [|n IH]; intros i options w Hik Hkn HnN; [lia|].
  destruct (submit_turn env span i options w (Hsub i Hik))
    as (options' & w1 & E & Hs).
  cbn [babysit]. unfold bind at 1. rewrite E.
  unfold bind at 1. rewrite (Hwatch i Hik). unfold ret at 1.
  destruct (Nat.eq_dec i k) as [-> | Hne].
  - rewrite Hk. simpl. exists w1. split; [reflexivity | lia].
  - destruct (Hstat i ltac:(lia)) as (code & Ec & Hc).
    rewrite Ec. destruct (Z.eqb_spec code 0); [contradiction|].
    rewrite HN. destruct (Z.eqb_spec (Z.of_nat i) (Z.of_nat N)); [lia|].
    destruct (IH (S i) options'
                 {| segfile := segfile w1; trace := trace w1 ++ [FindRescueDag] |}
                 ltac:(lia) ltac:(lia) ltac:(lia)) as (w' & E' & Hs').
    exists w'. unfold bind at 1. unfold log_event at 1. rewrite E'.
    split; [reflexivity|].
    rewrite Hs'. simpl trace. rewrite submissions_app. cbn. lia.
Qed.

(** C7, as the loop has it.  Let the rescue budget be [N] and the run
    submit the DAG itself (it does not reattach to a running one), every
    submission and every monitoring call returning.  If the DAG exits
    with a non-zero status every time, the loop submits it [N + 1] times
    and then raises the error of [N + 1] failed attempts.  If it fails
    in the turns before [k <= N] and exits with status 0 in turn [k],
    the loop ends there, after [k + 1] submissions and none later. *)
Theorem rescue_loop (args : Args) (env : Env) (span : segmentlist) (N : nat)
        (options : list string) (w : world)
        (HN : submit_rescue_dag args = Z.of_nat N) :
  ((forall i, (i <= N)%nat ->
      submit_ok env i = true /\ watch_raises env i = false
      /\ exists code, dag_status env i = Some code /\ code <> 0) ->
   exists w',
     babysit args env false span (turns args) 0 options w
     = (Raise (RuntimeError (FailedToComplete (Z.of_nat N + 1))), w')
     /\ submissions (trace w') = (submissions (trace w) + (N + 1))%nat)
  /\ (forall k, (k <= N)%nat ->
      (forall i, (i <= k)%nat ->
         submit_ok env i = true /\ watch_raises env i = false) ->
      (forall i, (i < k)%nat ->
         exists code, dag_status env i = Some code /\ code <> 0) ->
      dag_status env k = Some 0 ->
      exists w',
        babysit args env false span (turns args) 0 options w = (Ret tt, w')
        /\ submissions (trace w') = (submissions (trace w) + (k + 1))%nat).
Proof.
  assert (Ht : turns args = S N) by (unfold turns; rewrite HN; lia).
  rewrite Ht. split.
  - intros Hall.
    destruct (babysit_all_fail args env span N HN
                (fun i Hi => proj1 (Hall i Hi))
                (fun i Hi => proj1 (proj2 (Hall i Hi)))
                (fun i Hi => proj2 (proj2 (Hall i Hi)))
                N 0%nat options w eq_refl) as (w' & E & Hs).
    exists w'. split; [exact E | lia].
  - intros k Hk Hok Hfail Hzero.
    destruct (babysit_success args env span N k HN Hk
                (fun i Hi => proj1 (Hok i Hi))
                (fun i Hi => proj2 (Hok i Hi))
                Hfail Hzero (S N) 0%nat options w
                ltac:(lia) ltac:(lia) ltac:(lia)) as (w' & E & Hs).
    exists w'. split; [exact E | lia].
Qed.

(** [--submit-rescue-dag 2] and a DAG that fails every time: three
    submissions, then the error of three failed attempts. *)
Lemma rescue_loop_witness :
  exists w',
    babysit Examples.args_rescue_twice Examples.env_failing false
            [(1000, 1840)] 3 0 ["force"%string] (start_world None)
    = (Raise (RuntimeError (FailedToComplete 3)), w')
    /\ submissions (trace w') = 3%nat.
Proof.
  apply (proj1 (rescue_loop Examples.args_rescue_twice Examples.env_failing
                  [(1000, 1840)] 2 ["force"%string] (start_world None)
                  eq_refl)).
  intros i _. repeat split. exists 1. split; [reflexivity | lia].
Defined.

(** C7 as stated does not hold of a run that reattaches: with
    [--reattach --submit-rescue-dag 1] and a DAG that fails in both
    turns, the loop raises the error of two failed attempts without
    having submitted anything. *)
Lemma rescue_loop_reattach_counterexample :
  ~ (forall (args : Args) (env : Env) (reattach_ : bool) (span : segmentlist)
            (N : nat) (options : list string) (w : world),
        submit_rescue_dag args = Z.of_nat N ->
        (forall i, (i <= N)%nat ->
           submit_ok env i = true /\ watch_raises env i = false
           /\ exists code, dag_status env i = Some code /\ code <> 0) ->
        exists w',
          babysit args env reattach_ span (turns args) 0 options w
          = (Raise (RuntimeError (FailedToComplete (Z.of_nat N + 1))), w')
          /\ submissions (trace w') = (submissions (trace w) + (N + 1))%nat).
Proof.
  intros H.
  destruct (H Examples.args_reattach Examples.env_running true [(1000, 1840)]
              1%nat ["force"%string] (start_world (Some [(1000, 1840)])) eq_refl)
    as (w' & E & Hs).
  - intros i _. repeat split. exists 1. split; [reflexivity | lia].
  - vm_compute in E. injection E as <-. vm_compute in Hs. discriminate.
Qed.

(** ** Coalesced lists and trigger segments *)

Lemma separated_from_weaken (lb lb' : Z) (l : segmentlist) :
  lb' <= lb -> separated_from lb l -> separated_from lb' l.
Proof.
  destruct l as [|y l]; simpl; [trivial|]. intros Hle (H1 & H2 & H3).
  repeat split; [lia | assumption | assumption].
Qed.

Lemma separated_from_separated (lb : Z) (l : segmentlist) :
  separated_from lb l -> separated l.
Proof.
  destruct l as [|y l]; [trivial|]. intros H.
  unfold separated. simpl in *. intuition lia.
Qed.

Lemma separated_separated_from (l : segmentlist) :
  separated l -> exists lb, separated_from lb l.
Proof.
  destruct l as [|y l]; intros H; [now exists 0 | now exists (fst y - 1)].
Qed.

Lemma separated_from_In (lb : Z) (l : segmentlist) (s : segment) :
  separated_from lb l -> In s l -> lb < fst s /\ fst s < snd s.
Proof.
  revert lb. induction l as [|y l IH]; intros lb Hsep Hin; [destruct Hin|].
  destruct Hsep as (H1 & H2 & H3). destruct Hin as [<- | Hin]; [now split|].
  destruct (IH _ H3 Hin). split; lia.
Qed.

Lemma and_ordered (a b : segmentlist) :
  Forall (fun s => fst s <= snd s) (and_ a b).
Proof.
  unfold and_. apply Forall_forall. intros s Hin.
  apply in_flat_map in Hin as (x & _ & Hin).
  induction b as [|y b IH]; [destruct Hin|].
  simpl in Hin. unfold inter at 1 in Hin.
  destruct (Z.ltb_spec (Z.max (fst x) (fst y)) (Z.min (snd x) (snd y))).
  - destruct Hin as [<- | Hin]; [simpl; lia | now apply IH].
  - now apply IH.
Qed.

Lemma insert_Forall (P : segment -> Prop) (x : segment) (l : segmentlist) :
  P x -> Forall P l -> Forall P (insert x l).
Proof.
  intros Hx Hl. induction Hl as [|y l Hy Hl IH]; simpl.
  - now constructor.
  - destruct (seg_leb x y); repeat constructor; assumption.
Qed.

Lemma sort_Forall (P : segment -> Prop) (l : segmentlist) :
  Forall P l -> Forall P (sort l).
Proof.
  induction 1 as [|x l Hx Hl IH]; simpl; [constructor|].
  now apply insert_Forall.
Qed.

(** Whatever it is given, the merging pass leaves segments that are not
    empty and have a gap between them. *)
Lemma merge_from_separated (l : segmentlist) :
  Forall (fun s => fst s <= snd s) l ->
  forall (cur : segment) (lb : Z),
    lb < fst cur -> fst cur <= snd cur ->
    separated_from lb (merge_from cur l).
Proof.
  induction 1 as [|y l Hy Hl IH]; intros cur lb Hlb Hcur; simpl.
  - unfold emit. destruct (Z.eqb_spec (fst cur) (snd cur)); simpl; [trivial|].
    repeat split; lia.
  - destruct (Z.leb_spec (fst y) (snd cur)) as [Hle | Hgt].
    + apply IH; simpl; lia.
    + unfold emit. destruct (Z.eqb_spec (fst cur) (snd cur)) as [E | Hne].
      * apply IH; lia.
      * simpl. repeat split; [lia | lia |]. apply IH; lia.
Qed.

Lemma coalesce_separated (l : segmentlist) :
  Forall (fun s => fst s <= snd s) l -> separated (coalesce l).
Proof.
  intros H. apply sort_Forall in H. unfold coalesce.
  destruct (sort l) as [|x l']; [exact I|].
  inversion H as [|? ? Hx Hl']; subst.
  apply (separated_from_separated (fst x - 1)).
  apply merge_from_separated; [assumption | lia | assumption].
Qed.

Lemma filter_separated_from (f : segment -> bool) (l : segmentlist) :
  forall lb, separated_from lb l -> separated_from lb (filter f l).
Proof.
  induction l as [|y l IH]; intros lb H; [exact I|].
  destruct H as (H1 & H2 & H3). simpl. destruct (f y).
  - simpl. repeat split; [assumption | assumption | now apply IH].
  - apply IH. apply (separated_from_weaken (snd y)); [lia | assumption].
Qed.

(** A list that is already coalesced is left as it is. *)
Lemma sort_separated (l : segmentlist) :
  forall lb, separated_from lb l -> sort l = l.
Proof.
  induction l as [|y l IH]; intros lb H; [reflexivity|].
  destruct H as (H1 & H2 & H3). simpl. rewrite (IH _ H3).
  destruct l as [|z l]; [reflexivity|]. simpl.
  destruct H3 as (H4 & _). unfold seg_leb.
  destruct (Z.ltb_spec (fst y) (fst z)); [reflexivity | lia].
Qed.

Lemma merge_from_id (l : segmentlist) :
  forall cur, fst cur < snd cur -> separated_from (snd cur) l ->
              merge_from cur l = cur :: l.
Proof.
  induction l as [|y l IH]; intros cur Hcur H; simpl.
  - unfold emit. destruct (Z.eqb_spec (fst cur) (snd cur)); [lia | reflexivity].
  - destruct H as (H1 & H2 & H3).
    destruct (Z.leb_spec (fst y) (snd cur)); [lia|].
    unfold emit. destruct (Z.eqb_spec (fst cur) (snd cur)); [lia|].
    now rewrite IH.
Qed.

Lemma coalesce_id (l : segmentlist) (lb : Z) :
  separated_from lb l -> coalesce l = l.
Proof.
  intros H. unfold coalesce. rewrite (sort_separated l lb H).
  destruct l as [|x l]; [reflexivity|]. destruct H as (H1 & H2 & H3).
  now apply merge_from_id.
Qed.

(** Contracting segments longer than twice the padding keeps them apart. *)
Lemma contract_separated_from (p : Z) (l : segmentlist) :
  0 <= p ->
  forall lb,
    separated_from lb l -> Forall (fun s => 2 * p < abs s) l ->
    separated_from lb (map (fun s => (fst s + p, snd s - p)) l)
    /\ map (contract1 p) l = map (fun s => (fst s + p, snd s - p)) l.
Proof.
  intros Hp. induction l as [|y l IH]; intros lb Hsep Hlong; [now split|].
  destruct Hsep as (H1 & H2 & H3).
  inversion Hlong as [|? ? Hy Hl]; subst. unfold abs in Hy.
  destruct (IH _ H3 Hl) as [IHs IHm]. split.
  - simpl. repeat split; [lia | lia |].
    apply (separated_from_weaken (snd y)); [lia | assumption].
  - simpl. rewrite IHm. f_equal. unfold contract1. apply Segment_ordered. lia.
Qed.

(** C9, as the run has it.  For an overlap that is not negative, the
    processing segments are coalesced segments of at least
    [segment-duration] seconds: what that filter drops is dropped before
    the contraction.  When [segment-duration] exceeds twice the
    padding, every processing segment is longer than twice the padding
    and the trigger segments are the processing segments, one for one
    and in order, with the padding taken off both ends, hence shorter by
    twice the padding. *)
Theorem trigger_segments_contracted (cp : Config) (cachesegs segs0 : segmentlist)
        (Hov : 0 <= overlap cp) :
  let segs := fst (analysable_segments cp cachesegs segs0) in
  (forall s, In s (coalesce (and_ cachesegs segs0)) ->
             (In s segs <-> segdur cp <= abs s))
  /\ (2 * padding cp < segdur cp ->
      (forall s, In s segs -> 2 * padding cp < abs s)
      /\ trigger_segments cp segs
         = map (fun s => (fst s + padding cp, snd s - padding cp)) segs
      /\ map abs (trigger_segments cp segs)
         = map (fun s => abs s - 2 * padding cp) segs).
Proof.
  intros segs. subst segs. unfold analysable_segments. simpl fst.
  set (all := coalesce (and_ cachesegs segs0)).
  set (segs := filter (fun s => segdur cp <=? abs s) all).
  destruct (padding_bounds cp Hov) as [Hp _].
  split.
  - intros s Hall. unfold segs. rewrite filter_In, Z.leb_le. tauto.
  - intros Hlong.
    assert (Hall : forall s, In s segs -> 2 * padding cp < abs s).
    { intros s Hin. apply filter_In in Hin as [_ Hin].
      apply Z.leb_le in Hin. lia. }
    destruct (separated_separated_from all
                (coalesce_separated _ (and_ordered cachesegs segs0))) as (lb & Hsep).
    apply (filter_separated_from (fun s => segdur cp <=? abs s)) in Hsep.
    fold segs in Hsep.
    destruct (contract_separated_from (padding cp) segs Hp lb Hsep
                (proj2 (Forall_forall _ _) Hall)) as [Hs Hm].
    assert (Ht : trigger_segments cp segs
                 = map (fun s => (fst s + padding cp, snd s - padding cp)) segs).
    { unfold trigger_segments, contract. rewrite Hm. now apply (coalesce_id _ lb). }
    split; [exact Hall|]. split; [exact Ht|].
    rewrite Ht, map_map. apply map_ext. intros s. unfold abs. cbn [fst snd]. lia.
Qed.

(** The [GW] group, frames for [(0, 1000)] and the state segment
    [(100, 400)]: the trigger segments are the processing segments with
    two seconds taken off both ends. *)
Lemma trigger_segments_contracted_witness :
  trigger_segments Examples.cp_gw
    (fst (analysable_segments Examples.cp_gw [(0, 1000)] [(100, 400)]))
  = map (fun s => (fst s + 2, snd s - 2))
        (fst (analysable_segments Examples.cp_gw [(0, 1000)] [(100, 400)])).
Proof.
  apply (proj2 (trigger_segments_contracted Examples.cp_gw [(0, 1000)] [(100, 400)]
                  ltac:(simpl; lia))).
  vm_compute. reflexivity.
Defined.

(** C9 as stated does not hold when [segment-duration] is at most twice
    the padding: with [segment-duration = 2] and [overlap = 6] the
    segment [(0, 4)], no longer than twice the padding, is a processing
    segment and has a trigger segment. *)
Lemma short_segment_kept_counterexample :
  let segs := fst (analysable_segments Examples.cp_short [(0, 4)] [(0, 4)]) in
  In (0, 4) segs
  /\ abs (0, 4) <= 2 * padding Examples.cp_short
  /\ trigger_segments Examples.cp_short segs = [(1, 3)].
Proof.
  vm_compute. repeat split; [now left | discriminate].
Qed.

(** ** No analysable segments *)

Lemma cache_coverage_alldata (env : Env) (dataspan : segmentlist) :
  snd (cache_coverage env dataspan) = true
  <-> exists c d,
      last_seg (fst (cache_coverage env dataspan)) = Some c
      /\ last_seg dataspan = Some d
      /\ snd d <= snd c.
Proof.
  unfold cache_coverage. destruct (cache_segs env) as [cs|]; simpl.
  - destruct (last_seg (coalesce (and_ cs dataspan))) as [c|] eqn:Ec;
      destruct (last_seg dataspan) as [d|] eqn:Ed; simpl; rewrite ?Ec.
    + rewrite Z.leb_le. split.
      * intros H. now exists c, d.
      * intros (c' & d' & [= <-] & [= <-] & H). exact H.
    + split; [discriminate | intros (c' & d' & _ & [=] & _)].
    + split; [discriminate | intros (c' & d' & [=] & _)].
    + split; [discriminate | intros (c' & d' & [=] & _)].
  - split; [discriminate | intros (c' & d' & [=] & _)].
Qed.

(** In an online run that builds a new DAG and is left with no
    analysable segment, let [cachesegs] be the frame segments inside
    the data span [(datastart, dataend)].  The run writes [cachesegs]
    to the segments file exactly when [alldata] holds, that is when
    [cachesegs] is not empty and its last segment ends at [dataend] or
    later; this is so in particular when the frames form one segment
    that covers the span.  Otherwise the file is left as it was.
    Either way the run then calls [clean_dirs] and exits with status 0
    if that call returns. *)
Lemma no_segments_watermark (env : Env) (datastart dataend : Z) (w : world)
        (Hspan : datastart < dataend) :
  let dataspan := [Segment datastart dataend] in
  let cachesegs := fst (cache_coverage env dataspan) in
  let alldata := snd (cache_coverage env dataspan) in
  (alldata = true
   <-> exists c, last_seg cachesegs = Some c /\ dataend <= snd c)
  /\ (alldata = true ->
      check_analysable (run_dirs env) true true alldata cachesegs [] w
      = if forallb Dirs.cleanable (run_dirs env)
        then (Exit 0, {| segfile := Some cachesegs;
                         trace := trace w ++ [WriteSegments cachesegs;
                                              CleanDirs; CleanTempfiles] |})
        else (Raise IOError,
              {| segfile := Some cachesegs;
                 trace := trace w ++ [WriteSegments cachesegs] |}))
  /\ (alldata = false ->
      check_analysable (run_dirs env) true true alldata cachesegs [] w
      = if forallb Dirs.cleanable (run_dirs env)
        then (Exit 0, {| segfile := segfile w;
                         trace := trace w ++ [CleanDirs; CleanTempfiles] |})
        else (Raise IOError, w))
  /\ (forall c, cache_segs env = Some [c] ->
                fst c <= datastart -> dataend <= snd c -> alldata = true).
Proof.
  intros dataspan cachesegs alldata.
  assert (Hds : dataspan = [(datastart, dataend)]).
  { unfold dataspan. rewrite Segment_ordered by lia. reflexivity. }
  split; [|split; [|split]].
  - unfold alldata, cachesegs. rewrite cache_coverage_alldata, Hds. split.
    + intros (c & d & Hc & [= <-] & Hle). now exists c.
    + intros (c & Hc & Hle). now exists c, (datastart, dataend).
  - intros ->. unfold check_analysable. simpl.
    unfold bind at 1. unfold write_segments at 1.
    unfold bind. rewrite clean_dirs_run.
    destruct (forallb Dirs.cleanable (run_dirs env)); [|reflexivity].
    unfold clean_exit, log_event, bind, sys_exit.
    simpl. now rewrite <- !app_assoc.
  - intros ->. unfold check_analysable. simpl.
    unfold bind. rewrite clean_dirs_run.
    destruct (forallb Dirs.cleanable (run_dirs env)); [|reflexivity].
    unfold clean_exit, log_event, bind, sys_exit.
    simpl. now rewrite <- !app_assoc.
  - intros [s e] Hc Hlo Hhi. simpl in Hlo, Hhi.
    unfold alldata, cache_coverage. rewrite Hc, Hds.
    unfold and_, inter. simpl.
    rewrite Z.max_r, Z.min_r by lia.
    destruct (Z.ltb_spec datastart dataend); [|lia]. simpl.
    unfold coalesce. simpl. unfold emit. simpl.
    destruct (Z.eqb_spec datastart dataend); [lia|]. simpl.
    apply Z.leb_refl.
Qed.

(** C2.  Online, after the watermark [(0, 1000)] and with data up to
    GPS 2002, the data span is [(998, 2002)].  The state segment is
    [(1000, 1500)] and the frames found are [(1900, 2002)]: they reach
    the end of the span without covering it, and no segment is left to
    analyse.  The run writes the segments file all the same, so that
    the next run starts at GPS 2002. *)
Theorem partial_coverage_advances_watermark :
  let r := run Examples.args_online Examples.cp_state Examples.env_gap
               (Some [(0, 1000)]) in
  covers [(1900, 2002)] (998, 2002) = false
  /\ fst (cache_coverage Examples.env_gap [Segment 998 2002]) = [(1900, 2002)]
  /\ fst r = Exit 0
  /\ trace (snd r) = [WriteCache; WriteSegments [(1900, 2002)];
                      CleanDirs; CleanTempfiles]
  /\ segfile (snd r) = Some [(1900, 2002)].
Proof.
  vm_compute. repeat split.
Qed.

(** ** The segments file and the submission *)

Lemma quiet_refl (w : world) : quiet w w.
Proof. now repeat split. Qed.

Lemma quiet_trans (w1 w2 w3 : world) : quiet w1 w2 -> quiet w2 w3 -> quiet w1 w3.
Proof.
  intros (A1 & A2 & A3) (B1 & B2 & B3). repeat split; congruence.
Qed.

Lemma bind_inv {A B} (m : M A) (k : A -> M B) (w : world) (r : result B) (w' : world) :
  bind m k w = (r, w') ->
  (exists a w1, m w = (Ret a, w1) /\ k a w1 = (r, w'))
  \/ (exists r0, m w = (r0, w') /\ early r0 r).
Proof.
  unfold bind. destruct (m w) as [[a | c | e |] w1]; intros H.
  - left. now exists a, w1.
  - right. injection H as <- <-. now exists (Exit c).
  - right. injection H as <- <-. now exists (Raise e).
  - right. injection H as <- <-. now exists Hang.
Qed.

Lemma early_Exit {A B} (c : Z) (r : result B) :
  early (@Exit A c) r -> r = Exit c.
Proof. destruct r; simpl; intros H; try contradiction. now subst. Qed.

Lemma silent_ret {A} (a : A) : silent (ret a).
Proof. intros w r w' [= <- <-]. apply quiet_refl. Qed.

Lemma silent_raise {A} (e : exn) : silent (@raise A e).
Proof. intros w r w' [= <- <-]. apply quiet_refl. Qed.

Lemma silent_sys_exit {A} (c : Z) : silent (@sys_exit A c).
Proof. intros w r w' [= <- <-]. apply quiet_refl. Qed.

Lemma silent_hang {A} : silent (@hang A).
Proof. intros w r w' [= <- <-]. apply quiet_refl. Qed.

Lemma silent_lift {A} (r : result A) : silent (lift r).
Proof. intros w r' w' [= <- <-]. apply quiet_refl. Qed.

Lemma submissions_snoc_quiet (t : list event) (ev : event) :
  quiet_event ev = true -> submissions (t ++ [ev]) = submissions t.
Proof.
  intros H. rewrite submissions_app. destruct ev; try discriminate; cbn; lia.
Qed.

Lemma wrote_segments_snoc_quiet (t : list event) (ev : event) :
  quiet_event ev = true -> wrote_segments (t ++ [ev]) = wrote_segments t.
Proof.
  intros H. unfold wrote_segments. rewrite existsb_app.
  destruct ev; try discriminate; simpl; now rewrite orb_false_r.
Qed.

Lemma silent_log_event (ev : event) :
  quiet_event ev = true -> silent (log_event ev).
Proof.
  intros H w r w' [= <- <-]. repeat split; simpl.
  - now apply submissions_snoc_quiet.
  - now apply wrote_segments_snoc_quiet.
Qed.

Lemma silent_bind {A B} (m : M A) (k : A -> M B) :
  silent m -> (forall a, silent (k a)) -> silent (bind m k).
Proof.
  intros Hm Hk w r w' H.
  apply bind_inv in H as [(a & w1 & H1 & H2) | (r0 & H1 & _)].
  - apply (quiet_trans _ w1); [now apply (Hm _ _ _ H1) | now apply (Hk a _ _ _ H2)].
  - now apply (Hm _ _ _ H1).
Qed.

Lemma silent_when (b : bool) (m : M unit) : silent m -> silent (when b m).
Proof. intros H. destruct b; [exact H | apply silent_ret]. Qed.

Lemma silent_get_last_run_segment : silent get_last_run_segment.
Proof.
  intros w r w' H. unfold get_last_run_segment in H.
  destruct (segfile w) as [l|]; [destruct (last_seg l)|];
    injection H as <- <-; apply quiet_refl.
Qed.

Lemma silent_except_IOError {A} (m h : M A) :
  silent m -> silent h -> silent (except_IOError m h).
Proof.
  intros Hm Hh w r w' H. unfold except_IOError in H.
  destruct (m w) as [r0 w1] eqn:E. apply Hm in E.
  destruct r0 as [a | c | e |]; try (injection H as <- <-; exact E).
  destruct e; try (injection H as <- <-; exact E).
  apply (quiet_trans _ w1); [exact E | now apply (Hh _ _ _ H)].
Qed.

Lemma silent_clean_dirs (run_dir_list : list Dirs.entry) :
  silent (clean_dirs run_dir_list).
Proof.
  intros w r w' H. rewrite clean_dirs_run in H.
  destruct (forallb Dirs.cleanable run_dir_list).
  - now apply (silent_log_event CleanDirs eq_refl w r w').
  - injection H as <- <-. apply quiet_refl.
Qed.

(** Pieces built from the silent ones are silent. *)
Ltac silent_tac :=
  repeat first
    [ apply silent_ret
    | apply silent_clean_dirs
    | apply silent_raise
    | apply silent_sys_exit
    | apply silent_hang
    | apply silent_lift
    | apply silent_get_last_run_segment
    | apply silent_log_event; reflexivity
    | apply silent_when
    | apply silent_except_IOError
    | apply silent_bind; [|intros ?]
    | match goal with
      | |- silent (if ?b then _ else _) => destruct b
      | |- silent (match ?x with _ => _ end) => destruct x
      end ].

Lemma silent_validate_options args : silent (validate_options args).
Proof. unfold validate_options, parser_error. silent_tac. Qed.

Lemma silent_rescue_options args : silent (rescue_options args).
Proof. unfold rescue_options, parser_error. silent_tac. Qed.

Lemma silent_check_existing args env options :
  silent (check_existing args env options).
Proof. unfold check_existing. silent_tac. Qed.

Lemma silent_find_run_segment args cp env newdag online :
  silent (find_run_segment args cp env newdag online).
Proof. unfold find_run_segment. silent_tac. Qed.

Lemma silent_check_span cp run_dir_list online dataduration :
  silent (check_span cp run_dir_list online dataduration).
Proof. unfold check_span, clean_exit. silent_tac. Qed.

Lemma silent_find_segments args cp env online datastart dataend :
  silent (find_segments args cp env online datastart dataend).
Proof. unfold find_segments. silent_tac. Qed.

Lemma silent_trigger_span trigsegs : silent (trigger_span trigsegs).
Proof. unfold trigger_span. silent_tac. Qed.

(** [H : m w = (r, w')] for a silent [m] gives [quiet w w']. *)
Ltac by_silent H :=
  match type of H with
  | ?m ?w = (_, _) =>
      let Hs := fresh "Hs" in
      assert (Hs : silent m)
        by first
             [ apply silent_validate_options
             | apply silent_rescue_options
             | apply silent_check_existing
             | apply silent_find_run_segment
             | apply silent_check_span
             | apply silent_find_segments
             | apply silent_trigger_span
             | unfold clean_exit, parser_error; silent_tac ];
      exact (Hs _ _ _ H)
  end.




Lemma ended_after_write_Ret {A} (run_dir_list : list Dirs.entry)
      (w : world) (a : A) (w' : world) :
  ~ ended_after_write run_dir_list w (Ret a) w'.
Proof. intros [(_ & [=] & _) | (_ & [=] & _)]. Qed.

Lemma check_analysable_effect run_dir_list newdag online alldata cachesegs segs
      w r w' :
  check_analysable run_dir_list newdag online alldata cachesegs segs w = (r, w') ->
  quiet w w'
  \/ (online = true /\ newdag = true
      /\ ended_after_write run_dir_list w r w').
Proof.
  unfold check_analysable.
  destruct (newdag && Nat.eqb (List.length segs) 0 && online && alldata) eqn:E.
  - intros H. right.
    apply andb_prop in E as [E _]. apply andb_prop in E as [E ->].
    apply andb_prop in E as [-> _].
    split; [reflexivity|]. split; [reflexivity|].
    unfold bind at 1 in H. unfold write_segments at 1 in H.
    unfold bind in H. rewrite clean_dirs_run in H. unfold ended_after_write.
    destruct (forallb Dirs.cleanable run_dir_list).
    + left. split; [reflexivity|].
      unfold clean_exit, log_event, bind, sys_exit in H. simpl in H.
      injection H as <- <-.
      split; [reflexivity|]. exists cachesegs, (trace w). simpl.
      split; [reflexivity|]. split; [now rewrite <- !app_assoc|].
      rewrite !submissions_app. cbn. lia.
    + right. split; [reflexivity|]. cbn [segfile trace] in H.
      injection H as <- <-.
      split; [reflexivity|]. exists cachesegs, (trace w). simpl.
      split; [reflexivity|]. split; [reflexivity|].
      rewrite !submissions_app. cbn. lia.
  - intros H. left. by_silent H.
Qed.

(** One step of a chain of binds whose head is silent: [Hq] follows the
    world reached, an early exit is closed by the first disjunct. *)
Ltac step_silent H Hq :=
  apply bind_inv in H;
  let a := fresh "a" in
  let w1 := fresh "w" in
  let Hm := fresh "Hm" in
  let r0 := fresh "r0" in
  let Hq' := fresh "Hq" in
  destruct H as [(a & w1 & Hm & H) | (r0 & Hm & _)];
  [ assert (Hq' : quiet _ _) by (by_silent Hm);
    apply (quiet_trans _ _ _ Hq) in Hq'; clear Hq Hm; rename Hq' into Hq
  | left; apply (quiet_trans _ _ _ Hq); by_silent Hm ].

Lemma exit_after_write_quiet {A B} (w0 w : world) (r0 : result A) (r : result B)
      (w' : world) (tail : list event) :
  quiet w0 w -> early r0 r -> exit_after_write w r0 w' tail ->
  exit_after_write w0 r w' tail.
Proof.
  intros (_ & Hs & _) He (-> & segs & pre & H1 & H2 & H3).
  split; [now apply early_Exit in He|].
  exists segs, pre. repeat split; [assumption | assumption | congruence].
Qed.

Lemma early_Raise {A B} (e : exn) (r : result B) :
  early (@Raise A e) r -> r = Raise e.
Proof. destruct r; simpl; intros H; try contradiction. now subst. Qed.

Lemma ended_after_write_quiet {A B} (run_dir_list : list Dirs.entry)
      (w0 w : world) (r0 : result A) (r : result B) (w' : world) :
  quiet w0 w -> early r0 r -> ended_after_write run_dir_list w r0 w' ->
  ended_after_write run_dir_list w0 r w'.
Proof.
  intros Hq He [(Hc & Hx) | (Hc & -> & segs & pre & H1 & H2 & H3)].
  - left. split; [exact Hc|]. eapply exit_after_write_quiet; eassumption.
  - right. split; [exact Hc|]. split; [now apply early_Raise in He|].
    destruct Hq as (_ & Hs & _).
    exists segs, pre. repeat split; [assumption | assumption | congruence].
Qed.

(** Selecting the segments leaves the segments file alone, but for the
    online run with a new DAG that finds nothing to analyse and
    up-to-date frames. *)
Lemma select_segments_effect args cp env newdag online w r w' :
  select_segments args cp env newdag online w = (r, w') ->
  quiet w w'
  \/ (online = true /\ newdag = true
      /\ ended_after_write (run_dirs env) w r w').
Proof.
  intros H. unfold select_segments in H.
  pose proof (quiet_refl w) as Hq.
  step_silent H Hq. step_silent H Hq. step_silent H Hq.
  destruct (truncate_segments _ _ _ _ _) as [[segs dataend]|];
    [|left; apply (quiet_trans _ _ _ Hq); by_silent H].
  step_silent H Hq. step_silent H Hq.
  apply bind_inv in H as [([] & w5 & Hm & H) | (r0 & Hm & He)].
  - apply check_analysable_effect in Hm
      as [Hq' | (_ & _ & Hx)]; [|now apply ended_after_write_Ret in Hx].
    apply (quiet_trans _ _ _ Hq) in Hq'. clear Hq. rename Hq' into Hq.
    step_silent H Hq.
    left. apply (quiet_trans _ _ _ Hq). by_silent H.
  - apply check_analysable_effect in Hm as [Hq' | (Ho & Hn & Hx)].
    + left. now apply (quiet_trans _ _ _ Hq).
    + right. split; [exact Ho|]. split; [exact Hn|].
      eapply ended_after_write_quiet; eassumption.
Qed.





(** The second exception in a run directory that an earlier run has
    used: the frame segments are recorded, then [clean_dirs] raises. *)
Lemma watermark_written_before_error :
  run Examples.args_online Examples.cp_state Examples.env_gap_used
      (Some [(0, 1000)])
  = (Raise IOError,
     {| segfile := Some [(1900, 2002)];
        trace := [WriteCache; WriteSegments [(1900, 2002)]] |}).
Proof. vm_compute. reflexivity. Qed.

(* ================================================================== *)
(** * Further properties of the code                                    *)
(* ================================================================== *)


(** ** Runs that get nowhere *)

(** X4.  With an overlap of at least the chunk duration, the truncation
    of a last segment that touches the end of the data and is longer
    than three chunks and the padding never ends: the loop keeps
    stepping by [chunkdur - overlap <= 0] whatever the number of tests
    allowed, and the run hangs before it has written or submitted
    anything. *)
Theorem truncation_never_ends (cp : Config) (segs : segmentlist)
        (lastseg : segment) (dataend : Z)
        (Hlast : last_seg segs = Some lastseg)
        (Hend : snd lastseg = dataend)
        (Hchunk : 0 < chunkdur cp <= overlap cp)
        (Hlong : 3 * chunkdur cp + padding cp <= abs lastseg) :
  (forall fuel,
      chunk_loop fuel (chunkdur cp) (overlap cp) (fst lastseg) (chunkdur cp)
                 (snd lastseg - (chunkdur cp + padding cp)) = None)
  /\ truncate_segments cp true true segs dataend = None
  /\ (forall args env w start end_,
         find_run_segment args cp env true true w = (Ret (start, end_), w) ->
         chunkdur cp <= (end_ + padding cp) - (start - padding cp) ->
         find_segments args cp env true (start - padding cp) (end_ + padding cp) w
         = (Ret segs, w) ->
         end_ + padding cp = dataend ->
         select_segments args cp env true true w = (Hang, w)).
Proof.
  assert (Hloop : forall fuel,
             chunk_loop fuel (chunkdur cp) (overlap cp) (fst lastseg) (chunkdur cp)
                        (snd lastseg - (chunkdur cp + padding cp)) = None).
  { intros [|fuel]; [reflexivity|]. simpl. unfold abs in Hlong.
    destruct (Z.leb_spec (fst lastseg + chunkdur cp)
                         (snd lastseg - (chunkdur cp + padding cp))); [|lia].
    apply chunk_loop_diverges; lia. }
  assert (Htr : truncate_segments cp true true segs dataend = None).
  { unfold truncate_segments. rewrite Hlast, Hend, Z.eqb_refl. simpl andb.
    destruct (Z.ltb_spec (abs lastseg) (chunkdur cp * 2)).
    - pose proof (padding_bounds cp ltac:(lia)). lia.
    - unfold whole_chunks. now rewrite Hloop. }
  split; [exact Hloop|]. split; [exact Htr|].
  intros args env w start end_ Hseg Hdur Hfind Hde.
  unfold select_segments, bind. rewrite Hseg. cbn [fst snd].
  unfold check_span. rewrite Z.mul_1_l.
  destruct (Z.ltb_spec (end_ + padding cp - (start - padding cp)) (chunkdur cp));
    [lia|].
  cbn [andb]. unfold ret at 1. rewrite Hfind, Hde, Htr. reflexivity.
Qed.

(** [chunk-duration = 8] and [overlap-duration = 8]: the last segment
    [(0, 100)] is never cut. *)
Lemma truncation_never_ends_witness :
  truncate_segments
    {| channels := Examples.cp_short.(channels); chunkdur := 8; segdur := 2;
       overlap := 8; statechannel := false; stateflag := false |}
    true true [(0, 100)] 100 = None.
Proof.
  apply (truncation_never_ends
           {| channels := Examples.cp_short.(channels); chunkdur := 8; segdur := 2;
              overlap := 8; statechannel := false; stateflag := false |}
           [(0, 100)] (0, 100) 100 eq_refl eq_refl).
  - simpl. lia.
  - vm_compute. discriminate.
Defined.

(** X5.  An online run that builds a new DAG with [--use-dev-shm] and
    finds no segments file looks at one chunk and the padding.  When
    the state or frame segment found fills that span, it is shorter
    than two chunks and touches the end of the data, so it is removed:
    the run leaves no segments file, whatever frames are found, and
    the next run is in the same position.  It ends in [clean_dirs]:
    with status 0 when that call returns, with its [OSError]
    otherwise. *)
Theorem dev_shm_first_run_gets_nowhere (args : Args) (cp : Config) (env : Env)
        (w : world)
        (Hfile : segfile w = None)
        (Hshm : use_dev_shm args = true)
        (Hov : 0 <= overlap cp)
        (Hpad : padding cp < chunkdur cp)
        (Hfound :
           find_segments args cp env true
             (latest_data_gps env - padding cp - chunkdur cp)
             (latest_data_gps env) w
           = (Ret [(latest_data_gps env - padding cp - chunkdur cp,
                    latest_data_gps env)], w)) :
  select_segments args cp env true true w
  = if forallb Dirs.cleanable (run_dirs env)
    then (Exit 0, {| segfile := None;
                     trace := trace w ++ [WriteCache; CleanDirs; CleanTempfiles] |})
    else (Raise IOError, {| segfile := None; trace := trace w ++ [WriteCache] |}).
Proof.
  destruct (padding_bounds cp Hov) as [Hp _].
  unfold select_segments.
  assert (Hseg : find_run_segment args cp env true true w
                 = (Ret (latest_data_gps env - padding cp - chunkdur cp + padding cp,
                         latest_data_gps env - padding cp), w)).
  { unfold find_run_segment. cbn [andb]. unfold bind, except_IOError, bind.
    unfold get_last_run_segment. rewrite Hfile, Hshm. reflexivity. }
  unfold bind at 1. rewrite Hseg. cbn [fst snd].
  replace (latest_data_gps env - padding cp - chunkdur cp + padding cp - padding cp)
    with (latest_data_gps env - padding cp - chunkdur cp) by lia.
  replace (latest_data_gps env - padding cp + padding cp)
    with (latest_data_gps env) by lia.
  set (latest := latest_data_gps env) in *.
  set (p := padding cp) in *. set (c := chunkdur cp) in *.
  unfold bind at 1. unfold check_span. rewrite Z.mul_1_l. fold c.
  destruct (Z.ltb_spec (latest - (latest - p - c)) c); [lia|].
  cbn [andb]. unfold ret at 1.
  unfold bind at 1. rewrite Hfound.
  unfold truncate_segments. cbn [last_seg rev app snd fst].
  rewrite Z.eqb_refl. cbn [andb]. unfold abs. cbn [fst snd]. fold c.
  destruct (Z.ltb_spec (latest - (latest - p - c)) (c * 2)); [|lia].
  cbn [drop_last removelast].
  rewrite (Segment_ordered (latest - p - c) (latest - p - c)) by lia.
  unfold when at 1. cbn [negb andb]. unfold bind at 1, ret at 1.
  assert (Hcov : forall d : segment,
             snd d <= fst d -> cache_coverage env [d] = ([], false)).
  { intros d Hd. unfold cache_coverage.
    destruct (cache_segs env) as [cs|]; [|reflexivity].
    assert (Hand : and_ cs [d] = []).
    { unfold and_. induction cs as [|x cs IH]; [reflexivity|].
      cbn [flat_map]. rewrite IH. cbn [fold_right]. unfold inter.
      destruct (Z.ltb_spec (Z.max (fst x) (fst d)) (Z.min (snd x) (snd d)));
        [lia | reflexivity]. }
    rewrite Hand. reflexivity. }
  rewrite Hcov by (cbn [fst snd]; lia). cbn [fst snd].
  unfold when at 1. unfold bind at 1, log_event at 1.
  unfold analysable_segments. cbn [and_ flat_map coalesce sort fold_right filter fst].
  unfold check_analysable. cbn [List.length Nat.eqb andb].
  unfold bind. rewrite clean_dirs_run.
  destruct (forallb Dirs.cleanable (run_dirs env)).
  - unfold clean_exit, log_event, bind, sys_exit. cbn [trace segfile].
    rewrite Hfile, <- !app_assoc. reflexivity.
  - cbn [trace segfile]. rewrite Hfile. reflexivity.
Qed.

(** The frames of the last chunk, seen in the low-latency buffer, in a
    run directory without files below its sub-directories. *)
Lemma dev_shm_first_run_gets_nowhere_witness :
  select_segments MoreExamples.args_dev_shm Examples.cp_gw MoreExamples.env_live
                  true true (start_world None)
  = (Exit 0, {| segfile := None;
                trace := [WriteCache; CleanDirs; CleanTempfiles] |}).
Proof.
  apply (dev_shm_first_run_gets_nowhere
           MoreExamples.args_dev_shm Examples.cp_gw MoreExamples.env_live
           (start_world None) eq_refl eq_refl).
  - simpl. lia.
  - vm_compute. reflexivity.
  - reflexivity.
Defined.

(** ** What a run never does *)

Lemma check_existing_flag args env options w a w1 :
  check_existing args env options w = (Ret a, w1) ->
  a = dag_is_running env && reattach args.
Proof.
  unfold check_existing, bind, when, raise, ret.
  destruct (dag_is_running env), (reattach args); simpl;
    destruct (rescue args && Nat.eqb (nrescue env) 0);
    destruct (negb (Nat.eqb (nrescue env) 0) && negb (rescue args)
              && negb (Channels.mem "force"%string options));
    intros H; try discriminate; now injection H as <- _.
Qed.

Lemma babysit_reattach_silent args env span n :
  forall i options, silent (babysit args env true span n i options).
Proof.
  induction n as [|n IH]; intros i options; cbn [babysit]; [apply silent_ret|].
  apply silent_bind; [unfold submit_or_reattach; silent_tac | intros options'].
  apply silent_bind; [silent_tac | intros _].
  destruct (dag_status env i) as [exitcode|]; [|apply silent_ret].
  destruct (exitcode =? 0); [apply silent_ret|].
  destruct (Z.of_nat i =? submit_rescue_dag args); [apply silent_raise|].
  apply silent_bind; [now apply silent_log_event | intros _; apply IH].
Qed.

(** X6.  A run that reattaches to the DAG it finds running never
    submits a DAG and never writes the segments file, however it ends. *)
Theorem reattach_never_submits (args : Args) (cp : Config) (env : Env)
        (watermark : option segmentlist) (r : result unit) (w' : world)
        (Hre : reattach args = true)
        (Hrun : dag_is_running env = true)
        (H : run args cp env watermark = (r, w')) :
  segfile w' = watermark
  /\ submissions (trace w') = 0%nat
  /\ wrote_segments (trace w') = false.
Proof.
  enough (Hq : quiet (start_world watermark) w' \/ False)
    by (destruct Hq as [Hq | []]; exact Hq).
  unfold run, main in H.
  pose proof (quiet_refl (start_world watermark)) as Hq.
  step_silent H Hq. step_silent H Hq. step_silent H Hq.
  apply bind_inv in H as [(reattach_ & w4 & Hm & H) | (r0 & Hm & _)];
    [|left; apply (quiet_trans _ _ _ Hq); by_silent Hm].
  pose proof (check_existing_flag _ _ _ _ _ _ Hm) as Hflag.
  rewrite Hre, Hrun in Hflag. cbn in Hflag. subst reattach_.
  assert (Hq' : quiet _ w4) by (by_silent Hm).
  apply (quiet_trans _ _ _ Hq) in Hq'. clear Hq Hm. rename Hq' into Hq.
  rewrite andb_false_r in H.
  apply bind_inv in H as [(sel & w5 & Hm & H) | (r0 & Hm & _)].
  - apply select_segments_effect in Hm as [Hq' | (_ & [=] & _)].
    apply (quiet_trans _ _ _ Hq) in Hq'. clear Hq. rename Hq' into Hq.
    step_silent H Hq. step_silent H Hq. step_silent H Hq.
    apply bind_inv in H as [([] & w9 & Hm & H) | (r0 & Hm & _)].
    + apply babysit_reattach_silent in Hm.
      apply (quiet_trans _ _ _ Hq) in Hm.
      left. apply (quiet_trans _ _ _ Hm). by_silent H.
    + left. apply (quiet_trans _ _ _ Hq).
      now apply babysit_reattach_silent in Hm.
  - apply select_segments_effect in Hm as [Hq' | (_ & [=] & _)].
    left. now apply (quiet_trans _ _ _ Hq).
Qed.

(** [--reattach] with the DAG of an earlier run in the queue. *)
Lemma reattach_never_submits_witness :
  submissions
    (trace (snd (run Examples.args_reattach Examples.cp_gw Examples.env_running
                     (Some [(1000, 1840)]))))
  = 0%nat.
Proof.
  apply (reattach_never_submits
           Examples.args_reattach Examples.cp_gw Examples.env_running
           (Some [(1000, 1840)])
           (fst (run Examples.args_reattach Examples.cp_gw Examples.env_running
                     (Some [(1000, 1840)])))
           (snd (run Examples.args_reattach Examples.cp_gw Examples.env_running
                     (Some [(1000, 1840)])))
           eq_refl eq_refl).
  vm_compute. reflexivity.
Defined.

(** X7.  With [--no-submit] the run never submits a DAG: it ends in an
    error or through [sys.exit], with as many submissions in its trace
    as it started with. *)
Theorem no_submit_never_submits (args : Args) (cp : Config) (env : Env)
        (w : world) (r : result unit) (w' : world)
        (Hns : no_submit args = true)
        (H : main args cp env w = (r, w')) :
  submissions (trace w') = submissions (trace w) /\ r <> Ret tt.
Proof.
  enough (Hq : (quiet w w' /\ r <> Ret tt)
               \/ (exists tail, exit_after_write w r w' tail)
               \/ raise_after_write w r w').
  { destruct Hq as [[(_ & Hs & _) Hr]
                   | [(tail & -> & segs & pre & _ & _ & Hs)
                     | (-> & segs & pre & _ & _ & Hs)]];
      (split; [exact Hs | (exact Hr || discriminate)]). }
  unfold main in H. rewrite Hns in H.
  apply bind_inv in H as [(a0 & w1 & Hm0 & H) | (r0 & Hm & He)];
    [|left; split; [by_silent Hm | destruct r0, r; simpl in He; discriminate || contradiction]].
  assert (Hq : quiet w w1) by (by_silent Hm0). clear Hm0.
  apply bind_inv in H as [(a1 & w2 & Hm0 & H) | (r0 & Hm & He)];
    [|left; split; [apply (quiet_trans _ _ _ Hq); by_silent Hm
                   | destruct r0, r; simpl in He; discriminate || contradiction]].
  assert (Hq1 : quiet w1 w2) by (by_silent Hm0).
  apply (quiet_trans _ _ _ Hq) in Hq1. clear Hq Hm0. rename Hq1 into Hq.
  apply bind_inv in H as [(a2 & w3 & Hm0 & H) | (r0 & Hm & He)];
    [|left; split; [apply (quiet_trans _ _ _ Hq); by_silent Hm
                   | destruct r0, r; simpl in He; discriminate || contradiction]].
  assert (Hq1 : quiet w2 w3) by (by_silent Hm0).
  apply (quiet_trans _ _ _ Hq) in Hq1. clear Hq Hm0. rename Hq1 into Hq.
  apply bind_inv in H as [(reattach_ & w4 & Hm0 & H) | (r0 & Hm & He)];
    [|left; split; [apply (quiet_trans _ _ _ Hq); by_silent Hm
                   | destruct r0, r; simpl in He; discriminate || contradiction]].
  assert (Hq1 : quiet w3 w4) by (by_silent Hm0).
  apply (quiet_trans _ _ _ Hq) in Hq1. clear Hq Hm0. rename Hq1 into Hq.
  apply bind_inv in H as [(sel & w5 & Hm & H) | (r0 & Hm & He)].
  - apply select_segments_effect in Hm as [Hq' | (_ & _ & Hx)];
      [|now apply ended_after_write_Ret in Hx].
    apply (quiet_trans _ _ _ Hq) in Hq'. clear Hq. rename Hq' into Hq.
    apply bind_inv in H as [(a5 & w6 & Hm0 & H) | (r0 & Hm & He)];
      [|left; split; [apply (quiet_trans _ _ _ Hq); by_silent Hm
                     | destruct r0, r; simpl in He; discriminate || contradiction]].
    assert (Hq1 : quiet w5 w6) by (by_silent Hm0).
    apply (quiet_trans _ _ _ Hq) in Hq1. clear Hq Hm0. rename Hq1 into Hq.
    apply bind_inv in H as [(a6 & w7 & Hm0 & H) | (r0 & Hm & He)];
      [|left; split; [apply (quiet_trans _ _ _ Hq); by_silent Hm
                     | destruct r0, r; simpl in He; discriminate || contradiction]].
    assert (Hq1 : quiet w6 w7) by (by_silent Hm0).
    apply (quiet_trans _ _ _ Hq) in Hq1. clear Hq Hm0. rename Hq1 into Hq.
    apply bind_inv in H as [(a7 & w8 & Hm & H) | (r0 & Hm & He)].
    + exfalso. cbn [when] in Hm. unfold bind in Hm.
      destruct (when _ _ w7) as [[[] | | |] ?]; discriminate.
    + cbn [when] in Hm. destruct (negb (rescue args) && negb reattach_).
      * right. left. exists [].
        unfold when, bind, write_segments, sys_exit in Hm.
        injection Hm as <- <-. apply early_Exit in He.
        split; [exact He|]. exists (snd sel), (trace w7). cbn [segfile trace].
        split; [reflexivity|]. split; [reflexivity|].
        rewrite submissions_app. cbn. destruct Hq as (_ & Hs & _). lia.
      * left. split; [apply (quiet_trans _ _ _ Hq); by_silent Hm|].
        unfold when, bind, ret, sys_exit in Hm. injection Hm as <- _.
        apply early_Exit in He. subst r. discriminate.
  - apply select_segments_effect in Hm as [Hq' | (_ & _ & Hx)].
    + left. split; [now apply (quiet_trans _ _ _ Hq)|].
      destruct r0, r; simpl in He; discriminate || contradiction.
    + right.
      destruct (ended_after_write_quiet _ _ _ _ _ _ Hq He Hx) as [(_ & Hy) | (_ & Hy)].
      * left. now exists [CleanDirs; CleanTempfiles].
      * now right.
Qed.

(** [--no-submit], online, with frames up to GPS 2002. *)
Lemma no_submit_never_submits_witness :
  submissions
    (trace (snd (main Examples.args_no_submit Examples.cp_gw Examples.env_failing
                      (start_world (Some [(0, 1000)])))))
  = 0%nat.
Proof.
  apply (no_submit_never_submits
           Examples.args_no_submit Examples.cp_gw Examples.env_failing
           (start_world (Some [(0, 1000)]))
           (fst (main Examples.args_no_submit Examples.cp_gw Examples.env_failing
                      (start_world (Some [(0, 1000)]))))
           (snd (main Examples.args_no_submit Examples.cp_gw Examples.env_failing
                      (start_world (Some [(0, 1000)]))))
           eq_refl).
  vm_compute. reflexivity.
Defined.

(** ** The options of the submissions *)

Lemma submitted_options_app (t1 t2 : list event) :
  submitted_options (t1 ++ t2) = submitted_options t1 ++ submitted_options t2.
Proof. unfold submitted_options. apply flat_map_app. Qed.

Lemma remove_first_absent (x : string) (l : list string) :
  Channels.mem x l = false -> remove_first x l = l.
Proof.
  induction l as [|y l IH]; [reflexivity|]. unfold Channels.mem. simpl.
  destruct (String.eqb x y); [discriminate|]. intros H.
  f_equal. now apply IH.
Qed.

Lemma count_occ_remove_first (x : string) (l : list string) :
  count_occ string_dec (remove_first x l) x = Nat.pred (count_occ string_dec l x).
Proof.
  induction l as [|y l IH]; [reflexivity|]. simpl.
  destruct (String.eqb_spec x y) as [-> | Hne].
  - destruct (string_dec y y); [reflexivity | congruence].
  - simpl. destruct (string_dec y x); [congruence | exact IH].
Qed.

Lemma mem_count_occ (x : string) (l : list string) :
  count_occ string_dec l x = 0%nat -> Channels.mem x l = false.
Proof.
  intros H. destruct (Channels.mem x l) eqn:E; [|reflexivity].
  apply mem_In in E. apply (count_occ_In string_dec) in E. lia.
Qed.

(** What one turn adds to the trace, and the options it hands on. *)
Lemma submit_or_reattach_trace env reattach_ span i options w r w' :
  submit_or_reattach env reattach_ span i options w = (r, w') ->
  exists t,
    trace w' = trace w ++ t
    /\ ((reattach_ = true /\ submitted_options t = [] /\ r = Ret options)
        \/ (reattach_ = false /\ submitted_options t = [options]
            /\ r = Ret (remove_first "force" options))
        \/ (reattach_ = false /\ t = [] /\ r = Raise CondorError)).
Proof.
  unfold submit_or_reattach. destruct reattach_.
  - unfold bind, log_event, ret. intros [= <- <-]. exists [FindJob].
    split; [reflexivity|]. now left.
  - destruct (submit_ok env i).
    + unfold bind, log_event, write_segments, ret.
      destruct (Nat.eqb i 0); simpl; intros [= <- <-]; simpl trace;
        [exists [SubmitDag options; WriteSegments span] | exists [SubmitDag options]];
        (split; [now rewrite <- ?app_assoc|]); right; left;
        (split; [reflexivity|]); (split; [reflexivity|]); f_equal;
        (destruct (Channels.mem "force" options) eqn:E;
         [reflexivity | symmetry; now apply remove_first_absent]).
    + intros [= <- <-]. exists []. split; [now rewrite app_nil_r|].
      right. now right.
Qed.

Lemma babysit_options args env reattach_ span n :
  forall i options w r w',
    babysit args env reattach_ span n i options w = (r, w') ->
    exists t,
      trace w' = trace w ++ t
      /\ forall k o,
          nth_error (submitted_options t) k = Some o ->
          o = Nat.iter k (remove_first "force") options.
Proof.
  induction n as [|n IH]; intros i options w r w' H.
  - injection H as <- <-. exists []. split; [now rewrite app_nil_r|].
    intros [|k] o; discriminate.
  - cbn [babysit] in H.
    assert (Hone : forall t w1,
               trace w1 = trace w ++ t ->
               submitted_options t = [] \/ submitted_options t = [options] ->
               w' = w1 ->
               exists t',
                 trace w' = trace w ++ t'
                 /\ forall k o,
                     nth_error (submitted_options t') k = Some o ->
                     o = Nat.iter k (remove_first "force") options).
    { intros t w1 Ht Hs ->. exists t. split; [exact Ht|].
      intros k o. destruct Hs as [-> | ->]; [destruct k; discriminate|].
      destruct k as [|[|k]]; simpl; try discriminate. now intros [= <-]. }
    apply bind_inv in H as [(options' & w1 & H1 & H) | (r0 & H1 & _)].
    + apply submit_or_reattach_trace in H1 as (t1 & Ht1 & Hcase).
      assert (Hs1 : submitted_options t1 = [] \/ submitted_options t1 = [options]).
      { destruct Hcase as [(_ & E & _) | [(_ & E & _) | (_ & -> & _)]];
          [now left | now right | now left]. }
      unfold bind in H.
      destruct (watch_raises env i);
        [injection H as <- <-; now apply (Hone t1 w1)|].
      unfold ret at 1 in H.
      destruct (dag_status env i) as [exitcode|];
        [|injection H as <- <-; now apply (Hone t1 w1)].
      destruct (exitcode =? 0);
        [injection H as <- <-; now apply (Hone t1 w1)|].
      destruct (Z.of_nat i =? submit_rescue_dag args);
        [injection H as <- <-; now apply (Hone t1 w1)|].
      unfold log_event at 1 in H.
      apply IH in H as (t2 & Ht2 & Hopts). simpl trace in Ht2.
      exists (t1 ++ [FindRescueDag] ++ t2).
      split; [rewrite Ht2, Ht1; now rewrite <- !app_assoc|].
      intros k o. rewrite !submitted_options_app. cbn [submitted_options flat_map app].
      destruct Hcase as [(_ & E & [= ->]) | [(_ & E & [= ->]) | (_ & _ & [=])]];
        rewrite E.
      * apply Hopts.
      * destruct k as [|k]; [now intros [= <-]|]. cbn [app nth_error].
        intros Hk. rewrite (Hopts k o Hk). now rewrite Nat.iter_succ_r.
    + apply submit_or_reattach_trace in H1 as (t1 & Ht1 & Hcase).
      apply (Hone t1 w'); [exact Ht1 | | reflexivity].
      destruct Hcase as [(_ & E & _) | [(_ & E & _) | (_ & -> & _)]];
        [now left | now right | now left].
Qed.

(** X8.  In the submission loop the [k]-th submission is made with the
    dagman options from which [k] occurrences of [force] have been
    removed.  With at most one [force] among the options, as by
    default, the first submission alone is forced: the resubmissions
    that follow a failure, which are to pick up the rescue DAG, never
    are. *)
Theorem force_on_first_submission_only (args : Args) (env : Env)
        (reattach_ : bool) (span : segmentlist) (n i : nat)
        (options : list string) (w : world) (r : result unit) (w' : world)
        (H : babysit args env reattach_ span n i options w = (r, w')) :
  exists t,
    trace w' = trace w ++ t
    /\ (forall k o,
           nth_error (submitted_options t) k = Some o ->
           o = Nat.iter k (remove_first "force") options)
    /\ ((count_occ string_dec options "force"%string <= 1)%nat ->
        forall k o,
          nth_error (submitted_options t) (S k) = Some o ->
          Channels.mem "force" o = false).
Proof.
  destruct (babysit_options _ _ _ _ _ _ _ _ _ _ H) as (t & Ht & Hopts).
  exists t. split; [exact Ht|]. split; [exact Hopts|].
  intros Hc k o Hk. rewrite (Hopts (S k) o Hk).
  apply mem_count_occ.
  assert (Hiter : forall m,
             count_occ string_dec (Nat.iter m (remove_first "force") options)
                       "force"%string
             = (count_occ string_dec options "force"%string - m)%nat).
  { induction m as [|m IHm]; [simpl; lia|].
    cbn [Nat.iter nat_rect]. rewrite count_occ_remove_first.
    change (nat_rect _ options (fun _ => remove_first "force") m)
      with (Nat.iter m (remove_first "force") options).
    rewrite IHm. lia. }
  rewrite Hiter. lia.
Qed.

(** [--submit-rescue-dag 2] and a DAG that fails every time: the
    second and third submissions are made without [force]. *)
Lemma force_on_first_submission_only_witness :
  exists t,
    trace (snd (babysit Examples.args_rescue_twice Examples.env_failing false
                        [(1000, 1840)] 3 0 ["force"%string] (start_world None)))
    = t
    /\ submitted_options t = [["force"%string]; []; []].
Proof.
  destruct (force_on_first_submission_only
              Examples.args_rescue_twice Examples.env_failing false
              [(1000, 1840)] 3 0 ["force"%string] (start_world None)
              (fst (babysit Examples.args_rescue_twice Examples.env_failing false
                            [(1000, 1840)] 3 0 ["force"%string] (start_world None)))
              (snd (babysit Examples.args_rescue_twice Examples.env_failing false
                            [(1000, 1840)] 3 0 ["force"%string] (start_world None)))
              ltac:(vm_compute; reflexivity)) as (t & Ht & _).
  exists t. split; [exact Ht|].
  vm_compute in Ht. subst t. reflexivity.
Defined.

(** ** The times of the processing segments *)

Lemma covered_cons (x : segment) (l : segmentlist) (t : Z) :
  covered (x :: l) t <-> fst x <= t < snd x \/ covered l t.
Proof.
  unfold covered. split.
  - intros (s & [<- | Hin] & Ht); [now left | right; now exists s].
  - intros [Ht | (s & Hin & Ht)]; [exists x | exists s]; simpl; auto.
Qed.

Lemma covered_nil (t : Z) : ~ covered [] t.
Proof. intros (s & [] & _). Qed.

Lemma in_and (a b : segmentlist) (s : segment) :
  In s (and_ a b) <-> exists x y, In x a /\ In y b /\ inter x y = Some s.
Proof.
  unfold and_. rewrite in_flat_map. split.
  - intros (x & Hx & Hin). exists x.
    induction b as [|y b IH]; [destruct Hin|]. cbn [fold_right] in Hin.
    destruct (inter x y) as [s'|] eqn:E; cbn [opt_cons] in Hin.
    + destruct Hin as [<- | Hin].
      * exists y. repeat split; [assumption | now left | assumption].
      * destruct (IH Hin) as (y' & Hx' & Hy' & E'). exists y'.
        repeat split; [assumption | now right | assumption].
    + destruct (IH Hin) as (y' & Hx' & Hy' & E'). exists y'.
      repeat split; [assumption | now right | assumption].
  - intros (x & y & Hx & Hy & E). exists x. split; [assumption|].
    induction b as [|y' b IH]; [destruct Hy|]. cbn [fold_right].
    destruct Hy as [-> | Hy].
    + rewrite E. now left.
    + destruct (inter x y'); cbn [opt_cons]; [right|]; now apply IH.
Qed.

Lemma covered_and (a b : segmentlist) (t : Z) :
  covered (and_ a b) t <-> covered a t /\ covered b t.
Proof.
  unfold covered. split.
  - intros (s & Hin & Ht). apply in_and in Hin as (x & y & Hx & Hy & E).
    unfold inter in E.
    destruct (Z.ltb_spec (Z.max (fst x) (fst y)) (Z.min (snd x) (snd y)));
      [|discriminate].
    injection E as <-. simpl in Ht.
    split; [exists x | exists y]; split; try assumption; lia.
  - intros [(x & Hx & Htx) (y & Hy & Hty)].
    exists (Z.max (fst x) (fst y), Z.min (snd x) (snd y)). split.
    + apply in_and. exists x, y. repeat split; try assumption.
      unfold inter.
      destruct (Z.ltb_spec (Z.max (fst x) (fst y)) (Z.min (snd x) (snd y)));
        [reflexivity | lia].
    + simpl. lia.
Qed.

Lemma in_insert (x y : segment) (l : segmentlist) :
  In x (insert y l) <-> x = y \/ In x l.
Proof.
  induction l as [|z l IH]; simpl; [intuition congruence|].
  destruct (seg_leb y z); simpl; [intuition congruence|].
  rewrite IH. intuition congruence.
Qed.

Lemma in_sort (x : segment) (l : segmentlist) : In x (sort l) <-> In x l.
Proof.
  induction l as [|y l IH]; [reflexivity|]. simpl.
  rewrite in_insert, IH. intuition congruence.
Qed.

Lemma starts_sorted_weaken (lo lo' : Z) (l : segmentlist) :
  lo' <= lo -> starts_sorted lo l -> starts_sorted lo' l.
Proof.
  destruct l as [|y l]; [trivial|]. simpl. intros Hle [H1 H2]. split; [lia | exact H2].
Qed.

Lemma insert_sorted (x : segment) (l : segmentlist) :
  forall lo, lo <= fst x -> starts_sorted lo l -> starts_sorted lo (insert x l).
Proof.
  induction l as [|y l IH]; intros lo Hx Hl; simpl.
  - now split.
  - destruct Hl as [Hy Hl]. unfold seg_leb.
    destruct (Z.ltb_spec (fst x) (fst y)) as [Hlt | Hge]; simpl.
    + repeat split; [lia | lia | exact Hl].
    + destruct (Z.eqb_spec (fst x) (fst y)) as [E | Hne]; simpl.
      * destruct (snd x <=? snd y); simpl.
        -- repeat split; [lia | lia | exact Hl].
        -- split; [lia|]. apply IH; [lia | exact Hl].
      * split; [lia|]. apply IH; [lia | exact Hl].
Qed.

Lemma sort_sorted (l : segmentlist) (lo : Z) :
  (forall s, In s l -> lo <= fst s) -> starts_sorted lo (sort l).
Proof.
  induction l as [|y l IH]; intros Hlo; [exact I|]. simpl.
  apply insert_sorted; [apply Hlo; now left|].
  apply IH. intros s Hs. apply Hlo. now right.
Qed.

Lemma covered_emit (cur : segment) (rest : segmentlist) (t : Z) :
  covered (emit cur rest) t <-> covered (cur :: rest) t.
Proof.
  unfold emit. destruct (Z.eqb_spec (fst cur) (snd cur)); [|reflexivity].
  rewrite covered_cons. split; [now right | intros [H | H]; [lia | exact H]].
Qed.

(** The merging pass over segments that start in order keeps the times
    covered. *)
Lemma covered_merge_from (l : segmentlist) (t : Z) :
  forall cur, starts_sorted (fst cur) l ->
              (covered (merge_from cur l) t <-> covered (cur :: l) t).
Proof.
  induction l as [|y l IH]; intros cur Hs; simpl.
  - apply covered_emit.
  - destruct Hs as [Hy Hl].
    destruct (Z.leb_spec (fst y) (snd cur)) as [Hle | Hgt].
    + rewrite IH by (simpl; now apply (starts_sorted_weaken (fst y))).
      rewrite !covered_cons. simpl. split.
      * intros [Ht | Hc]; [|now right; right].
        destruct (Z.lt_ge_cases t (snd cur)); [left; lia | right; left; lia].
      * intros [Ht | [Ht | Hc]]; [left; lia | left; lia | now right].
    + rewrite covered_emit, !covered_cons, (IH y Hl), covered_cons. tauto.
Qed.

Lemma covered_coalesce (l : segmentlist) (t : Z) :
  covered (coalesce l) t <-> covered l t.
Proof.
  assert (Hsort : covered (sort l) t <-> covered l t).
  { unfold covered. split; intros (s & Hin & Ht); exists s;
      (split; [now apply in_sort | exact Ht]). }
  rewrite <- Hsort. unfold coalesce.
  destruct (sort l) as [|x l'] eqn:E; [reflexivity|].
  apply covered_merge_from.
  assert (Hlo : exists lo, forall s, In s l -> lo <= fst s).
  { clear. induction l as [|y l [lo IH]]; [exists 0; intros s []|].
    exists (Z.min (fst y) lo). intros s [<- | Hin]; [lia|].
    specialize (IH s Hin). lia. }
  destruct Hlo as (lo & Hlo).
  pose proof (sort_sorted l lo Hlo) as Hs.
  rewrite E in Hs. now destruct Hs.
Qed.

(** X9.  The processing segments cover only times for which frames are
    available and the state is right; they are in order, apart from
    one another and not empty; and a time that is in both lists is
    lost only when the coalesced segment around it is shorter than
    [segment-duration]. *)
Theorem processing_segments_times (cp : Config) (cachesegs segs : segmentlist)
        (t : Z) :
  let result := fst (analysable_segments cp cachesegs segs) in
  (covered result t -> covered cachesegs t /\ covered segs t)
  /\ separated result
  /\ (covered cachesegs t -> covered segs t ->
      exists s, In s (coalesce (and_ cachesegs segs))
                /\ fst s <= t < snd s
                /\ (segdur cp <= abs s -> In s result)).
Proof.
  intros result. subst result. unfold analysable_segments. cbn [fst].
  set (all := coalesce (and_ cachesegs segs)).
  split; [|split].
  - intros (s & Hin & Ht). apply filter_In in Hin as [Hin _].
    apply covered_and. apply (covered_coalesce (and_ cachesegs segs) t).
    now exists s.
  - destruct (separated_separated_from all
                (coalesce_separated _ (and_ordered cachesegs segs))) as (lb & Hsep).
    apply (separated_from_separated lb). now apply filter_separated_from.
  - intros Hc Hs.
    destruct (proj2 (covered_coalesce (and_ cachesegs segs) t)
                    (proj2 (covered_and cachesegs segs t) (conj Hc Hs)))
      as (s & Hin & Ht).
    exists s. split; [exact Hin|]. split; [exact Ht|].
    intros Hd. apply filter_In. split; [exact Hin | now apply Z.leb_le].
Qed.

(** ** Other ways out of the submission loop *)

(** X10.  A DAG whose status has no exit code, or cannot be queried,
    ends the loop like one that exited with status 0: after failures
    in the turns before [k <= N], the loop returns at turn [k] without
    an error and without a further submission. *)
Theorem unknown_status_ends_loop (args : Args) (env : Env) (span : segmentlist)
        (N k : nat) (options : list string) (w : world)
        (HN : submit_rescue_dag args = Z.of_nat N)
        (Hk : (k <= N)%nat)
        (Hok : forall i, (i <= k)%nat ->
                         submit_ok env i = true /\ watch_raises env i = false)
        (Hfail : forall i, (i < k)%nat ->
                           exists code, dag_status env i = Some code /\ code <> 0)
        (Hunknown : dag_status env k = None) :
  exists w',
    babysit args env false span (turns args) 0 options w = (Ret tt, w')
    /\ submissions (trace w') = (submissions (trace w) + (k + 1))%nat.
Proof.
  assert (Ht : turns args = S N) by (unfold turns; rewrite HN; lia).
  rewrite Ht.
  enough (Hgen : forall n i options w,
             (i <= k)%nat -> (k < i + n)%nat -> (i + n <= S N)%nat ->
             exists w',
               babysit args env false span n i options w = (Ret tt, w')
               /\ submissions (trace w') = (submissions (trace w) + S (k - i))%nat).
  { destruct (Hgen (S N) 0%nat options w ltac:(lia) ltac:(lia) ltac:(lia))
      as (w' & E & Hs).
    exists w'. split; [exact E | lia]. }
  clear options w. induction n as [|n IH]; intros i options w Hik Hkn HnN; [lia|].
  destruct (submit_turn env span i options w (proj1 (Hok i Hik)))
    as (options' & w1 & E & Hs).
  cbn [babysit]. unfold bind at 1. rewrite E.
  unfold bind at 1. rewrite (proj2 (Hok i Hik)). unfold ret at 1.
  destruct (Nat.eq_dec i k) as [-> | Hne].
  - rewrite Hunknown. exists w1. split; [reflexivity | lia].
  - destruct (Hfail i ltac:(lia)) as (code & Ec & Hc).
    rewrite Ec. destruct (Z.eqb_spec code 0); [contradiction|].
    rewrite HN. destruct (Z.eqb_spec (Z.of_nat i) (Z.of_nat N)); [lia|].
    destruct (IH (S i) options'
                 {| segfile := segfile w1; trace := trace w1 ++ [FindRescueDag] |}
                 ltac:(lia) ltac:(lia) ltac:(lia)) as (w' & E' & Hs').
    exists w'. unfold bind at 1. unfold log_event at 1. rewrite E'.
    split; [reflexivity|].
    rewrite Hs'. simpl trace. rewrite submissions_app. cbn. lia.
Qed.

(** [--submit-rescue-dag 2], and a status without exit code after the
    first submission. *)
Lemma unknown_status_ends_loop_witness :
  exists w',
    babysit Examples.args_rescue_twice MoreExamples.env_unknown false
            [(1000, 1840)] 3 0 ["force"%string] (start_world None)
    = (Ret tt, w')
    /\ submissions (trace w') = 1%nat.
Proof.
  apply (unknown_status_ends_loop
           Examples.args_rescue_twice MoreExamples.env_unknown [(1000, 1840)]
           2 0 ["force"%string] (start_world None) eq_refl).
  - lia.
  - intros i _. split; reflexivity.
  - intros i Hi. lia.
  - reflexivity.
Defined.

Lemma wrote_segments_app (t1 t2 : list event) :
  wrote_segments (t1 ++ t2) = wrote_segments t1 || wrote_segments t2.
Proof. unfold wrote_segments. apply existsb_app. Qed.

(** A turn after the first adds no write of the segments file. *)
Lemma submit_or_reattach_later env reattach_ span i options w r w' :
  i <> 0%nat ->
  submit_or_reattach env reattach_ span i options w = (r, w') ->
  segfile w' = segfile w
  /\ exists t, trace w' = trace w ++ t /\ wrote_segments t = false.
Proof.
  intros Hi. unfold submit_or_reattach.
  destruct (Nat.eqb_spec i 0) as [|_]; [contradiction|].
  unfold bind, log_event, ret, raise.
  destruct reattach_; [|destruct (submit_ok env i)]; cbn;
    intros [= <- <-]; (split; [reflexivity|]).
  - now exists [FindJob].
  - now exists [SubmitDag options].
  - exists []. split; [now rewrite app_nil_r | reflexivity].
Qed.

Lemma babysit_later_turns args env reattach_ span n :
  forall i options w r w',
    i <> 0%nat ->
    babysit args env reattach_ span n i options w = (r, w') ->
    segfile w' = segfile w
    /\ exists t, trace w' = trace w ++ t /\ wrote_segments t = false.
Proof.
  induction n as [|n IH]; intros i options w r w' Hi H.
  - injection H as _ <-. split; [reflexivity|]. exists [].
    split; [now rewrite app_nil_r | reflexivity].
  - cbn [babysit] in H.
    apply bind_inv in H as [(options' & w1 & H1 & H) | (r0 & H1 & _)];
      [|now apply (submit_or_reattach_later _ _ _ _ _ _ _ _ Hi H1)].
    apply (submit_or_reattach_later _ _ _ _ _ _ _ _ Hi) in H1
      as (Hseg1 & t1 & Ht1 & Hw1).
    assert (Hstop : w' = w1 ->
                    segfile w' = segfile w
                    /\ exists t, trace w' = trace w ++ t /\ wrote_segments t = false).
    { intros ->. split; [exact Hseg1 | now exists t1]. }
    unfold bind at 1 in H.
    destruct (watch_raises env i); [injection H as _ <-; now apply Hstop|].
    unfold ret at 1 in H.
    destruct (dag_status env i) as [exitcode|];
      [|injection H as _ <-; now apply Hstop].
    destruct (exitcode =? 0); [injection H as _ <-; now apply Hstop|].
    destruct (Z.of_nat i =? submit_rescue_dag args);
      [injection H as _ <-; now apply Hstop|].
    unfold bind at 1, log_event at 1 in H.
    apply IH in H as (Hseg2 & t2 & Ht2 & Hw2); [|discriminate].
    cbn [segfile trace] in Hseg2, Ht2.
    split; [congruence|].
    exists (t1 ++ [FindRescueDag] ++ t2). split.
    + rewrite Ht2, Ht1. now rewrite <- !app_assoc.
    + rewrite !wrote_segments_app, Hw1, Hw2. reflexivity.
Qed.

(** X11.  Once the first submission has succeeded the segments file
    holds the span of the run, however the loop ends: by a DAG that
    fails for good, by a monitoring call that raises, or after rescue
    submissions, none of which writes the file again. *)
Theorem first_submission_records_span (args : Args) (env : Env)
        (span : segmentlist) (n : nat) (options : list string)
        (w : world) (r : result unit) (w' : world)
        (Hsub : submit_ok env 0 = true)
        (H : babysit args env false span (S n) 0 options w = (r, w')) :
  segfile w' = Some span
  /\ exists t,
      trace w' = trace w ++ SubmitDag options :: WriteSegments span :: t
      /\ wrote_segments t = false.
Proof.
  cbn [babysit] in H. unfold submit_or_reattach in H. rewrite Hsub in H.
  cbn [Nat.eqb] in H.
  unfold bind at 1 in H. unfold bind at 1 in H. unfold log_event at 1 in H.
  unfold bind at 1 in H. unfold write_segments at 1 in H. unfold ret at 1 in H.
  cbn [trace segfile] in H.
  assert (Hstop : w' = {| segfile := Some span;
                          trace := (trace w ++ [SubmitDag options])
                                     ++ [WriteSegments span] |} ->
                  segfile w' = Some span
                  /\ exists t,
                      trace w' = trace w ++ SubmitDag options
                                         :: WriteSegments span :: t
                      /\ wrote_segments t = false).
  { intros ->. split; [reflexivity|]. exists []. split; [|reflexivity].
    cbn [trace]. now rewrite <- app_assoc. }
  unfold bind at 1 in H.
  destruct (watch_raises env 0); [injection H as _ <-; now apply Hstop|].
  unfold ret at 1 in H.
  destruct (dag_status env 0) as [exitcode|];
    [|injection H as _ <-; now apply Hstop].
  destruct (exitcode =? 0); [injection H as _ <-; now apply Hstop|].
  destruct (Z.of_nat 0 =? submit_rescue_dag args);
    [injection H as _ <-; now apply Hstop|].
  unfold bind at 1, log_event at 1 in H.
  apply babysit_later_turns in H as (Hseg & t & Ht & Hw); [|discriminate].
  cbn [segfile trace] in Hseg, Ht.
  split; [exact Hseg|].
  exists (FindRescueDag :: t). split.
  - rewrite Ht. now rewrite <- !app_assoc.
  - exact Hw.
Qed.

(** [--submit-rescue-dag 2] and a DAG that fails every time: the span
    is written once, after the first of the three submissions. *)
Lemma first_submission_records_span_witness :
  segfile (snd (babysit Examples.args_rescue_twice Examples.env_failing false
                        [(1000, 1840)] 3 0 ["force"%string] (start_world None)))
  = Some [(1000, 1840)].
Proof.
  apply (first_submission_records_span
           Examples.args_rescue_twice Examples.env_failing [(1000, 1840)] 2
           ["force"%string] (start_world None)
           (fst (babysit Examples.args_rescue_twice Examples.env_failing false
                         [(1000, 1840)] 3 0 ["force"%string] (start_world None)))
           (snd (babysit Examples.args_rescue_twice Examples.env_failing false
                         [(1000, 1840)] 3 0 ["force"%string] (start_world None)))
           eq_refl).
  vm_compute. reflexivity.
Defined.

(** X12.  A rescue is never forced.  With [--rescue] the default
    [force], first in the list of dagman options, is dropped; a
    [force] given by the user as well is refused with the usage error,
    and otherwise every submission of the loop is made with the
    options of the user, none of them [force]. *)
Theorem rescue_never_forced (args : Args) (user : list string) (w : world)
        (Hrescue : rescue args = true)
        (Hdefault : dagman_option args = "force"%string :: user) :
  (Channels.mem "force" user = true -> rescue_options args w = (Exit 2, w))
  /\ (Channels.mem "force" user = false ->
      rescue_options args w = (Ret user, w)
      /\ forall env reattach_ span n i w1 r w',
          babysit args env reattach_ span n i user w1 = (r, w') ->
          exists t,
            trace w' = trace w1 ++ t
            /\ forall o, In o (submitted_options t) ->
                         o = user /\ Channels.mem "force" o = false).
Proof.
  assert (Hcount : Channels.mem "force" user = true
                   <-> (1 < count_occ string_dec (dagman_option args) "force"%string)%nat).
  { rewrite Hdefault. cbn [count_occ].
    destruct (string_dec "force" "force") as [_|]; [|congruence].
    rewrite mem_In, (count_occ_In string_dec). lia. }
  unfold rescue_options. rewrite Hrescue. cbn [andb].
  split; intros Hmem.
  - destruct (Z.ltb_spec 1 (Z.of_nat (count_occ string_dec (dagman_option args)
                                                  "force"%string)));
      [reflexivity|].
    apply Hcount in Hmem. lia.
  - split.
    + destruct (Z.ltb_spec 1 (Z.of_nat (count_occ string_dec (dagman_option args)
                                                    "force"%string))) as [Hlt|].
      * assert (Channels.mem "force" user = true) by (apply Hcount; lia).
        congruence.
      * now rewrite Hdefault.
    + intros env reattach_ span n i w1 r w' H.
      destruct (babysit_options _ _ _ _ _ _ _ _ _ _ H) as (t & Ht & Hopts).
      exists t. split; [exact Ht|].
      intros o Hin. apply In_nth_error in Hin as (k & Hk).
      rewrite (Hopts k o Hk).
      assert (Hiter : Nat.iter k (remove_first "force") user = user).
      { clear - Hmem. induction k as [|k IH]; [reflexivity|].
        cbn [Nat.iter nat_rect].
        change (nat_rect _ user (fun _ => remove_first "force") k)
          with (Nat.iter k (remove_first "force") user).
        rewrite IH. now apply remove_first_absent. }
      rewrite Hiter. now split.
Qed.

(** [--rescue -d maxidle=10]: the rescue DAG is submitted with
    [maxidle=10] alone. *)
Lemma rescue_never_forced_witness :
  rescue_options MoreExamples.args_rescue (start_world None)
  = (Ret ["maxidle=10"%string], start_world None).
Proof.
  apply (proj2 (rescue_never_forced MoreExamples.args_rescue ["maxidle=10"%string]
                  (start_world None) eq_refl eq_refl)).
  reflexivity.
Defined.

(** ** Files of the omicron and post-processing nodes *)

Section NodeFacts.

Import Nodes.

Lemma lookup_set_same {V} (k : string) (v : V) (d : dict V) :
  lookup k (set_item k v d) = Some v.
Proof.
  induction d as [|[k' v'] d IH]; simpl.
  - now rewrite String.eqb_refl.
  - destruct (String.eqb_spec k k') as [<- | Hne]; simpl.
    + now rewrite String.eqb_refl.
    + destruct (String.eqb_spec k k'); [contradiction | exact IH].
Qed.

Lemma lookup_set_other {V} (k k' : string) (v : V) (d : dict V) :
  k <> k' -> lookup k' (set_item k v d) = lookup k' d.
Proof.
  intros Hne. induction d as [|[k0 v0] d IH]; simpl.
  - destruct (String.eqb_spec k' k); [congruence | reflexivity].
  - destruct (String.eqb_spec k k0) as [<- | Hne0]; simpl.
    + destruct (String.eqb_spec k' k); [congruence | reflexivity].
    + destruct (String.eqb_spec k' k0); [reflexivity | exact IH].
Qed.

(** Recording files for a channel and a format appends them to the
    files of that channel and format and touches no other entry. *)
Lemma files_of_record (chan form : string) (flist : list string)
      (d : filedict) (c f : string) :
  files_of c f (record_files chan form flist d)
  = files_of c f d
    ++ (if String.eqb chan c && String.eqb form f then flist else []).
Proof.
  unfold files_of, get, record_files.
  destruct (String.eqb_spec chan c) as [<- | Hc]; cbn [andb].
  - destruct (lookup chan d) as [forms|] eqn:El.
    + destruct (lookup form forms) as [files|] eqn:Ef;
        rewrite lookup_set_same;
        (destruct (String.eqb_spec form f) as [<- | Hf];
         [rewrite lookup_set_same, ?Ef; reflexivity
         | rewrite (lookup_set_other form f) by assumption;
           now rewrite app_nil_r]).
    + rewrite lookup_set_same. cbn [lookup].
      destruct (String.eqb_spec form f) as [<- | Hf].
      * now rewrite String.eqb_refl.
      * destruct (String.eqb_spec f form); [congruence | reflexivity].
  - rewrite app_nil_r.
    destruct (lookup chan d) as [forms|]; [destruct (lookup form forms)|];
      now rewrite (lookup_set_other chan c) by assumption.
Qed.

Lemma matching_app (c f : string) (l1 l2 : list (string * string * list string)) :
  matching c f (l1 ++ l2) = matching c f l1 ++ matching c f l2.
Proof. unfold matching. apply flat_map_app. Qed.

Lemma record_channel_spec (chan : string) (items : dict (list string)) :
  forall st c f,
    files_of c f (snd (record_channel chan items st))
    = files_of c f (snd st)
      ++ matching c f (map (fun item => (chan, fst item, snd item)) items)
    /\ fst (record_channel chan items st)
       = fst st ++ flat_map snd (map (fun item => (chan, fst item, snd item)) items).
Proof.
  unfold record_channel.
  induction items as [|[form flist] items IH]; intros st c f.
  - simpl. now rewrite !app_nil_r.
  - cbn [fold_left map fst snd]. destruct (IH (fst st ++ flist, record_files chan form flist (snd st)) c f) as [IH1 IH2].
    rewrite IH1, IH2. cbn [fst snd]. rewrite files_of_record.
    split.
    + unfold matching at 2. cbn [flat_map fst snd]. now rewrite <- app_assoc.
    + cbn [flat_map snd]. now rewrite <- app_assoc.
Qed.

Lemma record_node_spec (nodefiles : filedict) (chanlist : list string) :
  forall st st' c f,
    record_node nodefiles chanlist st = Some st' ->
    files_of c f (snd st')
    = files_of c f (snd st) ++ matching c f (node_items nodefiles chanlist)
    /\ fst st' = fst st ++ flat_map snd (node_items nodefiles chanlist).
Proof.
  induction chanlist as [|chan rest IH]; intros st st' c f H.
  - injection H as <-. simpl. now rewrite !app_nil_r.
  - cbn [record_node node_items] in H |- *.
    destruct (lookup chan nodefiles) as [items|]; [|discriminate].
    destruct (IH _ _ c f H) as [IH1 IH2].
    destruct (record_channel_spec chan items st c f) as [R1 R2].
    rewrite IH1, IH2, R1, R2, matching_app, flat_map_app.
    now rewrite <- !app_assoc.
Qed.

Lemma build_nodes_spec (args : Args) (output_files : segment -> filedict)
      (chanlist : list string) (nodesegs : list segment) :
  skip_omicron args = false ->
  forall d nodes d' c f,
    build_nodes args output_files chanlist nodesegs d = Some (nodes, d') ->
    files_of c f d'
    = files_of c f d
      ++ matching c f
           (flat_map (fun subseg => node_items (output_files subseg) chanlist)
                     nodesegs)
    /\ nodes
       = map (fun subseg => flat_map snd (node_items (output_files subseg) chanlist))
             nodesegs.
Proof.
  intros Hskip. induction nodesegs as [|subseg rest IH]; intros d nodes d' c f H.
  - injection H as <- <-. simpl. now rewrite app_nil_r.
  - cbn [build_nodes] in H. rewrite Hskip in H. cbn [negb] in H.
    destruct (record_node (output_files subseg) chanlist ([], d))
      as [[outputs d1]|] eqn:En; [|discriminate].
    destruct (build_nodes args output_files chanlist rest d1)
      as [[nodes1 d2]|] eqn:Eb; [|discriminate].
    injection H as <- <-.
    destruct (record_node_spec _ _ _ _ c f En) as [N1 N2].
    destruct (IH _ _ _ c f Eb) as [B1 B2]. cbn [fst snd] in N1, N2.
    split.
    + rewrite B1, N1. cbn [flat_map]. rewrite matching_app.
      now rewrite <- app_assoc.
    + cbn [map]. now rewrite N2, B2.
Qed.

Lemma channel_inputs_holds (fileformats formats : list string) (d : filedict)
      (c : string) (inputs : list string) :
  channel_inputs fileformats formats d c = Some inputs ->
  forall f file,
    In f formats -> Channels.mem f fileformats = true ->
    In file (files_of c f d) -> In file inputs.
Proof.
  revert inputs. induction formats as [|form rest IH]; intros inputs H f file Hf Hm Hin;
    [destruct Hf|].
  cbn [channel_inputs] in H.
  destruct (Channels.mem form fileformats) eqn:Em.
  - destruct (get c form d) as [files|] eqn:Eg; [|discriminate].
    destruct (channel_inputs fileformats rest d c) as [inputs'|] eqn:Ec;
      [|discriminate].
    injection H as <-. apply in_or_app.
    destruct Hf as [<- | Hf].
    + left. unfold files_of in Hin. now rewrite Eg in Hin.
    + right. now apply (IH inputs' eq_refl f file).
  - destruct Hf as [<- | Hf]; [congruence|].
    now apply (IH inputs H f file).
Qed.

Lemma postprocess_inputs_holds (fileformats : list string) (d : filedict)
      (chanlist : list string) :
  forall inputs,
    postprocess_inputs fileformats d chanlist = Some inputs ->
    forall c f file,
      In c chanlist -> In f known_formats -> Channels.mem f fileformats = true ->
      In file (files_of c f d) -> In file inputs.
Proof.
  induction chanlist as [|c0 rest IH]; intros inputs H c f file Hc Hf Hm Hin;
    [destruct Hc|].
  cbn [postprocess_inputs] in H.
  destruct (channel_inputs fileformats known_formats d c0) as [inputs0|] eqn:E0;
    [|discriminate].
  destruct (postprocess_inputs fileformats d rest) as [inputs1|] eqn:E1;
    [|discriminate].
  injection H as <-. apply in_or_app. destruct Hc as [<- | Hc].
  - left. now apply (channel_inputs_holds _ _ _ _ _ E0 f file).
  - right. now apply (IH inputs1 eq_refl c f file).
Qed.

(** X13.  When the omicron nodes are built, [omicronfiles] holds for
    every channel and format the files the nodes declared for them, in
    the order of the nodes; every node has as outputs the files of its
    own items; and the post-processing node, when it can be built,
    takes as input every file recorded for one of its channels in an
    enabled format. *)
Theorem postprocess_takes_node_outputs (args : Args)
        (output_files : segment -> filedict) (chanlist : list string)
        (nodesegs : list segment) (fileformats : list string)
        (nodes : list (list string)) (omicronfiles : filedict)
        (Hskip : skip_omicron args = false)
        (H : build_nodes args output_files chanlist nodesegs [] = Some (nodes, omicronfiles)) :
  (forall c f,
      files_of c f omicronfiles
      = matching c f
          (flat_map (fun subseg => node_items (output_files subseg) chanlist)
                    nodesegs))
  /\ nodes
     = map (fun subseg => flat_map snd (node_items (output_files subseg) chanlist))
           nodesegs
  /\ (forall inputs,
         postprocess_inputs fileformats omicronfiles chanlist = Some inputs ->
         forall c f file,
           In c chanlist -> In f known_formats ->
           Channels.mem f fileformats = true ->
           In file (files_of c f omicronfiles) -> In file inputs).
Proof.
  split; [|split].
  - intros c f. now destruct (build_nodes_spec args _ _ _ Hskip _ _ _ c f H).
  - now destruct (build_nodes_spec args _ _ _ Hskip _ _ _
                    EmptyString EmptyString H).
  - apply postprocess_inputs_holds.
Qed.

(** X14.  With [--skip-omicron] no node is built and [omicronfiles]
    stays empty, so that building the post-processing node for a
    channel raises [KeyError] as soon as one of the formats root, hdf5,
    xml or txt is enabled. *)
Theorem skip_omicron_breaks_postprocessing (args : Args)
        (output_files : segment -> filedict) (chanlist : list string)
        (nodesegs : list segment) (fileformats : list string)
        (c : string) (form : string)
        (Hskip : skip_omicron args = true)
        (Hform : In form known_formats)
        (Henabled : Channels.mem form fileformats = true) :
  build_nodes args output_files chanlist nodesegs [] = Some ([], [])
  /\ postprocess_inputs fileformats [] (c :: chanlist) = None.
Proof.
  split.
  - induction nodesegs as [|subseg rest IH]; [reflexivity|].
    cbn [build_nodes]. rewrite Hskip. exact IH.
  - cbn [postprocess_inputs].
    assert (Hc : channel_inputs fileformats known_formats [] c = None).
    { revert Hform. generalize known_formats as formats.
      induction formats as [|f rest IH]; intros Hin; [destruct Hin|].
      cbn [channel_inputs]. destruct Hin as [-> | Hin].
      - now rewrite Henabled.
      - destruct (Channels.mem f fileformats); [reflexivity | now apply IH]. }
    now rewrite Hc.
Qed.

End NodeFacts.

(** The omicron nodes of two sub-segments for the [GW] group. *)
Lemma postprocess_takes_node_outputs_witness :
  Nodes.files_of "H1:GDS-CALIB_STRAIN" "root"
    (snd (match Nodes.build_nodes Examples.args_online
                  NodeExamples.example_output_files ["H1:GDS-CALIB_STRAIN"%string]
                  [(1000, 1060); (1060, 1120)] [] with
          | Some r => r
          | None => ([], [])
          end))
  = ["H1-GDS_CALIB_STRAIN_OMICRON-1000-60.root"%string;
     "H1-GDS_CALIB_STRAIN_OMICRON-1000-60.root"%string].
Proof.
  destruct (Nodes.build_nodes Examples.args_online
              NodeExamples.example_output_files ["H1:GDS-CALIB_STRAIN"%string]
              [(1000, 1060); (1060, 1120)] []) as [[nodes d]|] eqn:E;
    [|vm_compute in E; discriminate].
  rewrite (proj1 (postprocess_takes_node_outputs
                    Examples.args_online NodeExamples.example_output_files
                    ["H1:GDS-CALIB_STRAIN"%string] [(1000, 1060); (1060, 1120)]
                    ["root"%string] nodes d eq_refl E)).
  reflexivity.
Defined.

(** [--skip-omicron] with ROOT files enabled. *)
Lemma skip_omicron_breaks_postprocessing_witness :
  Nodes.postprocess_inputs ["root"%string] [] ["H1:GDS-CALIB_STRAIN"%string] = None.
Proof.
  apply (proj2 (skip_omicron_breaks_postprocessing
                  NodeExamples.args_skip_omicron NodeExamples.example_output_files
                  [] [(1000, 1060)] ["root"%string] "H1:GDS-CALIB_STRAIN" "root"
                  eq_refl ltac:(now left) eq_refl)).
Defined.

(** ** Arguments of the submission *)

Section DagmanFacts.

Import Dagman.

Lemma split1_two (c : ascii) (s key val : string) :
  Channels.split1 c s = [key; val] -> s = (key ++ String c val)%string.
Proof.
  revert key. induction s as [|a s IH]; intros key H; [discriminate|].
  simpl in H. destruct (Ascii.eqb_spec a c) as [-> | Hne].
  - now injection H as <- <-.
  - destruct (Channels.split1 c s) as [|w [|w' [|? ?]]] eqn:E;
      try discriminate.
    injection H as <- <-. simpl. f_equal. now apply IH.
Qed.

Lemma dagman_step_other (st : list string * Nodes.dict string) (x : string) :
  ~ is_append x ->
  Nodes.lookup "-append" (snd (dagman_step st x)) = Nodes.lookup "-append" (snd st).
Proof.
  intros Hx. unfold dagman_step.
  destruct (Channels.split1 equals (String "-" x)) as [|key [|val [|? ?]]] eqn:E;
    try reflexivity.
  cbn [snd]. apply lookup_set_other. intros ->.
  apply split1_two in E. simpl in E. injection E as ->.
  apply Hx. now exists val.
Qed.

Lemma dagman_step_append (st : list string * Nodes.dict string) (v : string) :
  Nodes.lookup "-append" (snd (dagman_step st ("append=" ++ v)%string)) = Some v.
Proof.
  unfold dagman_step. cbn. apply lookup_set_same.
Qed.

Lemma dagman_fold_other (options : list string) :
  Forall (fun x => ~ is_append x) options ->
  forall st,
    Nodes.lookup "-append" (snd (fold_left dagman_step options st))
    = Nodes.lookup "-append" (snd st).
Proof.
  induction 1 as [|x options Hx Hl IH]; intros st; [reflexivity|].
  cbn [fold_left]. rewrite IH. now apply dagman_step_other.
Qed.

Lemma dagman_flags_kept (options : list string) :
  forall st y, In y (fst st) -> In y (fst (fold_left dagman_step options st)).
Proof.
  induction options as [|x options IH]; intros st y Hy; [exact Hy|].
  cbn [fold_left]. apply IH. unfold dagman_step.
  destruct (Channels.split1 equals (String "-" x)) as [|key [|val [|? ?]]];
    cbn [fst]; try exact Hy;
    unfold set_add; destruct (Channels.mem _ (fst st));
    try exact Hy; apply in_or_app; now left.
Qed.

(** X15.  The DAG of an online run is tagged with [+OmicronDAGMan],
    through the keyword [-append], as long as no dagman option of the
    user has the form [append=value]; the last option of that form
    replaces the tag.  An option without [=] is passed as a flag with
    its dash. *)
Theorem dagman_append_tag (online : bool) (group : string)
        (options : list string) :
  (Forall (fun x => ~ is_append x) options ->
   Nodes.lookup "-append" (snd (dagman_arguments online group options))
   = if online then Some (omicron_dagman group) else None)
  /\ (forall before v after,
         options = before ++ ("append=" ++ v)%string :: after ->
         Forall (fun x => ~ is_append x) after ->
         Nodes.lookup "-append" (snd (dagman_arguments online group options))
         = Some v)
  /\ (forall x,
         In x options ->
         Channels.split1 equals (String "-" x) = [String "-" x] ->
         In (String "-" x) (fst (dagman_arguments online group options))).
Proof.
  unfold dagman_arguments. split; [|split].
  - intros Hnone. rewrite (dagman_fold_other options Hnone). cbn [snd].
    destruct online; reflexivity.
  - intros before v after -> Hafter.
    rewrite fold_left_app. cbn [fold_left].
    rewrite (dagman_fold_other after Hafter).
    apply dagman_step_append.
  - intros x Hin Hflag.
    apply in_split in Hin as (before & after & ->).
    rewrite fold_left_app. cbn [fold_left].
    apply dagman_flags_kept. unfold dagman_step. rewrite Hflag. cbn [fst].
    unfold set_add.
    destruct (Channels.mem (String "-" x) _) eqn:Em.
    + now apply mem_In in Em.
    + apply in_or_app. right. now left.
Qed.

End DagmanFacts.

(** ** omicron-status: the segments with triggers *)

Lemma firstn_snoc_nth_seg (i : nat) (l : segmentlist) :
  (i < List.length l)%nat ->
  firstn (S i) l = firstn i l ++ [nth i l (0, 0)].
Proof.
  revert i. induction l as [|x l IH]; intros i Hi; simpl in Hi; [lia|].
  destruct i as [|i]; [reflexivity|].
  change (firstn (S (S i)) (x :: l)) with (x :: firstn (S i) l).
  rewrite IH by lia. reflexivity.
Qed.

Lemma resolvable_from_spec (overlap_ : Z) (segs : segmentlist) (n : nat) :
  (n <= List.length segs)%nat ->
  forall done,
    Status.resolvable_from n overlap_ segs done
    = map (Status.contract_half overlap_)
          (filter (fun s => negb (abs s <=? overlap_)) (firstn n segs))
      ++ done.
Proof.
  induction n as [|i IH]; intros Hn done; [reflexivity|].
  cbn [Status.resolvable_from].
  rewrite (firstn_snoc_nth_seg i segs) by lia.
  rewrite filter_app, map_app. cbn [filter].
  destruct (abs (nth i segs (0, 0)) <=? overlap_); cbn [negb map].
  - rewrite IH by lia. now rewrite app_nil_r.
  - rewrite IH by lia. now rewrite <- app_assoc.
Qed.

(** X16.  The status check looks for triggers in the frame and state
    segments that are longer than the overlap, that is than twice the
    padding, and in those only: each of them is contracted by the
    padding at both ends, which leaves a segment shorter by the
    overlap and not empty, and the order of the segments is kept. *)
Theorem status_resolvable_segments (overlap_ : Z) (segs : segmentlist) :
  Status.resolvable_segments overlap_ segs
  = map (Status.contract_half overlap_)
        (filter (fun s => overlap_ <? abs s) segs)
  /\ (forall s, overlap_ < abs s ->
                Status.contract_half overlap_ s
                = (2 * fst s + overlap_, 2 * snd s - overlap_)
                /\ abs (Status.contract_half overlap_ s) = 2 * (abs s - overlap_)
                /\ 0 < abs (Status.contract_half overlap_ s)).
Proof.
  split.
  - unfold Status.resolvable_segments.
    rewrite resolvable_from_spec by apply le_n.
    rewrite firstn_all, app_nil_r. f_equal. apply filter_ext.
    intros s. destruct (Z.leb_spec (abs s) overlap_), (Z.ltb_spec overlap_ (abs s));
      try reflexivity; lia.
  - intros s Hs. unfold abs in Hs. unfold Status.contract_half.
    rewrite Segment_ordered by lia. unfold abs. cbn [fst snd].
    repeat split; lia.
Qed.

(** ** Omicron nodes that can run together *)

(** A node of a later wave runs after every node of an earlier wave. *)
Lemma later_wave_runs_after (maxcon : Z) (Hm : 1 <= maxcon) (n : nat) :
  forall (d : nat) (i j : nat),
    (j < n)%nat ->
    wave maxcon j = wave maxcon i + Z.of_nat (S d) ->
    runs_after (concurrency_ladder maxcon (seq 0 n)) j i.
Proof.
  induction d as [|d IH]; intros i j Hj Hw.
  - apply after_parent. apply (ladder_seq_edges maxcon Hm). split; [exact Hj | lia].
  - pose proof (wave_nonneg maxcon i Hm) as Hi0.
    set (m := Z.to_nat ((wave maxcon i + 1) * maxcon)).
    assert (Hwm : wave maxcon m = wave maxcon i + 1).
    { apply wave_block; [exact Hm|]. unfold m. rewrite Z2Nat.id by nia. nia. }
    assert (Hmj : (m < j)%nat).
    { destruct (Nat.lt_ge_cases m j) as [|Hge]; [assumption|].
      pose proof (wave_mono maxcon j m Hm Hge). lia. }
    apply (after_trans _ j m i).
    + apply IH; [exact Hj | lia].
    + apply after_parent. apply (ladder_seq_edges maxcon Hm).
      split; [lia | exact Hwm].
Qed.

Lemma runs_after_wave (maxcon : Z) (Hm : 1 <= maxcon) (n : nat) (j i : nat) :
  runs_after (concurrency_ladder maxcon (seq 0 n)) j i ->
  (j < n)%nat /\ wave maxcon i < wave maxcon j.
Proof.
  induction 1 as [c p Hin | c m p _ [IH1 IH2] _ [IH3 IH4]].
  - apply (ladder_seq_edges maxcon Hm) in Hin. lia.
  - split; [exact IH1 | lia].
Qed.

(** X18.  With [maxcon >= 1] an omicron node waits, directly or not,
    for exactly the nodes of the waves before its own: the order of
    the waves is the whole dependency between omicron nodes, and no
    node waits for itself. *)
Theorem runs_after_iff_earlier_wave (maxcon : Z) (n i j : nat)
        (Hm : 1 <= maxcon) (Hj : (j < n)%nat) :
  (runs_after (concurrency_ladder maxcon (seq 0 n)) j i
   <-> wave maxcon i < wave maxcon j)
  /\ ~ runs_after (concurrency_ladder maxcon (seq 0 n)) j j.
Proof.
  split; [split|].
  - intros H. now apply (runs_after_wave maxcon Hm n j i).
  - intros Hlt.
    apply (later_wave_runs_after maxcon Hm n
             (Z.to_nat (wave maxcon j - wave maxcon i - 1)) i j); [exact Hj | lia].
  - intros H. apply (runs_after_wave maxcon Hm) in H. lia.
Qed.

(** Seven nodes with [--max-concurrent 2]: node 5 waits for node 0,
    two waves before. *)
Lemma runs_after_iff_earlier_wave_witness :
  runs_after (concurrency_ladder 2 (seq 0 7)) 5%nat 0%nat.
Proof.
  apply (proj1 (runs_after_iff_earlier_wave 2 7 0 5 ltac:(lia) ltac:(lia))).
  vm_compute. reflexivity.
Defined.

(** X17.  The ladder caps the omicron nodes that can run at the same
    time: with [maxcon >= 1], two nodes of different waves are ordered
    by the parent edges, so that nodes none of which has to wait for
    another are all of one wave, and there are at most [maxcon] of
    them. *)
Theorem at_most_maxcon_nodes_together (maxcon : Z) (n : nat) (together : list nat)
        (Hm : 1 <= maxcon)
        (Hnodes : forall i, In i together -> (i < n)%nat)
        (Hdistinct : NoDup together)
        (Hfree : forall i j,
            In i together -> In j together -> i <> j ->
            ~ runs_after (concurrency_ladder maxcon (seq 0 n)) j i) :
  (forall i j, In i together -> In j together -> wave maxcon i = wave maxcon j)
  /\ Z.of_nat (List.length together) <= maxcon.
Proof.
  assert (Hsame : forall i j, In i together -> In j together ->
                              wave maxcon i = wave maxcon j).
  { intros i j Hi Hj.
    destruct (Z.lt_trichotomy (wave maxcon i) (wave maxcon j)) as [Hlt | [E | Hgt]];
      [|exact E|].
    - exfalso. apply (Hfree i j Hi Hj); [intros ->; lia|].
      apply (later_wave_runs_after maxcon Hm n
               (Z.to_nat (wave maxcon j - wave maxcon i - 1)) i j);
        [now apply Hnodes | lia].
    - exfalso. apply (Hfree j i Hj Hi); [intros ->; lia|].
      apply (later_wave_runs_after maxcon Hm n
               (Z.to_nat (wave maxcon i - wave maxcon j - 1)) j i);
        [now apply Hnodes | lia]. }
  split; [exact Hsame|].
  destruct together as [|x rest] eqn:E; [simpl; lia|]. rewrite <- E in *.
  assert (Hx : In x together) by (rewrite E; now left).
  pose proof (wave_nonneg maxcon x Hm) as Hx0.
  assert (Hincl : incl together
                       (seq (Z.to_nat (wave maxcon x * maxcon)) (Z.to_nat maxcon))).
  { intros i Hi. apply in_seq.
    pose proof (proj1 (wave_block maxcon (wave maxcon x) i Hm) (Hsame i x Hi Hx)).
    rewrite <- Z2Nat.inj_add by nia. split.
    - apply Nat2Z.inj_le. rewrite Z2Nat.id by nia. lia.
    - apply Nat2Z.inj_lt. rewrite Z2Nat.id by nia. lia. }
  pose proof (NoDup_incl_length Hdistinct Hincl) as Hlen.
  rewrite length_seq in Hlen. lia.
Qed.

(** Seven nodes with [--max-concurrent 2]: the nodes 2 and 3, which
    make the second wave, wait for none of each other. *)
Lemma at_most_maxcon_nodes_together_witness :
  wave 2 2 = wave 2 3.
Proof.
  apply (proj1 (at_most_maxcon_nodes_together 2 7 [2%nat; 3%nat] ltac:(lia)
                  ltac:(intros i [<- | [<- | []]]; lia)
                  ltac:(repeat constructor; simpl; intuition lia)
                  ltac:(intros i j [<- | [<- | []]] [<- | [<- | []]] Hne H;
                        try congruence;
                        apply (runs_after_wave 2 ltac:(lia)) in H;
                        vm_compute in H; destruct H as [_ H]; discriminate)));
    simpl; tauto.
Defined.

(** ** The span recorded for a run *)

Lemma last_map_seg (f : segment -> segment) (l : segmentlist) (d : segment) :
  last (map f l) (f d) = f (last l d).
Proof.
  induction l as [|x l IH]; [reflexivity|].
  destruct l as [|y l]; [reflexivity|]. exact IH.
Qed.

Lemma last_default_seg (x : segment) (l : segmentlist) (d d' : segment) :
  last (x :: l) d = last (x :: l) d'.
Proof.
  revert x. induction l as [|y l IH]; intros x; [reflexivity|].
  change (last (y :: l) d = last (y :: l) d'). apply IH.
Qed.

Lemma extent_fold_separated (l : segmentlist) :
  forall a b,
    a < b -> separated_from b l ->
    fold_left (fun acc s => (Z.min (fst acc) (fst s), Z.max (snd acc) (snd s)))
              l (a, b)
    = (a, snd (last l (a, b))).
Proof.
  induction l as [|y l IH]; intros a b Hab Hsep; [reflexivity|].
  destruct Hsep as (H1 & H2 & H3). cbn [fold_left fst snd].
  rewrite Z.min_l, Z.max_r by lia.
  rewrite IH by (assumption || lia).
  destruct l as [|z l]; [reflexivity|].
  f_equal. f_equal. change (last (y :: z :: l) (a, b)) with (last (z :: l) (a, b)).
  apply last_default_seg.
Qed.

(** X19.  When [segment-duration] exceeds twice the padding, the span
    recorded for the run, which the segments file receives at the
    first submission, runs from the start of the first processing
    segment plus the padding to the end of the last one minus the
    padding. *)
Theorem recorded_span (cp : Config) (cachesegs segs0 : segmentlist)
        (first : segment) (rest : segmentlist) (w : world)
        (Hov : 0 <= overlap cp)
        (Hlong : 2 * padding cp < segdur cp)
        (Hsegs : fst (analysable_segments cp cachesegs segs0) = first :: rest) :
  trigger_span (trigger_segments cp (first :: rest)) w
  = (Ret [(fst first + padding cp, snd (last rest first) - padding cp)], w).
Proof.
  destruct (padding_bounds cp Hov) as [Hp _].
  unfold analysable_segments in Hsegs. cbn [fst] in Hsegs.
  set (all := coalesce (and_ cachesegs segs0)) in Hsegs.
  destruct (separated_separated_from all
              (coalesce_separated _ (and_ordered cachesegs segs0))) as (lb & Hsep).
  apply (filter_separated_from (fun s => segdur cp <=? abs s)) in Hsep.
  assert (Hall : Forall (fun s => 2 * padding cp < abs s) (first :: rest)).
  { rewrite <- Hsegs. apply Forall_forall. intros s Hin.
    apply filter_In in Hin as [_ Hin]. apply Z.leb_le in Hin. lia. }
  rewrite Hsegs in Hsep.
  destruct (contract_separated_from (padding cp) (first :: rest) Hp lb Hsep Hall)
    as [Hs Hm].
  unfold trigger_span, trigger_segments, contract.
  rewrite Hm, (coalesce_id _ lb Hs).
  cbn [map extent]. destruct Hs as (Hs1 & Hs2 & Hs3). cbn [fst snd] in Hs1, Hs2, Hs3.
  rewrite (extent_fold_separated _ _ _ Hs2 Hs3).
  change (fst first + padding cp, snd first - padding cp)
    with ((fun s : segment => (fst s + padding cp, snd s - padding cp)) first).
  rewrite last_map_seg. reflexivity.
Qed.

(** The [GW] group, frames for [(0, 1000)] and the state segments
    [(100, 400)] and [(500, 900)]: the span recorded is [(102, 898)]. *)
Lemma recorded_span_witness :
  trigger_span (trigger_segments Examples.cp_gw [(100, 400); (500, 900)])
               (start_world None)
  = (Ret [(102, 898)], start_world None).
Proof.
  apply (recorded_span Examples.cp_gw [(0, 1000)] [(100, 400); (500, 900)]
           (100, 400) [(500, 900)] (start_world None)).
  - simpl. lia.
  - vm_compute. reflexivity.
  - reflexivity.
Defined.
